(** * AutoNAT v2 server: rate limiter, dial-data exchange, dial back and
      request handler of [p2p/protocol/autonatv2/server.go].

    The Go code is embedded shallowly: slices are lists, the two maps of the
    rate limiter are a [gmap] and a [gset] keyed by peer id, [time.Time] is a
    point on one integer time line counted in nanoseconds, and the stream
    handler is a function in a small state monad that records every
    observable action in a trace. *)

From Stdlib Require Import ZArith List Bool Lia.
From Stdlib.Strings Require Import Byte.
From stdpp Require Import gmap strings list fin_maps sorting.

Local Open Scope Z_scope.

(** ** Time, as package [time] presents it to the server *)

Module GoTime.

(** A [time.Time] is a number of nanoseconds on the time line of the
    clock; a [time.Duration] is an int64 count of nanoseconds. *)
Definition Time := Z.
Definition Duration := Z.

Definition minDuration : Duration := - 2 ^ 63.
Definition maxDuration : Duration := 2 ^ 63 - 1.

Definition Second : Duration := 1000000000.
Definition Minute : Duration := 60 * Second.

(** [t.Sub(u)]: the difference, saturated to the range of a Duration. *)
Definition Sub (t u : Time) : Duration :=
  let d := t - u in
  if d <? minDuration then minDuration
  else if maxDuration <? d then maxDuration
  else d.

(** [t.Add(d)] *)
Definition Add (t : Time) (d : Duration) : Time := t + d.

End GoTime.

Import GoTime.

(** ** The rate limiter *)

(** [peer.ID] is a Go string. *)
Abbreviation peer_ID := string (only parsing).

Record entry := mkEntry {
  PeerID : peer_ID;
  Time_ : Time
}.

#[global] Instance entry_eq_dec : EqDecision entry.
Proof. solve_decision. Defined.

(** The struct [rateLimiter] without its mutex and its clock: the clock
    reading is an argument of the operations that read it.  A nil map reads
    and deletes like an empty one, and both maps are made before the first
    write, so nil and empty are not told apart. *)
Record rateLimiter := mkRateLimiter {
  PerPeerRPM : Z;
  RPM : Z;
  DialDataRPM : Z;
  reqs : list entry;
  peerReqs : gmap string (list Time);
  dialDataReqs : list Time;
  ongoingReqs : gset string
}.

(** [len(s)] as a Go int. *)
Definition len {A} (s : list A) : Z := Z.of_nat (length s).

(** Reading a map of slices at a missing key gives the nil slice. *)
Definition peerLog (m : gmap string (list Time)) (p : peer_ID) : list Time :=
  default [] (m !! p).

(** An entry has aged out when [now.Sub(t) >= time.Minute]. *)
Definition expired (now t : Time) : bool := Minute <=? Sub now t.
Definition fresh (now t : Time) : bool := Sub now t <? Minute.

(** The inner loops of [cleanup]: the index of the first time stamp younger
    than a minute, or the length of the slice when there is none. *)
Fixpoint firstFresh (now : Time) (ts : list Time) : nat :=
  match ts with
  | [] => O
  | t :: ts' => if fresh now t then O else S (firstFresh now ts')
  end.

(** The body run for an expired entry of [reqs]: cut the peer's sublog at
    the first fresh time stamp, store it, and delete the key when the
    stored slice is empty. *)
Definition prunePeer (now : Time) (p : peer_ID)
    (m : gmap string (list Time)) : gmap string (list Time) :=
  let pi := firstFresh now (peerLog m p) in
  let m1 := <[p := drop pi (peerLog m p)]> m in
  if len (peerLog m1 p) =? 0 then delete p m1 else m1.

(** The outer loop of [cleanup] over the entries of [reqs]: the index at
    which the loop breaks (the length when it runs to the end) and the map
    of sublogs as the loop leaves it. *)
Fixpoint cleanupReqs (now : Time) (es : list entry)
    (m : gmap string (list Time)) : nat * gmap string (list Time) :=
  match es with
  | [] => (O, m)
  | e :: es' =>
      if expired now (Time_ e) then
        let '(idx, m') := cleanupReqs now es' (prunePeer now (PeerID e) m) in
        (S idx, m')
      else (O, m)
  end.

Definition cleanup (now : Time) (r : rateLimiter) : rateLimiter :=
  let '(idx, m) := cleanupReqs now (reqs r) (peerReqs r) in
  {| PerPeerRPM := PerPeerRPM r;
     RPM := RPM r;
     DialDataRPM := DialDataRPM r;
     reqs := drop idx (reqs r);
     peerReqs := m;
     dialDataReqs := drop (firstFresh now (dialDataReqs r)) (dialDataReqs r);
     ongoingReqs := ongoingReqs r |}.

Definition Accept (now : Time) (p : peer_ID) (r : rateLimiter)
    : bool * rateLimiter :=
  let r := cleanup now r in
  if decide (p ∈ ongoingReqs r) then (false, r)
  else if (RPM r <=? len (reqs r)) || (PerPeerRPM r <=? len (peerLog (peerReqs r) p))
  then (false, r)
  else (true,
        {| PerPeerRPM := PerPeerRPM r;
           RPM := RPM r;
           DialDataRPM := DialDataRPM r;
           reqs := reqs r ++ [mkEntry p now];
           peerReqs := <[p := peerLog (peerReqs r) p ++ [now]]> (peerReqs r);
           dialDataReqs := dialDataReqs r;
           ongoingReqs := {[p]} ∪ ongoingReqs r |}).

Definition AcceptDialDataRequest (now : Time) (p : peer_ID) (r : rateLimiter)
    : bool * rateLimiter :=
  let r := cleanup now r in
  if DialDataRPM r <=? len (dialDataReqs r) then (false, r)
  else (true,
        {| PerPeerRPM := PerPeerRPM r;
           RPM := RPM r;
           DialDataRPM := DialDataRPM r;
           reqs := reqs r;
           peerReqs := peerReqs r;
           dialDataReqs := dialDataReqs r ++ [now];
           ongoingReqs := ongoingReqs r |}).

Definition CompleteRequest (p : peer_ID) (r : rateLimiter) : rateLimiter :=
  {| PerPeerRPM := PerPeerRPM r;
     RPM := RPM r;
     DialDataRPM := DialDataRPM r;
     reqs := reqs r;
     peerReqs := peerReqs r;
     dialDataReqs := dialDataReqs r;
     ongoingReqs := ongoingReqs r ∖ {[p]} |}.

(** The limiter [newServer] builds: the three quotas and nothing logged. *)
Definition newLimiter (rpm perPeer dialData : Z) : rateLimiter :=
  {| PerPeerRPM := perPeer; RPM := rpm; DialDataRPM := dialData;
     reqs := []; peerReqs := ∅; dialDataReqs := []; ongoingReqs := ∅ |}.

(** *** Sequences of limiter calls

    A call is made at the clock reading paired with it ([CompleteRequest]
    does not read the clock).  Beside the limiter the run keeps, as ghost
    state, what the invariants speak about: the requests [Accept] admitted so
    far in call order, the admitted requests not yet completed, the reading
    of the last call and whether that call was an admission. *)

Inductive call :=
  | CallAccept (p : peer_ID)
  | CallAcceptDialDataRequest (p : peer_ID)
  | CallCompleteRequest (p : peer_ID).

Record history := mkHistory {
  h_limiter : rateLimiter;
  h_admitted : list entry;
  h_open : list peer_ID;
  h_time : Time;
  h_justAdmitted : bool
}.

Definition stepCall (h : history) (tc : Time * call) : history :=
  let '(t, c) := tc in
  match c with
  | CallAccept p =>
      let '(ok, r) := Accept t p (h_limiter h) in
      {| h_limiter := r;
         h_admitted := if ok then h_admitted h ++ [mkEntry p t] else h_admitted h;
         h_open := if ok then p :: h_open h else h_open h;
         h_time := t;
         h_justAdmitted := ok |}
  | CallAcceptDialDataRequest p =>
      let '(_, r) := AcceptDialDataRequest t p (h_limiter h) in
      {| h_limiter := r;
         h_admitted := h_admitted h;
         h_open := h_open h;
         h_time := t;
         h_justAdmitted := false |}
  | CallCompleteRequest p =>
      {| h_limiter := CompleteRequest p (h_limiter h);
         h_admitted := h_admitted h;
         h_open := filter (λ q, q ≠ p) (h_open h);
         h_time := t;
         h_justAdmitted := false |}
  end.

Definition startHistory (r : rateLimiter) : history :=
  {| h_limiter := r; h_admitted := []; h_open := []; h_time := 0;
     h_justAdmitted := false |}.

Definition runCalls (r : rateLimiter) (cs : list (Time * call)) : history :=
  fold_left stepCall cs (startHistory r).

(** Non-decreasing in time. *)
Definition sortedTimes (ts : list Time) : Prop := Sorted Z.le ts.

(** Younger than sixty seconds at [now]. *)
Definition younger (now t : Time) : Prop := now - t < 60 * 1000000000.

#[global] Instance younger_dec now t : Decision (younger now t).
Proof. unfold younger. apply _. Defined.

Definition logsSorted (r : rateLimiter) : Prop :=
  sortedTimes (Time_ <$> reqs r) ∧
  (∀ p, sortedTimes (peerLog (peerReqs r) p)) ∧
  sortedTimes (dialDataReqs r).

(** The time stamps the global log holds for peer [p]. *)
Definition timesOf (p : peer_ID) (es : list entry) : list Time :=
  Time_ <$> filter (λ e, PeerID e = p) es.

(** The predicate of the rate-limiter invariants, on the state a sequence
    of calls has led to. *)
Record limiterInvariant (h : history) : Prop := mkLimiterInvariant {
  inv_admission_quota :
    h_justAdmitted h = true →
    len (reqs (h_limiter h)) ≤ RPM (h_limiter h) ∧
    ∀ p, len (peerLog (peerReqs (h_limiter h)) p) ≤ PerPeerRPM (h_limiter h);
  inv_quota :
    len (reqs (h_limiter h)) ≤ Z.max 0 (RPM (h_limiter h)) ∧
    ∀ p, len (peerLog (peerReqs (h_limiter h)) p)
         ≤ Z.max 0 (PerPeerRPM (h_limiter h));
  inv_in_flight_once : NoDup (h_open h);
  inv_in_flight : ∀ p, p ∈ ongoingReqs (h_limiter h) ↔ p ∈ h_open h;
  inv_admitted_global :
    filter (λ e, younger (h_time h) (Time_ e)) (reqs (h_limiter h))
    = filter (λ e, younger (h_time h) (Time_ e)) (h_admitted h);
  inv_admitted_peer : ∀ p,
    filter (younger (h_time h)) (peerLog (peerReqs (h_limiter h)) p)
    = filter (younger (h_time h)) (timesOf p (h_admitted h));
  inv_sorted : logsSorted (h_limiter h)
}.

(** What [cleanup] leaves of one sublog, and the map entry that holds it:
    a key is present only with a non-empty sublog. *)
Definition pruneLog (now : Time) (ts : list Time) : list Time :=
  drop (firstFresh now ts) ts.

Definition nonEmpty (ts : list Time) : option (list Time) :=
  match ts with [] => None | _ => Some ts end.

(** The sublogs are the per-peer views of the global log, and a key is
    stored only with a non-empty sublog. *)
Definition coherent (r : rateLimiter) : Prop :=
  ∀ p, peerReqs r !! p = nonEmpty (timesOf p (reqs r)).

(** What the proof of the invariants carries from call to call; [t] is a
    clock reading no earlier than any call made so far. *)
Record coreInvariant (t : Time) (h : history) : Prop := mkCoreInvariant {
  core_quota :
    len (reqs (h_limiter h)) ≤ Z.max 0 (RPM (h_limiter h)) ∧
    ∀ p, len (peerLog (peerReqs (h_limiter h)) p)
         ≤ Z.max 0 (PerPeerRPM (h_limiter h));
  core_admit :
    h_justAdmitted h = true →
    0 ≤ RPM (h_limiter h) ∧ 0 ≤ PerPeerRPM (h_limiter h);
  core_open_once : NoDup (h_open h);
  core_open : ∀ p, p ∈ ongoingReqs (h_limiter h) ↔ p ∈ h_open h;
  core_suffix :
    ∃ old, h_admitted h = old ++ reqs (h_limiter h) ∧
           Forall (λ e, ¬ younger t (Time_ e)) old;
  core_coherent : coherent (h_limiter h);
  core_admitted_sorted : sortedTimes (Time_ <$> h_admitted h);
  core_admitted_past : Forall (λ e, Time_ e ≤ t) (h_admitted h);
  core_dialData_sorted : sortedTimes (dialDataReqs (h_limiter h));
  core_dialData_past : Forall (λ d, d ≤ t) (dialDataReqs (h_limiter h))
}.

(** ** Multiaddresses and IP addresses, as go-multiaddr and net present them *)

#[global] Instance byte_eq_decision : EqDecision byte := Byte.byte_eq_dec.

(** A multiaddress is its sequence of components, each a protocol code with
    the raw bytes of its value. *)
Record Component := mkComponent {
  code : Z;
  rawValue : list byte
}.

Definition Multiaddr := list Component.

Definition P_IP4 : Z := 4.
Definition P_TCP : Z := 6.
Definition P_IP6 : Z := 41.
Definition P_IP6ZONE : Z := 42.
Definition P_CIRCUIT : Z := 290.

(** [net.IP]: a byte slice of length 4 or 16; the nil IP is the empty list. *)
Definition IP := list byte.

(** [manet.ToIP]: skip a leading ip6zone component, take the value of an
    ip4 or ip6 component, stop at anything else; [None] is its error. *)
Fixpoint ToIP (addr : Multiaddr) : option IP :=
  match addr with
  | [] => None
  | c :: rest =>
      if code c =? P_IP6ZONE then ToIP rest
      else if (code c =? P_IP6) || (code c =? P_IP4) then Some (rawValue c)
      else None
  end.

Definition v4InV6Prefix : list byte :=
  [x00; x00; x00; x00; x00; x00; x00; x00; x00; x00; xff; xff].

(** [ip.Equal(x)]: equal as byte strings, or one the 4-byte and the other
    the 16-byte form of the same IPv4 address. *)
Definition IP_Equal (ip x : IP) : bool :=
  if (length ip =? length x)%nat then bool_decide (ip = x)
  else if (length ip =? 4)%nat && (length x =? 16)%nat
  then bool_decide (take 12 x = v4InV6Prefix) && bool_decide (ip = drop 12 x)
  else if (length ip =? 16)%nat && (length x =? 4)%nat
  then bool_decide (take 12 ip = v4InV6Prefix) && bool_decide (drop 12 ip = x)
  else false.

(** [a.ValueForProtocol(code)]: the value of the first component with that
    code; [None] is the error "protocol not found". *)
Definition ValueForProtocol (a : Multiaddr) (c : Z) : option (list byte) :=
  rawValue <$> find (λ x, code x =? c) a.

(** What the server takes from outside this file: the multiaddress parser
    and the public-address test of the libraries, and the constants of the
    package that are declared in another file. *)
Class Externals := {
  NewMultiaddrBytes : list byte → option Multiaddr;
  IsPublicAddr : Multiaddr → bool;
  minHandshakeSizeBytes : Z;
  maxHandshakeSizeBytes : Z;
  streamTimeout : Duration;
  dialBackStreamTimeout : Duration
}.

(** Modelled from the spec: the constant [maxPeerAddresses] is declared
    outside server.go; the specification gives MAX_PEER_ADDRESSES = 50. *)
Definition maxPeerAddresses : Z := 50.

(** ** Messages and statuses *)

(** Modelled from the spec: the generated package [pb] is not part of the
    sources at hand; the messages and status enumerations are those of the
    wire protocol the specification lists, and [DialStatus_UNUSED] is the
    zero value a response carries when no dial was attempted. *)
Inductive DialStatus :=
  | DialStatus_UNUSED
  | DialStatus_E_DIAL_ERROR
  | DialStatus_E_DIAL_BACK_ERROR
  | DialStatus_OK.

Inductive DialResponse_ResponseStatus :=
  | DialResponse_E_REQUEST_REJECTED
  | DialResponse_E_DIAL_REFUSED
  | DialResponse_OK.

Record DialResponse := mkDialResponse {
  Status : DialResponse_ResponseStatus;
  DialStatus_ : DialStatus;
  AddrIdx : Z
}.

Inductive Message :=
  | Message_DialRequest (nonce : Z) (addrs : list (list byte))
  | Message_DialResponse (r : DialResponse)
  | Message_DialDataRequest (addrIdx numBytes : Z)
  | Message_DialDataResponse (data : list byte)
  | Message_nil.

Definition GetDialRequest (m : Message) : option (Z * list (list byte)) :=
  match m with Message_DialRequest n a => Some (n, a) | _ => None end.

Definition GetDialDataResponse (m : Message) : option (list byte) :=
  match m with Message_DialDataResponse d => Some d | _ => None end.

(** The three responses the handler builds. *)
Definition responseRejected : Message :=
  Message_DialResponse (mkDialResponse DialResponse_E_REQUEST_REJECTED DialStatus_UNUSED 0).
Definition responseRefused : Message :=
  Message_DialResponse (mkDialResponse DialResponse_E_DIAL_REFUSED DialStatus_UNUSED 0).
Definition responseOK (st : DialStatus) (idx : Z) : Message :=
  Message_DialResponse (mkDialResponse DialResponse_OK st idx).

(** Conversions to unsigned integers wrap. *)
Definition uint32 (n : Z) : Z := n mod 2 ^ 32.
Definition uint64 (n : Z) : Z := n mod 2 ^ 64.

(** ** Hosts, connections, the server *)

Inductive Dialability :=
  | DialabilityUnknown
  | DialabilityDialable
  | DialabilityRefused.

#[global] Instance Dialability_eq_dec : EqDecision Dialability.
Proof. solve_decision. Defined.

(** The one method of [host.Host]'s network the address selection asks. *)
Record Host := mkHost {
  CanDial : peer_ID → Multiaddr → Dialability
}.

Record Conn := mkConn {
  RemotePeer : peer_ID;
  RemoteMultiaddr : Multiaddr;
  LocalMultiaddr : Multiaddr
}.

(** What is fixed about an inbound stream: its connection. *)
Record Stream := mkStream {
  StreamConn : Conn
}.

Definition dataRequestPolicyFunc := Stream → Multiaddr → bool.

Record server := mkServer {
  host : Host;
  dialerHost : Host;
  dialDataRequestPolicy : dataRequestPolicyFunc;
  allowPrivateAddrs : bool
}.

(** [amplificationAttackPrevention]: the second address it reduces to an IP
    is the local address of the connection; [dialAddr] is not read.  The
    error of the second [ToIP] is dropped and leaves the nil IP. *)
Definition amplificationAttackPrevention (s : Stream) (dialAddr : Multiaddr) : bool :=
  match ToIP (RemoteMultiaddr (StreamConn s)) with
  | None => true
  | Some connIP =>
      let dialIP := default [] (ToIP (LocalMultiaddr (StreamConn s))) in
      negb (IP_Equal connIP dialIP)
  end.

(** The policy the documentation of [amplificationAttackPrevention] and the
    specification describe: dial data is required unless the observed IP of
    the peer equals the IP of the address to dial. *)
Definition amplificationPolicySpec (s : Stream) (dialAddr : Multiaddr) : bool :=
  match ToIP (RemoteMultiaddr (StreamConn s)) with
  | None => true
  | Some connIP => negb (IP_Equal connIP (default [] (ToIP dialAddr)))
  end.

(** ** Events *)

Inductive DialDataError :=
  | ErrDialDataWrite
  | ErrDialDataRead
  | ErrInvalidMsgType (m : Message)
  | ErrMsgTooSmall (n : Z).

(** Everything the handler and the dial back do that can be seen from
    outside, in the order it happens. *)
Inductive Event :=
  | EvSetService (ok : bool)
  | EvReserveMemory (ok : bool)
  | EvReleaseMemory
  | EvSetDeadline (t : Time)
  | EvStreamReset
  | EvStreamClose
  | EvWriteMsg (m : Message) (ok : bool)
  | EvReadMsg (r : option Message)
  | EvAccept (p : peer_ID) (ok : bool)
  | EvAcceptDialDataRequest (p : peer_ID) (ok : bool)
  | EvCompleteRequest (p : peer_ID)
  | EvAddAddr (p : peer_ID) (a : Multiaddr)
  | EvConnect (p : peer_ID) (ok : bool)
  | EvNewStream (p : peer_ID) (ok : bool)
  | EvDialBackSetDeadline (t : Time)
  | EvDialBackWrite (nonce : Z) (ok : bool)
  | EvDialBackReset
  | EvDialBackCloseWrite
  | EvDialBackRead (b : option byte)
  | EvDialBackClose
  | EvCancel
  | EvClosePeer (p : peer_ID)
  | EvClearAddrs (p : peer_ID)
  | EvRemovePeer (p : peer_ID).

(** ** The world of one handler run, and the handler's state *)

(** What the outside does during one run: whether the resource calls
    succeed, the successive clock readings, the outcome of each read of the
    stream (an error once the list is used up), whether each write on the
    stream succeeds, the random source, and the outcomes on the dialer. *)
Record World := mkWorld {
  w_setService : bool;
  w_reserveMemory : bool;
  w_clock : nat → Time;
  w_inbound : list (option Message);
  w_write : nat → bool;
  w_rand : Z;
  w_connect : bool;
  w_newStream : bool;
  w_dialBackWrite : bool;
  w_dialBackRead : option byte
}.

Record HState := mkHState {
  st_limiter : rateLimiter;
  st_inbound : list (option Message);
  st_writes : nat;
  st_ticks : nat;
  st_trace : list Event
}.

(** How a piece of a function ends: it goes on with a value, the function
    has returned, or it has panicked. *)
Inductive flow (A : Type) :=
  | Go (a : A)
  | Returned
  | Panicked.

Arguments Go {A} a.
Arguments Returned {A}.
Arguments Panicked {A}.

Definition M (A : Type) : Type := HState → flow A * HState.

#[global] Instance M_ret : MRet M := λ A a s, (Go a, s).

#[global] Instance M_bind : MBind M := λ A B k m s,
  match m s with
  | (Go a, s1) => k a s1
  | (Returned, s1) => (Returned, s1)
  | (Panicked, s1) => (Panicked, s1)
  end.

Definition returnNow {A} : M A := λ s, (Returned, s).
Definition panic {A} : M A := λ s, (Panicked, s).

(** [defer d] in front of the rest of the function body: [d] runs when the
    body is left, however it is left. *)
Definition defer {A} (d : M unit) (body : M A) : M A :=
  λ s, let '(r, s1) := body s in (r, (d s1).2).

Definition emit (e : Event) : M unit :=
  λ s, (Go tt, mkHState (st_limiter s) (st_inbound s) (st_writes s) (st_ticks s)
                        (st_trace s ++ [e])).

Definition emits (es : list Event) : M unit :=
  λ s, (Go tt, mkHState (st_limiter s) (st_inbound s) (st_writes s) (st_ticks s)
                        (st_trace s ++ es)).

(** [as.now()] *)
Definition now (w : World) : M Time :=
  λ s, (Go (w_clock w (st_ticks s)),
        mkHState (st_limiter s) (st_inbound s) (st_writes s) (S (st_ticks s))
                 (st_trace s)).

(** [w.WriteMsg(&msg)] on the stream; the result is whether it succeeded. *)
Definition WriteMsg (w : World) (m : Message) : M bool :=
  λ s, let ok := w_write w (st_writes s) in
       (Go ok, mkHState (st_limiter s) (st_inbound s) (S (st_writes s)) (st_ticks s)
                        (st_trace s ++ [EvWriteMsg m ok])).

(** [r.ReadMsg(&msg)] on the stream; [None] is a read error. *)
Definition ReadMsg : M (option Message) :=
  λ s, let r := match st_inbound s with [] => None | r :: _ => r end in
       (Go r, mkHState (st_limiter s) (tail (st_inbound s)) (st_writes s) (st_ticks s)
                       (st_trace s ++ [EvReadMsg r])).

(** [as.limiter.Accept(p)], with the clock reading it takes. *)
Definition acceptAt (t : Time) (p : peer_ID) : M bool :=
  λ s, let '(ok, r) := Accept t p (st_limiter s) in
       (Go ok, mkHState r (st_inbound s) (st_writes s) (st_ticks s)
                        (st_trace s ++ [EvAccept p ok])).

Definition limiterAccept (w : World) (p : peer_ID) : M bool :=
  t ← now w; acceptAt t p.

Definition acceptDialDataRequestAt (t : Time) (p : peer_ID) : M bool :=
  λ s, let '(ok, r) := AcceptDialDataRequest t p (st_limiter s) in
       (Go ok, mkHState r (st_inbound s) (st_writes s) (st_ticks s)
                        (st_trace s ++ [EvAcceptDialDataRequest p ok])).

Definition limiterAcceptDialDataRequest (w : World) (p : peer_ID) : M bool :=
  t ← now w; acceptDialDataRequestAt t p.

Definition limiterCompleteRequest (p : peer_ID) : M unit :=
  λ s, (Go tt, mkHState (CompleteRequest p (st_limiter s)) (st_inbound s)
                        (st_writes s) (st_ticks s)
                        (st_trace s ++ [EvCompleteRequest p])).


(** ** The server's functions *)

(** [rand.Intn(n)]: a value in [0, n) drawn from the source; it panics,
    here [None], when [n <= 0]. *)
Definition Intn (src n : Z) : option Z :=
  if n <=? 0 then None else Some (src mod n).

(** The reading loop of [getDialData], over the outcomes of the reads still
    to come: the error or nil, the outcomes left unread, and the reads done. *)
Fixpoint dialDataLoop (remain : Z) (inbound : list (option Message))
    : option DialDataError * list (option Message) * list Event :=
  if remain <=? 0 then (None, inbound, [])
  else
    match inbound with
    | [] => (Some ErrDialDataRead, [], [EvReadMsg None])
    | None :: rest => (Some ErrDialDataRead, rest, [EvReadMsg None])
    | Some m :: rest =>
        match GetDialDataResponse m with
        | None => (Some (ErrInvalidMsgType m), rest, [EvReadMsg (Some m)])
        | Some data =>
            let remain := remain - len data in
            if (len data <? 100) && (0 <? remain)
            then (Some (ErrMsgTooSmall (len data)), rest, [EvReadMsg (Some m)])
            else
              let '(e, rest', evs) := dialDataLoop remain rest in
              (e, rest', EvReadMsg (Some m) :: evs)
        end
    end.

Definition readDialData (numBytes : Z) : M (option DialDataError) :=
  λ s, let '(e, rest, evs) := dialDataLoop numBytes (st_inbound s) in
       (Go e, mkHState (st_limiter s) rest (st_writes s) (st_ticks s)
                       (st_trace s ++ evs)).

Section Server.
Context `{Externals}.

(** The demand [getDialData] draws. *)
Definition drawNumBytes (w : World) : option Z :=
  r ← Intn (w_rand w) (maxHandshakeSizeBytes - minHandshakeSizeBytes);
  Some (minHandshakeSizeBytes + r).

(** [getDialData]: the result is its error, [None] for nil. *)
Definition getDialData (w : World) (addrIdx : Z) : M (option DialDataError) :=
  match drawNumBytes w with
  | None => panic
  | Some numBytes =>
      ok ← WriteMsg w (Message_DialDataRequest (uint32 addrIdx) (uint64 numBytes));
      if negb ok then mret (Some ErrDialDataWrite)
      else readDialData numBytes
  end.

(** [dialBack]: the inner deferred call closes the dial-back stream, the
    outer one cancels the context and clears the dialer's view of the peer. *)
Definition dialBack (w : World) (p : peer_ID) (addr : Multiaddr) (nonce : Z)
    : M DialStatus :=
  emit (EvAddAddr p addr);;
  defer (emits [EvCancel; EvClosePeer p; EvClearAddrs p; EvRemovePeer p])
    (ok ← (emit (EvConnect p (w_connect w));; mret (w_connect w));
     if negb ok then mret DialStatus_E_DIAL_ERROR
     else
       ok ← (emit (EvNewStream p (w_newStream w));; mret (w_newStream w));
       if negb ok then mret DialStatus_E_DIAL_BACK_ERROR
       else
         defer (emit EvDialBackClose)
           (t ← now w;
            emit (EvDialBackSetDeadline (Add t dialBackStreamTimeout));;
            ok ← (emit (EvDialBackWrite nonce (w_dialBackWrite w));;
                  mret (w_dialBackWrite w));
            if negb ok
            then emit EvDialBackReset;; mret DialStatus_E_DIAL_BACK_ERROR
            else
              emit EvDialBackCloseWrite;;
              t ← now w;
              emit (EvDialBackSetDeadline (Add t (5 * Second)));;
              emit (EvDialBackRead (w_dialBackRead w));;
              mret DialStatus_OK)).

(** The tests one address of the request goes through, in the order of the
    loop; [None] where the loop says [continue]. *)
Definition tryAddr (srv : server) (p : peer_ID) (ab : list byte) : option Multiaddr :=
  match NewMultiaddrBytes ab with
  | None => None
  | Some a =>
      if negb (allowPrivateAddrs srv) && negb (IsPublicAddr a) then None
      else if bool_decide (is_Some (ValueForProtocol a P_CIRCUIT)) then None
      else if bool_decide (CanDial (dialerHost srv) p a ≠ DialabilityDialable) then None
      else if bool_decide (CanDial (host srv) p a ≠ DialabilityDialable) then None
      else Some a
  end.

(** The address loop of [handleDialRequest] from index [i] on: the address
    chosen and its index, [None] when [dialAddr] stays nil. *)
Fixpoint selectAddr (srv : server) (p : peer_ID) (i : nat)
    (addrs : list (list byte)) : option (Multiaddr * nat) :=
  match addrs with
  | [] => None
  | ab :: rest =>
      if maxPeerAddresses <=? Z.of_nat i then None
      else match tryAddr srv p ab with
           | None => selectAddr srv p (S i) rest
           | Some a => Some (a, i)
           end
  end.

(** Write a response; reset the stream when the write fails. *)
Definition writeOrReset (w : World) (m : Message) : M unit :=
  ok ← WriteMsg w m;
  if negb ok then emit EvStreamReset else mret tt.

Definition handleDialRequest (srv : server) (w : World) (s : Stream) : M unit :=
  emit (EvSetService (w_setService w));;
  if negb (w_setService w) then emit EvStreamReset;; returnNow
  else
  emit (EvReserveMemory (w_reserveMemory w));;
  if negb (w_reserveMemory w) then emit EvStreamReset;; returnNow
  else
  defer (emit EvReleaseMemory)
   (t ← now w;
    emit (EvSetDeadline (Add t streamTimeout));;
    defer (emit EvStreamClose)
     (let p := RemotePeer (StreamConn s) in
      accepted ← limiterAccept w p;
      if negb accepted then writeOrReset w responseRejected;; returnNow
      else
      defer (limiterCompleteRequest p)
       (r ← ReadMsg;
        match r with
        | None => emit EvStreamReset;; returnNow
        | Some msg =>
        match GetDialRequest msg with
        | None => emit EvStreamReset;; returnNow
        | Some (nonce, addrs) =>
        match selectAddr srv p 0 addrs with
        | None => writeOrReset w responseRefused;; returnNow
        | Some (dialAddr, addrIdx) =>
          let isDialDataRequired := dialDataRequestPolicy srv s dialAddr in
          ok ← limiterAcceptDialDataRequest w p;
          if negb ok then writeOrReset w responseRejected;; returnNow
          else
          (if isDialDataRequired
           then
             err ← getDialData w (Z.of_nat addrIdx);
             match err with
             | Some _ => emit EvStreamReset;; returnNow
             | None => mret tt
             end
           else mret tt);;
          dialStatus ← dialBack w p dialAddr nonce;
          writeOrReset w (responseOK dialStatus (uint32 (Z.of_nat addrIdx)))
        end end end))).

End Server.

(** A run of the handler on a fresh stream, from a given limiter. *)
Definition startState (w : World) (r : rateLimiter) : HState :=
  mkHState r (w_inbound w) 0 0 [].

Definition runHandler `{Externals} (srv : server) (w : World) (s : Stream)
    (r : rateLimiter) : HState :=
  (handleDialRequest srv w s (startState w r)).2.

(** ** Views of a trace *)

(** The events a computation adds to the trace of the state it starts in,
    and the value it goes on with. *)
Definition tracedBy {A} (m : M A) (s : HState) : list Event :=
  drop (length (st_trace s)) (st_trace (m s).2).

Definition resultOf {A} (m : M A) (s : HState) : flow A := (m s).1.

(** The messages the handler put on the stream, in order. *)
Definition writesOf (tr : list Event) : list Message :=
  omap (λ e, match e with EvWriteMsg m _ => Some m | _ => None end) tr.

(** The payload bytes of the dial-data responses read. *)
Definition bytesRead (tr : list Event) : Z :=
  foldr (λ e n, match e with
                | EvReadMsg (Some (Message_DialDataResponse d)) => len d + n
                | _ => n
                end) 0 tr.

(** Whether an event is an action on the dialer host. *)
Definition isDialEvent (e : Event) : bool :=
  match e with
  | EvAddAddr _ _ | EvConnect _ _ | EvNewStream _ _ | EvDialBackSetDeadline _
  | EvDialBackWrite _ _ | EvDialBackReset | EvDialBackCloseWrite
  | EvDialBackRead _ | EvDialBackClose | EvCancel | EvClosePeer _
  | EvClearAddrs _ | EvRemovePeer _ => true
  | _ => false
  end.

Definition isDialResponse (m : Message) : bool :=
  match m with Message_DialResponse _ => true | _ => false end.


(** ** The paths of the handler

    The runs of [handleDialRequest], path by path: the trace each path
    leaves and the limiter it ends with.  [handleDialRequest_path] below
    shows that every run follows one of them. *)

Definition resetIfFailed (ok : bool) : list Event :=
  if ok then [] else [EvStreamReset].

Definition isRead (e : Event) : Prop := ∃ r, e = EvReadMsg r.

Definition isDialDataRead (e : Event) : Prop :=
  ∃ d, e = EvReadMsg (Some (Message_DialDataResponse d)).

(** What the handler does once an address is chosen and the dial-data
    quota granted: the events up to its last write, and the messages that
    write follows. *)
Inductive dialPath `{Externals} (srv : server) (w : World) (s : Stream)
    (nonce : Z) (dialAddr : Multiaddr) (addrIdx : nat) (inbound : list (option Message))
    : list Event → Prop :=
  | path_panic :
      dialDataRequestPolicy srv s dialAddr = true →
      drawNumBytes w = None →
      dialPath srv w s nonce dialAddr addrIdx inbound []
  | path_dialData_write_failed numBytes :
      dialDataRequestPolicy srv s dialAddr = true →
      drawNumBytes w = Some numBytes →
      w_write w 0%nat = false →
      dialPath srv w s nonce dialAddr addrIdx inbound
        [EvWriteMsg (Message_DialDataRequest (uint32 (Z.of_nat addrIdx)) (uint64 numBytes)) false;
         EvStreamReset]
  | path_dialData_failed numBytes err rest evs :
      dialDataRequestPolicy srv s dialAddr = true →
      drawNumBytes w = Some numBytes →
      w_write w 0%nat = true →
      dialDataLoop numBytes inbound = (Some err, rest, evs) →
      dialPath srv w s nonce dialAddr addrIdx inbound
        (EvWriteMsg (Message_DialDataRequest (uint32 (Z.of_nat addrIdx)) (uint64 numBytes)) true
           :: evs ++ [EvStreamReset])
  | path_dialData_dialed numBytes rest evs st devs :
      dialDataRequestPolicy srv s dialAddr = true →
      drawNumBytes w = Some numBytes →
      w_write w 0%nat = true →
      dialDataLoop numBytes inbound = (None, rest, evs) →
      Forall (λ e, isDialEvent e = true) devs →
      EvAddAddr (RemotePeer (StreamConn s)) dialAddr ∈ devs →
      dialPath srv w s nonce dialAddr addrIdx inbound
        (EvWriteMsg (Message_DialDataRequest (uint32 (Z.of_nat addrIdx)) (uint64 numBytes)) true
           :: evs ++ devs
           ++ EvWriteMsg (responseOK st (uint32 (Z.of_nat addrIdx))) (w_write w 1%nat)
           :: resetIfFailed (w_write w 1%nat))
  | path_dialed st devs :
      dialDataRequestPolicy srv s dialAddr = false →
      Forall (λ e, isDialEvent e = true) devs →
      EvAddAddr (RemotePeer (StreamConn s)) dialAddr ∈ devs →
      dialPath srv w s nonce dialAddr addrIdx inbound
        (devs
           ++ EvWriteMsg (responseOK st (uint32 (Z.of_nat addrIdx))) (w_write w 0%nat)
           :: resetIfFailed (w_write w 0%nat)).

(** What the handler does once [Accept] has admitted the request, up to
    the deferred [CompleteRequest]; the limiter is the one the path leaves
    for [CompleteRequest]. *)
Inductive admittedPath `{Externals} (srv : server) (w : World) (s : Stream)
    (lim1 : rateLimiter) : list Event → rateLimiter → Prop :=
  | path_bad_request r :
      r = hd None (w_inbound w) →
      (r = None ∨ ∃ m, r = Some m ∧ GetDialRequest m = None) →
      admittedPath srv w s lim1 [EvReadMsg r; EvStreamReset] lim1
  | path_refused nonce addrs :
      hd None (w_inbound w) = Some (Message_DialRequest nonce addrs) →
      selectAddr srv (RemotePeer (StreamConn s)) 0 addrs = None →
      admittedPath srv w s lim1
        (EvReadMsg (Some (Message_DialRequest nonce addrs))
           :: EvWriteMsg responseRefused (w_write w 0%nat)
           :: resetIfFailed (w_write w 0%nat))
        lim1
  | path_dialData_rejected nonce addrs dialAddr addrIdx lim2 :
      hd None (w_inbound w) = Some (Message_DialRequest nonce addrs) →
      selectAddr srv (RemotePeer (StreamConn s)) 0 addrs = Some (dialAddr, addrIdx) →
      AcceptDialDataRequest (w_clock w 2%nat) (RemotePeer (StreamConn s)) lim1
        = (false, lim2) →
      admittedPath srv w s lim1
        (EvReadMsg (Some (Message_DialRequest nonce addrs))
           :: EvAcceptDialDataRequest (RemotePeer (StreamConn s)) false
           :: EvWriteMsg responseRejected (w_write w 0%nat)
           :: resetIfFailed (w_write w 0%nat))
        lim2
  | path_selected nonce addrs dialAddr addrIdx lim2 evs :
      hd None (w_inbound w) = Some (Message_DialRequest nonce addrs) →
      selectAddr srv (RemotePeer (StreamConn s)) 0 addrs = Some (dialAddr, addrIdx) →
      AcceptDialDataRequest (w_clock w 2%nat) (RemotePeer (StreamConn s)) lim1
        = (true, lim2) →
      dialPath srv w s nonce dialAddr addrIdx (tail (w_inbound w)) evs →
      admittedPath srv w s lim1
        (EvReadMsg (Some (Message_DialRequest nonce addrs))
           :: EvAcceptDialDataRequest (RemotePeer (StreamConn s)) true
           :: evs)
        lim2.

Inductive handlerPath `{Externals} (srv : server) (w : World) (s : Stream)
    (lim : rateLimiter) : list Event → rateLimiter → Prop :=
  | path_no_service :
      w_setService w = false →
      handlerPath srv w s lim [EvSetService false; EvStreamReset] lim
  | path_no_memory :
      w_setService w = true →
      w_reserveMemory w = false →
      handlerPath srv w s lim
        [EvSetService true; EvReserveMemory false; EvStreamReset] lim
  | path_rejected lim1 :
      w_setService w = true →
      w_reserveMemory w = true →
      Accept (w_clock w 1%nat) (RemotePeer (StreamConn s)) lim = (false, lim1) →
      handlerPath srv w s lim
        ([EvSetService true; EvReserveMemory true;
          EvSetDeadline (Add (w_clock w 0%nat) streamTimeout);
          EvAccept (RemotePeer (StreamConn s)) false;
          EvWriteMsg responseRejected (w_write w 0%nat)]
           ++ resetIfFailed (w_write w 0%nat)
           ++ [EvStreamClose; EvReleaseMemory])
        lim1
  | path_admitted lim1 lim2 evs :
      w_setService w = true →
      w_reserveMemory w = true →
      Accept (w_clock w 1%nat) (RemotePeer (StreamConn s)) lim = (true, lim1) →
      admittedPath srv w s lim1 evs lim2 →
      handlerPath srv w s lim
        ([EvSetService true; EvReserveMemory true;
          EvSetDeadline (Add (w_clock w 0%nat) streamTimeout);
          EvAccept (RemotePeer (StreamConn s)) true]
           ++ evs
           ++ [EvCompleteRequest (RemotePeer (StreamConn s));
               EvStreamClose; EvReleaseMemory])
        (CompleteRequest (RemotePeer (StreamConn s)) lim2).


(** ** Address selection, in the words of the specification *)

(** An address of the request survives, as the multiaddress [a], when it
    parses to [a], is public unless private addresses are allowed, has no
    circuit component, and both the dialer host and the main host report it
    dialable. *)
Definition survives `{Externals} (srv : server) (p : peer_ID)
    (ab : list byte) (a : Multiaddr) : Prop :=
  NewMultiaddrBytes ab = Some a ∧
  (allowPrivateAddrs srv = true ∨ IsPublicAddr a = true) ∧
  (¬ ∃ c, c ∈ a ∧ code c = P_CIRCUIT) ∧
  CanDial (dialerHost srv) p a = DialabilityDialable ∧
  CanDial (host srv) p a = DialabilityDialable.

(** The shape of what the handler may write on the stream: at most one
    dial-data request, then at most one response, which is one of the three
    the handler builds. *)
Definition isHandlerResponse (m : Message) : Prop :=
  m = responseRejected ∨ m = responseRefused ∨ ∃ st idx, m = responseOK st idx.

Definition writesWellFormed (ws : list Message) : Prop :=
  ∃ pre resp,
    ws = pre ++ resp ∧
    (pre = [] ∨ ∃ idx n, pre = [Message_DialDataRequest idx n]) ∧
    (resp = [] ∨ ∃ m, resp = [m] ∧ isHandlerResponse m).


(** The event of a dial-data request that went out on the stream. *)
Definition isDataRequestSent (e : Event) : bool :=
  match e with
  | EvWriteMsg (Message_DialDataRequest _ _) true => true
  | _ => false
  end.


(** ** Concrete inputs, for the examples *)

(** [/ip4/a.b.c.d/tcp/4001] *)
Definition ip4tcp (a b c d : byte) : Multiaddr :=
  [mkComponent P_IP4 [a; b; c; d]; mkComponent P_TCP [x0f; xa1]].

(** The binary form of such an address: code 4, four bytes, code 6, two
    bytes; the example parser reads this form only. *)
Definition ip4tcpBytes (a b c d : byte) : list byte :=
  [x04; a; b; c; d; x06; x0f; xa1].

Definition exampleParse (ab : list byte) : option Multiaddr :=
  match ab with
  | [x04; a; b; c; d; x06; p1; p2] =>
      Some [mkComponent P_IP4 [a; b; c; d]; mkComponent P_TCP [p1; p2]]
  | _ => None
  end.

(** Public unless in 10.0.0.0/8 or 127.0.0.0/8, which is enough here. *)
Definition exampleIsPublic (a : Multiaddr) : bool :=
  match ToIP a with
  | Some (x0a :: _) | Some (x7f :: _) | None => false
  | Some _ => true
  end.

(** The constants with the values the package gives them. *)
Definition exampleExternals : Externals :=
  {| NewMultiaddrBytes := exampleParse;
     IsPublicAddr := exampleIsPublic;
     minHandshakeSizeBytes := 30000;
     maxHandshakeSizeBytes := 100000;
     streamTimeout := Minute;
     dialBackStreamTimeout := 5 * Second |}.

Definition alwaysDialable : Host := mkHost (λ _ _, DialabilityDialable).

(** An inbound stream from 203.0.113.5, accepted on 198.51.100.1. *)
Definition exampleStream : Stream :=
  mkStream (mkConn "QmClient" (ip4tcp xcb x00 x71 x05) (ip4tcp xc6 x33 x64 x01)).

(** A server with the default policy, and one whose policy never asks for
    dial data. *)
Definition exampleServer : server :=
  mkServer alwaysDialable alwaysDialable amplificationAttackPrevention false.

Definition neverDialData : server :=
  mkServer alwaysDialable alwaysDialable (λ _ _, false) false.

(** A world in which everything succeeds and the client sends the given
    messages. *)
Definition calmWorld (inbound : list (option Message)) : World :=
  {| w_setService := true; w_reserveMemory := true;
     w_clock := λ n, Z.of_nat n;
     w_inbound := inbound;
     w_write := λ _, true;
     w_rand := 0;
     w_connect := true; w_newStream := true; w_dialBackWrite := true;
     w_dialBackRead := Some x01 |}.

(** A request for a dial back to the client's own observed address. *)
Definition exampleRequest : Message :=
  Message_DialRequest 7 [ip4tcpBytes xcb x00 x71 x05].

(** A limiter with the default quotas of the package. *)
Definition exampleLimiter : rateLimiter := newLimiter 60 12 12.

(** A limiter state with a stale sublog that the global log does not
    account for. *)
Definition staleSublog : rateLimiter :=
  {| PerPeerRPM := 12; RPM := 60; DialDataRPM := 12;
     reqs := []; peerReqs := {["QmClient" := [0]]};
     dialDataReqs := []; ongoingReqs := ∅ |}.

(** A limiter state as two admissions and a dial-data request leave it. *)
Definition agedLimiter : rateLimiter :=
  {| PerPeerRPM := 12; RPM := 60; DialDataRPM := 12;
     reqs := [mkEntry "QmClient" 0; mkEntry "QmOther" (30 * Second)];
     peerReqs := <["QmClient" := [0]]> {["QmOther" := [30 * Second]]};
     dialDataReqs := [0];
     ongoingReqs := ∅ |}.

Definition exampleCalls : list (Time * call) :=
  [(0, CallAccept "QmClient");
   (1, CallAcceptDialDataRequest "QmClient");
   (2, CallCompleteRequest "QmClient");
   (61 * Second, CallAccept "QmClient")].


(** ** [cleanup], in the words of the specification *)

(** [cleanup] has removed from the global log, from every sublog and from
    the dial-data log exactly the entries aged sixty seconds or more, has
    kept every younger entry, and a peer has no map entry afterwards
    precisely when nothing of its sublog is left. *)
Definition cleanupExact (now : Time) (r : rateLimiter) : Prop :=
  reqs (cleanup now r) = filter (λ e, younger now (Time_ e)) (reqs r) ∧
  dialDataReqs (cleanup now r) = filter (younger now) (dialDataReqs r) ∧
  (∀ p, peerLog (peerReqs (cleanup now r)) p
        = filter (younger now) (peerLog (peerReqs r) p)) ∧
  (∀ p, peerReqs (cleanup now r) !! p = None
        ↔ filter (younger now) (peerLog (peerReqs r) p) = []).

(** Every peer whose stored sublog is empty or holds an aged entry owns an
    aged entry of the global log. *)
Definition agedAccounted (now : Time) (r : rateLimiter) : Prop :=
  ∀ p ts, peerReqs r !! p = Some ts →
    ts = [] ∨ (∃ t, t ∈ ts ∧ ¬ younger now t) →
    ∃ e, e ∈ reqs r ∧ PeerID e = p ∧ ¬ younger now (Time_ e).


(** ** Windows of sixty seconds and the dial-data grants of a run *)

(** [t] lies in the sixty seconds that end at [T]. *)
Definition inWindow (T t : Time) : Prop := T - 60 * 1000000000 < t ≤ T.

#[global] Instance inWindow_dec T t : Decision (inWindow T t).
Proof. unfold inWindow. apply _. Defined.

(** The clock readings of the [AcceptDialDataRequest] calls of a sequence
    that returned true, in call order, the sequence starting in [h]. *)
Fixpoint grantsFrom (h : history) (cs : list (Time * call)) : list Time :=
  match cs with
  | [] => []
  | (t, c) :: cs' =>
      match c with
      | CallAcceptDialDataRequest p =>
          if (AcceptDialDataRequest t p (h_limiter h)).1 then [t] else []
      | _ => []
      end ++ grantsFrom (stepCall h (t, c)) cs'
  end.

(** The three quotas hold on a limiter state. *)
Definition withinQuotas (r : rateLimiter) : Prop :=
  len (reqs r) ≤ Z.max 0 (RPM r) ∧
  (∀ p, len (peerLog (peerReqs r) p) ≤ Z.max 0 (PerPeerRPM r)) ∧
  len (dialDataReqs r) ≤ Z.max 0 (DialDataRPM r).

(** ** Positions in a trace *)

(** The events before the first one that [f] marks; the whole trace when
    [f] marks none. *)
Fixpoint upTo (f : Event → bool) (tr : list Event) : list Event :=
  match tr with
  | [] => []
  | e :: tr' => if f e then [] else e :: upTo f tr'
  end.

(** The events after the first one that [f] marks; none when [f] marks
    none. *)
Fixpoint afterFirst (f : Event → bool) (tr : list Event) : list Event :=
  match tr with
  | [] => []
  | e :: tr' => if f e then tr' else afterFirst f tr'
  end.

Definition isReset (e : Event) : bool :=
  match e with EvStreamReset => true | _ => false end.

Definition isReadEvent (e : Event) : bool :=
  match e with EvReadMsg _ => true | _ => false end.

Definition isDataRequest (e : Event) : bool :=
  match e with EvWriteMsg (Message_DialDataRequest _ _) _ => true | _ => false end.

(** The events of the handler's brackets: the service scope, the memory
    reservation, the deadline, the closing of the stream, the admission and
    its completion.  Everything else happens between them. *)
Definition isBracketEvent (e : Event) : bool :=
  match e with
  | EvSetService _ | EvReserveMemory _ | EvReleaseMemory | EvSetDeadline _
  | EvStreamClose | EvAccept _ _ | EvCompleteRequest _ => true
  | _ => false
  end.

(** A response that went out on the stream. *)
Definition isResponseSent (e : Event) : bool :=
  match e with
  | EvWriteMsg (Message_DialResponse _) true => true
  | _ => false
  end.

(** A write of a response with status OK, or an action of a dial back. *)
Definition isOKResponse (e : Event) : bool :=
  match e with
  | EvWriteMsg (Message_DialResponse r) _ =>
      match Status r with DialResponse_OK => true | _ => false end
  | _ => false
  end.

Definition isDialOrOKResponse (e : Event) : bool := isDialEvent e || isOKResponse e.

(** The status [dialBack] returns and what it does between the connection
    attempt and its deferred calls, outcome by outcome of the dialer;
    [ticks] counts the clock readings taken before. *)
Definition dialBackOutcome `{Externals} (w : World) (p : peer_ID) (nonce : Z)
    (ticks : nat) : DialStatus * list Event :=
  if negb (w_connect w) then (DialStatus_E_DIAL_ERROR, [])
  else if negb (w_newStream w) then (DialStatus_E_DIAL_BACK_ERROR, [EvNewStream p false])
  else if negb (w_dialBackWrite w)
  then (DialStatus_E_DIAL_BACK_ERROR,
        [EvNewStream p true;
         EvDialBackSetDeadline (Add (w_clock w ticks) dialBackStreamTimeout);
         EvDialBackWrite nonce false; EvDialBackReset; EvDialBackClose])
  else (DialStatus_OK,
        [EvNewStream p true;
         EvDialBackSetDeadline (Add (w_clock w ticks) dialBackStreamTimeout);
         EvDialBackWrite nonce true; EvDialBackCloseWrite;
         EvDialBackSetDeadline (Add (w_clock w (S ticks)) (5 * Second));
         EvDialBackRead (w_dialBackRead w); EvDialBackClose]).

(** The four deferred calls that end [dialBack]. *)
Definition dialBackCleanup (p : peer_ID) : list Event :=
  [EvCancel; EvClosePeer p; EvClearAddrs p; EvRemovePeer p].

(** ** More inputs for the examples *)

(** The handshake sizes scaled down, so that the dial data of a run fits on
    a page. *)
Definition smallExternals : Externals :=
  {| NewMultiaddrBytes := exampleParse;
     IsPublicAddr := exampleIsPublic;
     minHandshakeSizeBytes := 100;
     maxHandshakeSizeBytes := 200;
     streamTimeout := Minute;
     dialBackStreamTimeout := 5 * Second |}.

(** A server whose policy always asks for dial data. *)
Definition alwaysDialData : server :=
  mkServer alwaysDialable alwaysDialable (λ _ _, true) false.

(** The client sends its request and then 100 bytes of dial data. *)
Definition payingWorld : World :=
  calmWorld [Some exampleRequest;
             Some (Message_DialDataResponse (replicate 100 x00))].

(** ** Requests handled one after the other *)

(** The server handling the streams of a list one after the other, each in
    its own world, the limiter going from one run to the next. *)
Definition serveAll `{Externals} (srv : server) (runs : list (World * Stream))
    (lim : rateLimiter) : rateLimiter :=
  fold_left (λ l ws, st_limiter (runHandler srv ws.1 ws.2 l)) runs lim.

(** * Part II: theorems *)

(** ** Time arithmetic *)

Lemma fresh_younger now t : fresh now t = true ↔ younger now t.
Proof.
  unfold fresh, younger, Sub, Minute, Second, minDuration, maxDuration.
  change (2 ^ 63) with 9223372036854775808.
  repeat case_match; rewrite ?Z.ltb_lt, ?Z.ltb_ge in *; lia.
Qed.

Lemma expired_fresh now t : expired now t = negb (fresh now t).
Proof. unfold expired, fresh. apply Z.leb_antisym. Qed.

Lemma fresh_false now t : fresh now t = false ↔ ¬ younger now t.
Proof. rewrite <- fresh_younger. destruct (fresh now t); naive_solver. Qed.

Lemma fresh_self now : fresh now now = true.
Proof. apply fresh_younger. unfold younger. lia. Qed.

Lemma younger_mono now now' t t' :
  now' ≤ now → t ≤ t' → younger now t → younger now' t'.
Proof. unfold younger. lia. Qed.

(** ** Filters that keep or drop a whole list *)

Lemma filter_all {A} (P : A → Prop) `{!∀ x, Decision (P x)} (l : list A) :
  Forall P l → filter P l = l.
Proof.
  induction 1 as [|x l Hx _ IH]; [done|].
  by rewrite filter_cons_True, IH.
Qed.

Lemma filter_none {A} (P : A → Prop) `{!∀ x, Decision (P x)} (l : list A) :
  Forall (λ x, ¬ P x) l → filter P l = [].
Proof.
  induction 1 as [|x l Hx _ IH]; [done|].
  by rewrite filter_cons_False.
Qed.

(** ** The scans of [cleanup] *)

Lemma sortedTimes_strongly ts : sortedTimes ts ↔ StronglySorted Z.le ts.
Proof.
  split; [apply Sorted_StronglySorted; apply _ | apply StronglySorted_Sorted].
Qed.

Lemma pruneLog_sorted now ts :
  sortedTimes ts → pruneLog now ts = filter (younger now) ts.
Proof.
  rewrite sortedTimes_strongly. unfold pruneLog.
  induction 1 as [|t ts Hs IH Hall]; [done|]. simpl.
  destruct (fresh now t) eqn:Hf.
  - simpl. apply fresh_younger in Hf.
    rewrite filter_cons_True by done. f_equal.
    symmetry. apply filter_all. eapply Forall_impl; [exact Hall|].
    intros t' Ht'. simpl in Ht'. eapply younger_mono; [reflexivity | exact Ht' | done].
  - apply fresh_false in Hf. rewrite filter_cons_False by done. apply IH.
Qed.

Lemma pruneLog_idem now ts : pruneLog now (pruneLog now ts) = pruneLog now ts.
Proof.
  unfold pruneLog. induction ts as [|t ts IH]; [done|]. simpl.
  destruct (fresh now t) eqn:Hf; simpl; [by rewrite Hf | apply IH].
Qed.

Lemma pruneLog_suffix now ts : pruneLog now ts `suffix_of` ts.
Proof. apply suffix_drop. Qed.

Lemma sortedTimes_pruneLog now ts : sortedTimes ts → sortedTimes (pruneLog now ts).
Proof.
  rewrite !sortedTimes_strongly. intros Hs.
  destruct (pruneLog_suffix now ts) as [k Hk].
  rewrite Hk in Hs. by apply StronglySorted_app_1_r in Hs.
Qed.

Lemma default_nonEmpty ts : default [] (nonEmpty ts) = ts.
Proof. by destruct ts. Qed.

Lemma nonEmpty_None ts : nonEmpty ts = None ↔ ts = [].
Proof. by destruct ts. Qed.

Lemma prunePeer_lookup now p m q :
  prunePeer now p m !! q =
  if decide (q = p) then nonEmpty (pruneLog now (peerLog m p)) else m !! q.
Proof.
  unfold prunePeer. cbv zeta. fold (pruneLog now (peerLog m p)).
  unfold peerLog at 1. rewrite lookup_insert_eq. simpl.
  destruct (pruneLog now (peerLog m p)) as [|t ts] eqn:Hl; simpl.
  - case_decide as Hq; [subst; apply lookup_delete_eq|].
    by rewrite lookup_delete_ne, lookup_insert_ne.
  - unfold len. simpl. case_decide as Hq; [subst; apply lookup_insert_eq|].
    by rewrite lookup_insert_ne.
Qed.

Lemma prunePeer_peerLog now p m q :
  peerLog (prunePeer now p m) q =
  if decide (q = p) then pruneLog now (peerLog m p) else peerLog m q.
Proof.
  unfold peerLog at 1. rewrite prunePeer_lookup.
  case_decide; [apply default_nonEmpty | done].
Qed.

(** The outer loop stops at the first fresh entry and has pruned, by then,
    the sublog of every peer owning an entry before that point. *)
Lemma cleanupReqs_spec now es : ∀ m,
  (cleanupReqs now es m).1 = firstFresh now (Time_ <$> es) ∧
  ∀ q, (cleanupReqs now es m).2 !! q =
       if decide (q ∈ PeerID <$> take (firstFresh now (Time_ <$> es)) es)
       then nonEmpty (pruneLog now (peerLog m q)) else m !! q.
Proof.
  induction es as [|e es IH]; intros m.
  - split; [done|]. intros q. by simpl.
  - simpl. rewrite expired_fresh. destruct (fresh now (Time_ e)) eqn:Hf; simpl.
    + split; [done|]. intros q. by simpl.
    + destruct (IH (prunePeer now (PeerID e) m)) as [Hidx Hm].
      destruct (cleanupReqs now es (prunePeer now (PeerID e) m)) as [idx m'].
      simpl in *. subst idx. split; [done|]. intros q. rewrite Hm.
      rewrite prunePeer_peerLog, prunePeer_lookup.
      destruct (decide (q = PeerID e)) as [->|Hne].
      * rewrite pruneLog_idem.
        simpl. rewrite (decide_True (P := _ ∈ _ :: _)) by apply list_elem_of_here.
        by case_decide.
      * simpl. case_decide as Hin.
        -- by rewrite decide_True by (by apply list_elem_of_further).
        -- rewrite decide_False; [done|].
           intros [?|?]%elem_of_cons; [congruence | done].
Qed.

(** On a log sorted by time the scan splits it into the aged prefix and the
    younger rest. *)
Lemma firstFresh_split now (es : list entry) :
  sortedTimes (Time_ <$> es) →
  drop (firstFresh now (Time_ <$> es)) es
    = filter (λ e, younger now (Time_ e)) es ∧
  take (firstFresh now (Time_ <$> es)) es
    = filter (λ e, ¬ younger now (Time_ e)) es.
Proof.
  rewrite sortedTimes_strongly.
  induction es as [|e es IH]; [done|]. intros Hs.
  apply StronglySorted_inv in Hs as [Hs Hall]. simpl.
  destruct (fresh now (Time_ e)) eqn:Hf.
  - apply fresh_younger in Hf. simpl.
    assert (Forall (λ e', younger now (Time_ e')) es) as Hy.
    { apply Forall_forall. intros e' He'. rewrite Forall_forall in Hall.
      eapply younger_mono; [reflexivity | | exact Hf].
      apply Hall. by apply list_elem_of_fmap_2. }
    split.
    + rewrite filter_cons_True by done. f_equal. symmetry. by apply filter_all.
    + rewrite filter_cons_False by tauto. symmetry. apply filter_none.
      eapply Forall_impl; [exact Hy|]. simpl. tauto.
  - apply fresh_false in Hf. destruct (IH Hs) as [IH1 IH2]. simpl. split.
    + by rewrite filter_cons_False.
    + rewrite filter_cons_True by done. by f_equal.
Qed.

Lemma cleanup_reqs now r :
  reqs (cleanup now r) = drop (firstFresh now (Time_ <$> reqs r)) (reqs r).
Proof.
  unfold cleanup. pose proof (cleanupReqs_spec now (reqs r) (peerReqs r)) as [H _].
  destruct (cleanupReqs now (reqs r) (peerReqs r)). simpl in *. by subst.
Qed.

Lemma cleanup_peerReqs now r q :
  peerReqs (cleanup now r) !! q =
  if decide (q ∈ PeerID <$> take (firstFresh now (Time_ <$> reqs r)) (reqs r))
  then nonEmpty (pruneLog now (peerLog (peerReqs r) q)) else peerReqs r !! q.
Proof.
  unfold cleanup. pose proof (cleanupReqs_spec now (reqs r) (peerReqs r)) as [_ H].
  destruct (cleanupReqs now (reqs r) (peerReqs r)). simpl in *. apply H.
Qed.

Lemma cleanup_dialDataReqs now r :
  dialDataReqs (cleanup now r) = pruneLog now (dialDataReqs r).
Proof. unfold cleanup. by destruct (cleanupReqs _ _ _). Qed.

Lemma cleanup_ongoingReqs now r : ongoingReqs (cleanup now r) = ongoingReqs r.
Proof. unfold cleanup. by destruct (cleanupReqs _ _ _). Qed.

Lemma cleanup_quotas now r :
  RPM (cleanup now r) = RPM r ∧ PerPeerRPM (cleanup now r) = PerPeerRPM r ∧
  DialDataRPM (cleanup now r) = DialDataRPM r.
Proof. unfold cleanup. by destruct (cleanupReqs _ _ _). Qed.

(** The sublog of a peer after [cleanup], on sorted logs: pruned when the
    peer owns an aged entry of the global log, untouched otherwise. *)
Lemma cleanup_peerReqs_sorted now r q :
  logsSorted r →
  peerReqs (cleanup now r) !! q =
  if decide (q ∈ PeerID <$> filter (λ e, ¬ younger now (Time_ e)) (reqs r))
  then nonEmpty (filter (younger now) (peerLog (peerReqs r) q))
  else peerReqs r !! q.
Proof.
  intros (Hg & Hp & _). rewrite cleanup_peerReqs.
  destruct (firstFresh_split now (reqs r) Hg) as [_ ->].
  by rewrite (pruneLog_sorted _ _ (Hp q)).
Qed.

(** [cleanup] only drops entries from the front of the logs, and leaves
    the set of requests in flight alone. *)
Lemma cleanup_only_removes now r :
  reqs (cleanup now r) `suffix_of` reqs r ∧
  dialDataReqs (cleanup now r) `suffix_of` dialDataReqs r ∧
  (∀ q, peerLog (peerReqs (cleanup now r)) q `suffix_of` peerLog (peerReqs r) q) ∧
  ongoingReqs (cleanup now r) = ongoingReqs r.
Proof.
  split; [rewrite cleanup_reqs; apply suffix_drop|].
  split; [rewrite cleanup_dialDataReqs; apply pruneLog_suffix|].
  split; [|apply cleanup_ongoingReqs].
  intros q. unfold peerLog at 1. rewrite cleanup_peerReqs.
  case_decide; [|done]. rewrite default_nonEmpty. apply pruneLog_suffix.
Qed.

(** ** [Accept] *)


(** ** [cleanup] *)

(** C5, amended: on logs sorted by time, where every peer whose stored
    sublog is empty or holds an entry aged sixty seconds or more also owns
    such an aged entry of the global log, [cleanup] keeps of the global log,
    of every sublog and of the dial-data log exactly the entries younger
    than sixty seconds, in order, and a peer has no map entry afterwards
    precisely when nothing of its sublog is left. *)
Theorem cleanup_removes_expired (r : rateLimiter) (now : Time) :
  logsSorted r → agedAccounted now r → cleanupExact now r.
Proof.
  intros Hs Hcov. pose proof Hs as (Hg & Hp & Hd).
  assert (∀ p, peerReqs (cleanup now r) !! p
               = nonEmpty (filter (younger now) (peerLog (peerReqs r) p))) as Hlk.
  { intros p. rewrite (cleanup_peerReqs_sorted now r p Hs).
    case_decide as Hin; [done|].
    unfold peerLog. destruct (peerReqs r !! p) as [ts|] eqn:Hts; [|done].
    simpl. assert (ts ≠ [] ∧ Forall (younger now) ts) as [Hne Hall].
    { split.
      - intros ->. destruct (Hcov p [] Hts) as (e & He & <- & Hy); [by left|].
        apply Hin. apply list_elem_of_fmap_2. by apply list_elem_of_filter.
      - apply Forall_forall. intros t Ht.
        destruct (decide (younger now t)) as [|Hn]; [done|].
        destruct (Hcov p ts Hts) as (e & He & <- & Hy); [right; eauto|].
        exfalso. apply Hin. apply list_elem_of_fmap_2.
        by apply list_elem_of_filter. }
    rewrite filter_all by done. by destruct ts. }
  split; [|split; [|split]].
  - rewrite cleanup_reqs. by destruct (firstFresh_split now (reqs r) Hg) as [-> _].
  - rewrite cleanup_dialDataReqs. by apply pruneLog_sorted.
  - intros p. unfold peerLog at 1. rewrite Hlk. apply default_nonEmpty.
  - intros p. rewrite Hlk. apply nonEmpty_None.
Qed.

(** ** Per-peer views of the global log *)

Lemma timesOf_app p es1 es2 : timesOf p (es1 ++ es2) = timesOf p es1 ++ timesOf p es2.
Proof. unfold timesOf. by rewrite filter_app, fmap_app. Qed.

Lemma timesOf_younger now p es :
  timesOf p (filter (λ e, younger now (Time_ e)) es)
  = filter (younger now) (timesOf p es).
Proof.
  unfold timesOf. induction es as [|e es IH]; [done|].
  rewrite !filter_cons.
  destruct (decide (younger now (Time_ e))), (decide (PeerID e = p));
    rewrite ?fmap_cons, ?filter_cons_True, ?filter_cons_False by done;
    rewrite ?fmap_cons; by rewrite IH.
Qed.

Lemma timesOf_all_younger now p es :
  p ∉ PeerID <$> filter (λ e, ¬ younger now (Time_ e)) es →
  filter (younger now) (timesOf p es) = timesOf p es.
Proof.
  intros Hp. apply filter_all. apply Forall_forall. intros t.
  unfold timesOf. intros (e & -> & [Hpe He]%list_elem_of_filter)%list_elem_of_fmap.
  destruct (decide (younger now (Time_ e))) as [|Hn]; [done|].
  exfalso. apply Hp. subst p. apply list_elem_of_fmap_2. by apply list_elem_of_filter.
Qed.

Lemma sortedTimes_timesOf p es :
  sortedTimes (Time_ <$> es) → sortedTimes (timesOf p es).
Proof.
  rewrite !sortedTimes_strongly. unfold timesOf.
  induction es as [|e es IH]; [done|]. intros Hs.
  apply StronglySorted_inv in Hs as [Hs Hall].
  rewrite filter_cons. case_decide; [|by apply IH].
  rewrite fmap_cons. constructor; [by apply IH|].
  apply Forall_forall. intros t (e' & -> & [_ He']%list_elem_of_filter)%list_elem_of_fmap.
  rewrite Forall_forall in Hall. apply Hall. by apply list_elem_of_fmap_2.
Qed.

Lemma sortedTimes_snoc ts t :
  sortedTimes ts → Forall (λ d, d ≤ t) ts → sortedTimes (ts ++ [t]).
Proof.
  rewrite !sortedTimes_strongly. intros Hs Hall.
  apply StronglySorted_app_2; [|exact Hs|repeat constructor].
  intros x1 x2 Hx1 ->%list_elem_of_singleton.
  rewrite Forall_forall in Hall. by apply Hall.
Qed.

Lemma coherent_peerLog r p : coherent r → peerLog (peerReqs r) p = timesOf p (reqs r).
Proof. intros Hc. unfold peerLog. rewrite Hc. apply default_nonEmpty. Qed.

Lemma coherent_sorted r :
  coherent r → sortedTimes (Time_ <$> reqs r) → sortedTimes (dialDataReqs r) →
  logsSorted r.
Proof.
  intros Hc Hs Hd. split; [done|]. split; [|done].
  intros p. rewrite coherent_peerLog by done. by apply sortedTimes_timesOf.
Qed.

(** [cleanup] on a coherent limiter with sorted logs. *)
Lemma cleanup_coherent now r :
  coherent r → sortedTimes (Time_ <$> reqs r) → sortedTimes (dialDataReqs r) →
  reqs (cleanup now r) = filter (λ e, younger now (Time_ e)) (reqs r) ∧
  reqs r = filter (λ e, ¬ younger now (Time_ e)) (reqs r) ++ reqs (cleanup now r) ∧
  dialDataReqs (cleanup now r) = filter (younger now) (dialDataReqs r) ∧
  coherent (cleanup now r).
Proof.
  intros Hc Hs Hd. pose proof (coherent_sorted r Hc Hs Hd) as Hsorted.
  destruct (firstFresh_split now (reqs r) Hs) as [Hdrop Htake].
  assert (reqs (cleanup now r) = filter (λ e, younger now (Time_ e)) (reqs r)) as Hreqs.
  { by rewrite cleanup_reqs. }
  split; [done|]. split; [|split].
  - rewrite Hreqs, <- Hdrop, <- Htake. by rewrite take_drop.
  - rewrite cleanup_dialDataReqs. by apply pruneLog_sorted.
  - intros p. rewrite (cleanup_peerReqs_sorted now r p Hsorted), Hreqs.
    rewrite timesOf_younger. case_decide as Hin.
    + by rewrite coherent_peerLog.
    + rewrite timesOf_all_younger by done. apply Hc.
Qed.

(** ** The invariants along a sequence of calls *)

Lemma len_filter_le {A} (P : A → Prop) `{!∀ x, Decision (P x)} (l : list A) :
  len (filter P l) ≤ len l.
Proof. unfold len. pose proof (length_filter P l). lia. Qed.

Lemma not_younger_mono now now' t :
  now ≤ now' → ¬ younger now t → ¬ younger now' t.
Proof. unfold younger. lia. Qed.

Lemma core_sorted_reqs t h :
  coreInvariant t h → sortedTimes (Time_ <$> reqs (h_limiter h)).
Proof.
  intros [_ _ _ _ (old & Hadm & _) _ Hs _ _ _].
  rewrite Hadm, fmap_app in Hs. apply sortedTimes_strongly in Hs.
  apply sortedTimes_strongly. by apply StronglySorted_app_1_r in Hs.
Qed.

(** [cleanup] at a later reading keeps the carried facts. *)
Lemma core_cleanup t0 t h tm :
  coreInvariant t0 h → t0 ≤ t →
  coreInvariant t
    {| h_limiter := cleanup t (h_limiter h); h_admitted := h_admitted h;
       h_open := h_open h; h_time := tm; h_justAdmitted := false |}.
Proof.
  intros Hcore Ht. pose proof (core_sorted_reqs _ _ Hcore) as Hsr.
  destruct Hcore as [[Hq Hqp] _ Hnd Hop (old & Hadm & Hold) Hc Hs Hpast Hds Hdp].
  destruct (cleanup_coherent t (h_limiter h) Hc Hsr Hds) as (Hreqs & Hsplit & Hdd & Hc').
  destruct (cleanup_quotas t (h_limiter h)) as (HR & HP & _).
  constructor; simpl.
  - rewrite HR, HP. split.
    + rewrite Hreqs. etrans; [apply len_filter_le|done].
    + intros p. rewrite (coherent_peerLog _ _ Hc'), Hreqs, timesOf_younger.
      etrans; [apply len_filter_le|]. rewrite <- (coherent_peerLog _ _ Hc). apply Hqp.
  - done.
  - done.
  - intros p. by rewrite cleanup_ongoingReqs.
  - exists (old ++ filter (λ e, ¬ younger t (Time_ e)) (reqs (h_limiter h))). split.
    + by rewrite <- app_assoc, <- Hsplit.
    + apply Forall_app. split.
      * eapply Forall_impl; [exact Hold|]. intros e. simpl. by apply not_younger_mono.
      * apply Forall_forall. by intros e [? _]%list_elem_of_filter.
  - done.
  - done.
  - eapply Forall_impl; [exact Hpast|]. simpl. lia.
  - rewrite cleanup_dialDataReqs. by apply sortedTimes_pruneLog.
  - rewrite Hdd. apply Forall_forall. intros d [_ Hd]%list_elem_of_filter.
    rewrite Forall_forall in Hdp. specialize (Hdp d Hd). simpl in Hdp. lia.
Qed.

Lemma len_app_one {A} (l : list A) (x : A) : len (l ++ [x]) = len l + 1.
Proof. unfold len. rewrite length_app. simpl. lia. Qed.

Lemma len_nonneg {A} (l : list A) : 0 ≤ len l.
Proof. unfold len. lia. Qed.

Lemma nonEmpty_snoc ts t : nonEmpty (ts ++ [t]) = Some (ts ++ [t]).
Proof. by destruct ts. Qed.

Lemma timesOf_one q p t :
  timesOf q [mkEntry p t] = if decide (p = q) then [t] else [].
Proof. unfold timesOf. rewrite filter_cons. simpl. by case_decide. Qed.

(** The insertions of an admission keep the carried facts. *)
Lemma core_admitted t h p tm :
  coreInvariant t h →
  p ∉ ongoingReqs (h_limiter h) →
  len (reqs (h_limiter h)) < RPM (h_limiter h) →
  len (peerLog (peerReqs (h_limiter h)) p) < PerPeerRPM (h_limiter h) →
  coreInvariant t
    {| h_limiter :=
         {| PerPeerRPM := PerPeerRPM (h_limiter h);
            RPM := RPM (h_limiter h);
            DialDataRPM := DialDataRPM (h_limiter h);
            reqs := reqs (h_limiter h) ++ [mkEntry p t];
            peerReqs := <[p := peerLog (peerReqs (h_limiter h)) p ++ [t]]>
                          (peerReqs (h_limiter h));
            dialDataReqs := dialDataReqs (h_limiter h);
            ongoingReqs := {[p]} ∪ ongoingReqs (h_limiter h) |};
       h_admitted := h_admitted h ++ [mkEntry p t];
       h_open := p :: h_open h;
       h_time := tm;
       h_justAdmitted := true |}.
Proof.
  intros [[Hq Hqp] _ Hnd Hop (old & Hadm & Hold) Hc Hs Hpast Hds Hdp] Hfree Hlen Hlenp.
  pose proof (len_nonneg (reqs (h_limiter h))).
  pose proof (len_nonneg (peerLog (peerReqs (h_limiter h)) p)).
  constructor; simpl.
  - split; [rewrite len_app_one; lia|]. intros q. unfold peerLog at 1.
    destruct (decide (q = p)) as [->|Hne].
    + rewrite lookup_insert_eq. simpl. rewrite len_app_one. lia.
    + rewrite lookup_insert_ne by done. apply Hqp.
  - intros _. lia.
  - apply NoDup_cons. split; [|done]. by rewrite <- Hop.
  - intros q. rewrite elem_of_union, elem_of_singleton, elem_of_cons, Hop. done.
  - exists old. split; [|done]. by rewrite Hadm, app_assoc.
  - intros q. simpl. rewrite timesOf_app. destruct (decide (q = p)) as [->|Hne].
    + rewrite lookup_insert_eq. rewrite (coherent_peerLog _ _ Hc).
      rewrite timesOf_one, decide_True by done. by rewrite nonEmpty_snoc.
    + rewrite lookup_insert_ne by done.
      rewrite timesOf_one, decide_False by done. rewrite app_nil_r. apply Hc.
  - rewrite fmap_app. apply sortedTimes_snoc; [done|].
    apply Forall_fmap. eapply Forall_impl; [exact Hpast|]. done.
  - apply Forall_app. split; [done|]. constructor; [simpl; lia|constructor].
  - done.
  - done.
Qed.

Lemma core_step t0 h t c :
  coreInvariant t0 h → t0 ≤ t → coreInvariant t (stepCall h (t, c)).
Proof.
  intros Hcore Ht. destruct c as [p|p|p]; simpl.
  - pose proof (core_cleanup t0 t h t Hcore Ht) as H1.
    unfold Accept. case_decide as Hin.
    { exact H1. }
    destruct (_ || _) eqn:Hfull.
    { exact H1. }
    apply orb_false_elim in Hfull as [Hl1 Hl2]. apply Z.leb_gt in Hl1, Hl2.
    by apply (core_admitted t _ p t H1).
  - pose proof (core_cleanup t0 t h t Hcore Ht) as H1.
    unfold AcceptDialDataRequest. destruct (_ <=? _).
    { exact H1. }
    destruct H1 as [? ? ? ? ? ? ? ? Hds Hdp]. simpl in *.
    constructor; simpl; try done.
    + by apply sortedTimes_snoc.
    + apply Forall_app. split; [done|]. constructor; [lia|constructor].
  - destruct Hcore as [Hq _ Hnd Hop (old & Hadm & Hold) Hc Hs Hpast Hds Hdp].
    constructor; simpl; try done.
    + by apply NoDup_filter.
    + intros q. rewrite elem_of_difference, elem_of_singleton, list_elem_of_filter, Hop.
      tauto.
    + exists old. split; [done|].
      eapply Forall_impl; [exact Hold|]. intros e. simpl. by apply not_younger_mono.
    + eapply Forall_impl; [exact Hpast|]. simpl. lia.
    + eapply Forall_impl; [exact Hdp|]. simpl. lia.
Qed.

Lemma core_start t rpm perPeer dialData :
  coreInvariant t (startHistory (newLimiter rpm perPeer dialData)).
Proof.
  constructor; simpl; try done; try by constructor.
  - unfold len. simpl. split; [lia|]. intros p. unfold peerLog.
    rewrite lookup_empty. simpl. lia.
  - intros p. by rewrite elem_of_empty, elem_of_nil.
  - by exists [].
Qed.

Lemma stepCall_time h t c : h_time (stepCall h (t, c)) = t.
Proof.
  destruct c; simpl; [destruct (Accept _ _ _) | destruct (AcceptDialDataRequest _ _ _) |];
    done.
Qed.

Lemma core_run cs : ∀ h,
  coreInvariant (h_time h) h →
  StronglySorted Z.le (h_time h :: (fst <$> cs)) →
  coreInvariant (h_time (fold_left stepCall cs h)) (fold_left stepCall cs h).
Proof.
  induction cs as [|[t c] cs IH]; intros h Hcore Hs; [done|].
  cbn [fold_left]. rewrite fmap_cons in Hs.
  apply StronglySorted_inv in Hs as [Hs Hall].
  apply Forall_cons in Hall as [Ht _]. cbn [fst] in Ht, Hs.
  apply IH; rewrite stepCall_time; [|done].
  by apply (core_step (h_time h)).
Qed.

Lemma core_runCalls rpm perPeer dialData cs :
  sortedTimes (fst <$> cs) →
  let h := runCalls (newLimiter rpm perPeer dialData) cs in
  coreInvariant (h_time h) h.
Proof.
  intros Hs. apply sortedTimes_strongly in Hs. unfold runCalls.
  destruct cs as [|[t c] cs]; [apply core_start|].
  cbn [fold_left]. rewrite fmap_cons in Hs. cbn [fst] in Hs.
  apply core_run; rewrite stepCall_time; [|done].
  apply (core_step t); [apply core_start | reflexivity].
Qed.

Lemma core_limiterInvariant h : coreInvariant (h_time h) h → limiterInvariant h.
Proof.
  intros Hcore. pose proof (core_sorted_reqs _ _ Hcore) as Hsr.
  destruct Hcore as [[Hq Hqp] Hadmit Hnd Hop (old & Hadm & Hold) Hc Hs Hpast Hds Hdp].
  constructor.
  - intros Hj. destruct (Hadmit Hj) as [HR HP]. split.
    + lia.
    + intros p. specialize (Hqp p). lia.
  - done.
  - done.
  - done.
  - rewrite Hadm, filter_app, (filter_none _ old); [done|].
    eapply Forall_impl; [exact Hold|]. done.
  - intros p. rewrite (coherent_peerLog _ _ Hc), Hadm, timesOf_app, filter_app.
    rewrite (filter_none _ (timesOf p old)); [done|].
    apply Forall_forall. intros t.
    unfold timesOf. intros (e & -> & [_ He]%list_elem_of_filter)%list_elem_of_fmap.
    rewrite Forall_forall in Hold. by apply Hold.
  - by apply coherent_sorted.
Qed.

Lemma sortedTimes_take n ts : sortedTimes ts → sortedTimes (take n ts).
Proof.
  rewrite !sortedTimes_strongly. intros Hs.
  rewrite <- (take_drop n ts) in Hs. by apply StronglySorted_app_1_l in Hs.
Qed.

(** C9: from the empty limiter, along every sequence of [Accept],
    [AcceptDialDataRequest] and [CompleteRequest] calls made at non-decreasing
    clock readings, the invariant predicate holds after each call: at an
    admission the global log has at most [RPM] entries and every sublog at
    most [PerPeerRPM]; no peer has two admitted requests in flight, and the
    in-flight set holds exactly the peers with one; the admitted requests not
    yet sixty seconds old are the unexpired part of the global log, and
    those of a peer the unexpired part of that peer's sublog, each in order
    and once; and every log is non-decreasing in time. *)
Theorem limiter_invariants (rpm perPeer dialData : Z)
    (cs : list (Time * call)) (n : nat) :
  sortedTimes (fst <$> cs) →
  limiterInvariant (runCalls (newLimiter rpm perPeer dialData) (take n cs)).
Proof.
  intros Hs. apply core_limiterInvariant, core_runCalls.
  rewrite fmap_take. by apply sortedTimes_take.
Qed.

(** ** The dial back *)

Ltac unfold_monad :=
  unfold tracedBy, resultOf, defer, emit, emits, now, WriteMsg, ReadMsg,
    returnNow, panic, mbind, M_bind, mret, M_ret in *.

(** Goals about membership in an explicit list of events. *)
Ltac find_disjunct :=
  match goal with
  | |- _ ∨ _ => (left; find_disjunct) + (right; find_disjunct)
  | |- _ ∧ _ => split; find_disjunct
  | |- _ = _ => reflexivity
  end.

Ltac solve_events :=
  rewrite ?elem_of_cons, ?elem_of_nil;
  repeat match goal with |- _ ∧ _ => split | |- _ ↔ _ => split end;
  intros;
  repeat match goal with
         | Hd : _ ∨ _ |- _ => destruct Hd as [Hd|Hd]
         | Hc : _ ∧ _ |- _ => destruct Hc as [? ?]
         end;
  first [ discriminate | contradiction | find_disjunct ].

Ltac trace_suffix :=
  cbn [st_trace st_limiter st_inbound st_writes st_ticks fst snd];
  rewrite <- ?app_assoc; rewrite ?drop_app_length;
  cbn [app].

(** C4: [dialBack] answers E_DIAL_ERROR exactly when the connection attempt
    on the dialer host fails, E_DIAL_BACK_ERROR exactly when opening the
    dial-back stream fails or the write of the nonce fails (the stream is
    reset when the write fails), and OK whenever the write of the nonce
    completed, whatever the one-byte read that follows gives. *)
Theorem dialBack_status `{Externals} (w : World) (p : peer_ID)
    (addr : Multiaddr) (nonce : Z) (s : HState) :
  ∃ st, resultOf (dialBack w p addr nonce) s = Go st ∧
    let evs := tracedBy (dialBack w p addr nonce) s in
    (st = DialStatus_E_DIAL_ERROR ↔ EvConnect p false ∈ evs) ∧
    (st = DialStatus_E_DIAL_BACK_ERROR ↔
       EvNewStream p false ∈ evs ∨ EvDialBackWrite nonce false ∈ evs) ∧
    (EvDialBackWrite nonce false ∈ evs → EvDialBackReset ∈ evs) ∧
    (st = DialStatus_OK ↔ EvDialBackWrite nonce true ∈ evs) ∧
    (EvDialBackWrite nonce true ∈ evs → EvDialBackRead (w_dialBackRead w) ∈ evs) ∧
    (EvConnect p false ∈ evs ↔ w_connect w = false) ∧
    (EvNewStream p false ∈ evs ↔ w_connect w = true ∧ w_newStream w = false) ∧
    (EvDialBackWrite nonce false ∈ evs ↔
       w_connect w = true ∧ w_newStream w = true ∧ w_dialBackWrite w = false).
Proof.
  unfold resultOf, tracedBy.
  destruct (dialBack w p addr nonce s) as [r s'] eqn:Hrun.
  unfold dialBack in Hrun. unfold_monad.
  destruct (w_connect w), (w_newStream w), (w_dialBackWrite w); cbn in Hrun;
    rewrite <- ?app_assoc in Hrun; cbn [app] in Hrun;
    injection Hrun as <- <-; cbn [st_trace fst snd]; rewrite drop_app_length;
    (eexists; split; [reflexivity|]); cbv zeta; solve_events.
Qed.

(** ** The dial-data exchange *)

Lemma bytesRead_app evs1 evs2 : bytesRead (evs1 ++ evs2) = bytesRead evs1 + bytesRead evs2.
Proof.
  induction evs1 as [|e evs1 IH]; [done|]. simpl in *.
  destruct e as [| | | | | | |[[]|]| | | | | | | | | | | | | | | |]; lia.
Qed.

(** When the loop ends without error it has read dial-data responses only,
    and at least the bytes it was asked to collect. *)
Lemma dialDataLoop_success inbound : ∀ remain rest evs,
  dialDataLoop remain inbound = (None, rest, evs) →
  Forall isDialDataRead evs ∧ remain ≤ bytesRead evs.
Proof.
  induction inbound as [|r inbound IH]; intros remain rest evs; simpl.
  - destruct (remain <=? 0) eqn:Hr; [|done].
    intros [= <- <-]. apply Z.leb_le in Hr. by split.
  - destruct (remain <=? 0) eqn:Hr.
    { intros [= <- <-]. apply Z.leb_le in Hr. by split. }
    destruct r as [m|]; [|done].
    destruct (GetDialDataResponse m) as [d|] eqn:Hm; [|done].
    destruct (_ && _); [done|].
    destruct (dialDataLoop (remain - len d) inbound) as [[e rest'] evs'] eqn:Hl.
    intros [= -> <- <-]. destruct (IH _ _ _ Hl) as [Hall Hsum].
    destruct m; try done. simpl in Hm. injection Hm as ->. split.
    + constructor; [by eexists | done].
    + simpl. lia.
Qed.

(** The reads of the loop, one by one: a message of another type ends it
    with the invalid-type error, a chunk under 100 bytes that leaves bytes
    to collect ends it with the too-small error. *)
Lemma dialDataLoop_failure inbound : ∀ remain,
  let '(e, _, evs) := dialDataLoop remain inbound in
  (∀ m, EvReadMsg (Some m) ∈ evs → GetDialDataResponse m = None →
        e = Some (ErrInvalidMsgType m)) ∧
  (∀ evs1 d evs2,
     evs = evs1 ++ EvReadMsg (Some (Message_DialDataResponse d)) :: evs2 →
     len d < 100 → bytesRead evs1 + len d < remain →
     e = Some (ErrMsgTooSmall (len d))).
Proof.
  induction inbound as [|r inbound IH]; intros remain; simpl.
  - destruct (remain <=? 0); split; intros *.
    + by rewrite elem_of_nil.
    + by destruct evs1.
    + rewrite list_elem_of_singleton. done.
    + destruct evs1 as [|? [|]]; done.
  - destruct (remain <=? 0) eqn:Hr.
    { split; intros *; [by rewrite elem_of_nil | by destruct evs1]. }
    apply Z.leb_gt in Hr.
    destruct r as [m|].
    2:{ split; intros *; [by rewrite list_elem_of_singleton|].
        destruct evs1 as [|? [|]]; done. }
    destruct (GetDialDataResponse m) as [d|] eqn:Hm.
    2:{ split; intros *.
        - rewrite list_elem_of_singleton. by intros [= ->].
        - destruct evs1 as [|? [|]]; [|done..]. intros [= Hmd _]. by subst m. }
    destruct m; try done. simpl in Hm. injection Hm as ->.
    destruct (_ && _) eqn:Hsmall.
    { apply andb_true_iff in Hsmall as [_ Hrem]. split; intros *.
      - rewrite list_elem_of_singleton. by intros [= ->].
      - destruct evs1 as [|? [|]]; [|done..]. by intros [= -> _]. }
    specialize (IH (remain - len d)).
    destruct (dialDataLoop (remain - len d) inbound) as [[e rest'] evs'].
    destruct IH as [IH1 IH2]. split; intros *.
    + rewrite elem_of_cons. intros [[= ->]|Hin]; [done|]. by apply IH1.
    + destruct evs1 as [|e1 evs1]; simpl.
      * intros [= -> ->] Hd Hrem. exfalso.
        apply andb_false_iff in Hsmall as [Hs|Hs].
        -- apply Z.ltb_ge in Hs. lia.
        -- apply Z.ltb_ge in Hs. lia.
      * intros [= <- ->] Hd Hrem. apply (IH2 evs1 d0 evs2); [done|done|].
        simpl in Hrem. lia.
Qed.

(** ** Runs of the handler *)

Lemma dialBack_run `{Externals} (w : World) (p : peer_ID) (addr : Multiaddr)
    (nonce : Z) (s : HState) :
  ∃ st devs ticks,
    dialBack w p addr nonce s
    = (Go st, mkHState (st_limiter s) (st_inbound s) (st_writes s) ticks
                       (st_trace s ++ devs)) ∧
    Forall (λ e, isDialEvent e = true) devs ∧
    EvAddAddr p addr ∈ devs.
Proof.
  unfold dialBack. unfold_monad.
  destruct (w_connect w), (w_newStream w), (w_dialBackWrite w); cbn;
    rewrite <- ?app_assoc; cbn [app];
    (do 3 eexists; split; [reflexivity|]);
    (split; [repeat constructor | apply list_elem_of_here]).
Qed.

Lemma getDialData_run `{Externals} (w : World) (idx : Z) (s : HState) :
  match drawNumBytes w with
  | None => getDialData w idx s = (Panicked, s)
  | Some n =>
      let ddr := Message_DialDataRequest (uint32 idx) (uint64 n) in
      if w_write w (st_writes s)
      then
        let '(e, rest, evs) := dialDataLoop n (st_inbound s) in
        getDialData w idx s
        = (Go e, mkHState (st_limiter s) rest (S (st_writes s)) (st_ticks s)
                          (st_trace s ++ EvWriteMsg ddr true :: evs))
      else
        getDialData w idx s
        = (Go (Some ErrDialDataWrite),
           mkHState (st_limiter s) (st_inbound s) (S (st_writes s)) (st_ticks s)
                    (st_trace s ++ [EvWriteMsg ddr false]))
  end.
Proof.
  unfold getDialData. destruct (drawNumBytes w) as [n|]; [|done].
  unfold_monad. unfold readDialData. cbn.
  destruct (w_write w (st_writes s)); cbn; [|done].
  destruct (dialDataLoop n (st_inbound s)) as [[e rest] evs].
  by rewrite <- app_assoc.
Qed.

Arguments Accept : simpl never.
Arguments AcceptDialDataRequest : simpl never.
Arguments CompleteRequest : simpl never.
Arguments dialBack : simpl never.
Arguments getDialData : simpl never.

Lemma handlerPath_eq `{Externals} srv w s lim tr tr' l l' :
  handlerPath srv w s lim tr l → tr = tr' → l = l' →
  handlerPath srv w s lim tr' l'.
Proof. by intros ? <- <-. Qed.

Ltac with_getDialData_run :=
  match goal with
  | |- context [getDialData ?w ?i ?s] =>
      let Hg := fresh "Hg" in
      pose proof (getDialData_run w i s) as Hg; cbn in Hg
  end.

Ltac with_dialBack_run :=
  match goal with
  | |- context [dialBack ?w ?p ?a ?n ?s] =>
      let st := fresh "st" in
      let devs := fresh "devs" in
      let Heq := fresh "Heq" in
      let Hall := fresh "Hall" in
      let Hadd := fresh "Hadd" in
      destruct (dialBack_run w p a n s) as (st & devs & ? & Heq & Hall & Hadd);
      rewrite Heq; cbn
  end.

Ltac path_leaf tac :=
  eapply handlerPath_eq;
  [ tac
  | repeat match goal with
           | Hw : w_write ?w ?n = _ |- context [w_write ?w ?n] => rewrite Hw
           end;
    cbn; rewrite <- ?app_assoc; reflexivity
  | reflexivity ].

Lemma handleDialRequest_path `{Externals} (srv : server) (w : World)
    (s : Stream) (lim : rateLimiter) :
  handlerPath srv w s lim (st_trace (runHandler srv w s lim))
                          (st_limiter (runHandler srv w s lim)).
Proof.
  unfold runHandler, handleDialRequest, startState, writeOrReset,
    limiterAccept, limiterAcceptDialDataRequest, limiterCompleteRequest,
    acceptAt, acceptDialDataRequestAt.
  unfold_monad. cbn.
  destruct (w_setService w) eqn:Hsvc; cbn; [|by constructor].
  destruct (w_reserveMemory w) eqn:Hmem; cbn; [|by constructor].
  destruct (Accept _ _ _) as [acc lim1] eqn:Hacc. destruct acc; cbn.
  2:{ pose proof (path_rejected srv w s lim lim1 Hsvc Hmem Hacc) as Hp.
      by destruct (w_write w 0%nat). }
  destruct (w_inbound w) as [|r0 inb] eqn:Hin; cbn.
  { path_leaf ltac:(eapply (path_admitted _ _ _ _ lim1); [done..|];
                    eapply path_bad_request; [by rewrite Hin | by left]). }
  destruct r0 as [msg|]; cbn.
  2:{ path_leaf ltac:(eapply (path_admitted _ _ _ _ lim1); [done..|];
                      eapply path_bad_request; [by rewrite Hin | by left]). }
  destruct (GetDialRequest msg) as [[nonce addrs]|] eqn:Hreq; cbn.
  2:{ path_leaf ltac:(eapply (path_admitted _ _ _ _ lim1); [done..|];
                      eapply path_bad_request; [by rewrite Hin | right; eauto]). }
  destruct msg; try done. simpl in Hreq. injection Hreq as -> ->.
  destruct (selectAddr _ _ _ _) as [[dialAddr addrIdx]|] eqn:Hsel; cbn.
  2:{ destruct (w_write w 0%nat) eqn:Hw; cbn;
        path_leaf ltac:(eapply (path_admitted _ _ _ _ lim1); [done..|];
                        eapply path_refused; [by rewrite Hin | done]). }
  destruct (AcceptDialDataRequest _ _ _) as [q lim2] eqn:Hq. destruct q; cbn.
  2:{ destruct (w_write w 0%nat) eqn:Hw; cbn;
        path_leaf ltac:(eapply (path_admitted _ _ _ _ lim1); [done..|];
                        eapply path_dialData_rejected; [by rewrite Hin | done..]). }
  assert (∀ evs,
    dialPath srv w s nonce dialAddr addrIdx inb evs →
    admittedPath srv w s lim1
      (EvReadMsg (Some (Message_DialRequest nonce addrs))
         :: EvAcceptDialDataRequest (RemotePeer (StreamConn s)) true :: evs) lim2)
    as Hsel_path.
  { intros evs Hevs. eapply path_selected; [by rewrite Hin | done | done |].
    by rewrite Hin. }
  destruct (dialDataRequestPolicy srv s dialAddr) eqn:Hpol; cbn.
  2:{ with_dialBack_run.
      destruct (w_write w 0%nat) eqn:Hw; cbn;
        path_leaf ltac:(eapply (path_admitted _ _ _ _ lim1); [done..|];
                        eapply Hsel_path; by eapply (path_dialed _ _ _ _ _ _ _ st devs)). }
  with_getDialData_run.
  destruct (drawNumBytes w) as [numBytes|] eqn:Hdraw.
  2:{ rewrite Hg. cbn.
      path_leaf ltac:(eapply (path_admitted _ _ _ _ lim1); [done..|];
                      eapply Hsel_path; by eapply path_panic). }
  destruct (w_write w 0%nat) eqn:Hw.
  2:{ rewrite Hg. cbn.
      path_leaf ltac:(eapply (path_admitted _ _ _ _ lim1); [done..|];
                      eapply Hsel_path; by eapply path_dialData_write_failed). }
  destruct (dialDataLoop numBytes inb) as [[e rest] evs] eqn:Hloop.
  rewrite Hg. cbn. destruct e as [err|]; cbn.
  { path_leaf ltac:(eapply (path_admitted _ _ _ _ lim1); [done..|];
                    eapply Hsel_path; by eapply path_dialData_failed). }
  with_dialBack_run.
  destruct (w_write w 1%nat) eqn:Hw1; cbn;
    path_leaf ltac:(eapply (path_admitted _ _ _ _ lim1); [done..|];
                    eapply Hsel_path;
                    by eapply (path_dialData_dialed _ _ _ _ _ _ _ _ _ _ st devs)).
Qed.

(** ** What the handler writes *)

Lemma writesOf_app tr1 tr2 : writesOf (tr1 ++ tr2) = writesOf tr1 ++ writesOf tr2.
Proof. apply omap_app. Qed.

Lemma writesOf_dialEvents devs :
  Forall (λ e, isDialEvent e = true) devs → writesOf devs = [].
Proof.
  induction 1 as [|e devs He _ IH]; [done|].
  destruct e; try done; simpl in *; exact IH.
Qed.

Lemma writesOf_reads evs : Forall isRead evs → writesOf evs = [].
Proof.
  induction 1 as [|e evs [r ->] _ IH]; [done|]. exact IH.
Qed.

Lemma writesOf_resetIfFailed ok : writesOf (resetIfFailed ok) = [].
Proof. by destruct ok. Qed.

Lemma writesOf_nil : writesOf [] = [].
Proof. done. Qed.

Lemma writesOf_cons e tr :
  writesOf (e :: tr)
  = match e with EvWriteMsg m _ => m :: writesOf tr | _ => writesOf tr end.
Proof. by destruct e. Qed.

Ltac norm_writes :=
  repeat first [ rewrite writesOf_app | rewrite writesOf_cons
               | rewrite writesOf_nil | rewrite writesOf_resetIfFailed ];
  cbn [app].

Lemma isRead_intro r : isRead (EvReadMsg r).
Proof. by exists r. Qed.

Ltac all_reads :=
  repeat (constructor; [apply isRead_intro|]); try by constructor.

(** Whatever its outcome, the reading loop only reads. *)
Lemma dialDataLoop_reads inbound : ∀ remain,
  Forall isRead (dialDataLoop remain inbound).2.
Proof.
  induction inbound as [|r inbound IH]; intros remain; simpl.
  - destruct (remain <=? 0); simpl; all_reads.
  - destruct (remain <=? 0); simpl; [all_reads|].
    destruct r as [m|]; simpl; [|all_reads].
    destruct (GetDialDataResponse m) as [d|]; simpl; [|all_reads].
    destruct (_ && _); simpl; [all_reads|].
    specialize (IH (remain - len d)).
    destruct (dialDataLoop (remain - len d) inbound) as [[e rest] evs].
    simpl in *. all_reads. done.
Qed.

Lemma dialDataLoop_reads_eq remain inbound e rest evs :
  dialDataLoop remain inbound = (e, rest, evs) → Forall isRead evs.
Proof. intros Heq. pose proof (dialDataLoop_reads inbound remain) as Hr. by rewrite Heq in Hr. Qed.

Lemma dialPath_writes `{Externals} srv w s nonce dialAddr addrIdx inbound evs :
  dialPath srv w s nonce dialAddr addrIdx inbound evs →
  writesWellFormed (writesOf evs).
Proof.
  destruct 1 as [| n | n err rest rd ? ? ? Hloop
                 | n rest rd st devs ? ? ? Hloop Hdev | st devs ? Hdev].
  - exists [], []. by repeat split; left.
  - exists [Message_DialDataRequest (uint32 (Z.of_nat addrIdx)) (uint64 n)], [].
    repeat split; [right; eauto | by left].
  - exists [Message_DialDataRequest (uint32 (Z.of_nat addrIdx)) (uint64 n)], [].
    split; [|split; [right; eauto | by left]].
    cbn. rewrite writesOf_app, (writesOf_reads rd); [done|].
    by eapply dialDataLoop_reads_eq.
  - exists [Message_DialDataRequest (uint32 (Z.of_nat addrIdx)) (uint64 n)],
      [responseOK st (uint32 (Z.of_nat addrIdx))].
    split; [|split; [right; eauto | right; eexists; split; [done|]; right; right; eauto]].
    cbn. rewrite !writesOf_app, (writesOf_reads rd), (writesOf_dialEvents devs);
      [|done|by eapply dialDataLoop_reads_eq].
    cbn. by rewrite writesOf_resetIfFailed.
  - exists [], [responseOK st (uint32 (Z.of_nat addrIdx))].
    split; [|split; [by left | right; eexists; split; [done|]; right; right; eauto]].
    rewrite writesOf_app, (writesOf_dialEvents devs) by done.
    cbn. by rewrite writesOf_resetIfFailed.
Qed.

(** C10: on one inbound stream the handler writes at most one DialResponse,
    which is E_REQUEST_REJECTED, E_DIAL_REFUSED or the OK envelope, and
    nothing after it; the only other message it may write is a single
    DialDataRequest, and that one comes before any DialResponse. *)
Theorem handler_writes_once `{Externals} (srv : server) (w : World)
    (s : Stream) (lim : rateLimiter) :
  writesWellFormed (writesOf (st_trace (runHandler srv w s lim))).
Proof.
  destruct (handleDialRequest_path srv w s lim)
    as [| | lim1 | lim1 lim2 evs ? ? ? Hadm].
  - exists [], []. by repeat split; left.
  - exists [], []. by repeat split; left.
  - exists [], [responseRejected].
    split; [|split; [by left | right; eexists; split; [done|]; by left]].
    cbn. by rewrite writesOf_app, writesOf_resetIfFailed.
  - cbn. rewrite writesOf_app. cbn. rewrite app_nil_r.
    destruct Hadm as [r | nonce addrs | nonce addrs dialAddr addrIdx lim3
                      | nonce addrs dialAddr addrIdx lim3 evs' ? ? ? Hdial].
    + exists [], []. by repeat split; left.
    + exists [], [responseRefused].
      split; [|split; [by left | right; eexists; split; [done|]; right; by left]].
      cbn. by rewrite writesOf_resetIfFailed.
    + exists [], [responseRejected].
      split; [|split; [by left | right; eexists; split; [done|]; by left]].
      cbn. by rewrite writesOf_resetIfFailed.
    + cbn. by eapply dialPath_writes.
Qed.

(** ** Address selection *)

Lemma ValueForProtocol_is_Some a c :
  is_Some (ValueForProtocol a c) ↔ ∃ x, x ∈ a ∧ code x = c.
Proof.
  unfold ValueForProtocol. split.
  - intros [v Hv]. destruct (find _ a) as [x|] eqn:Hf; [|done].
    apply find_some in Hf as [Hin Hc]. exists x.
    split; [by apply list_elem_of_In | by apply Z.eqb_eq].
  - intros (x & Hin & Hc). destruct (find _ a) as [y|] eqn:Hf; [by eexists|].
    exfalso. apply list_elem_of_In in Hin.
    pose proof (find_none _ _ Hf x Hin) as Hn. simpl in Hn.
    apply Z.eqb_neq in Hn. done.
Qed.

Lemma tryAddr_survives `{Externals} srv p ab a :
  tryAddr srv p ab = Some a ↔ survives srv p ab a.
Proof.
  unfold tryAddr, survives. rewrite <- ValueForProtocol_is_Some.
  destruct (NewMultiaddrBytes ab) as [a'|]; [|by split; [|intros [? _]]].
  split.
  - destruct (negb (allowPrivateAddrs srv) && negb (IsPublicAddr a')) eqn:Hpriv;
      [done|].
    case_bool_decide as Hcirc; [done|].
    case_bool_decide as Hd; [done|].
    case_bool_decide as Hh; [done|].
    intros [= ->]. split; [done|]. split.
    { destruct (allowPrivateAddrs srv), (IsPublicAddr a); auto. }
    split; [done|]. split.
    + by destruct (decide (CanDial (dialerHost srv) p a = DialabilityDialable)).
    + by destruct (decide (CanDial (host srv) p a = DialabilityDialable)).
  - intros ([= ->] & Hpub & Hcirc & Hd & Hh).
    replace (negb (allowPrivateAddrs srv) && negb (IsPublicAddr a)) with false
      by (destruct Hpub as [-> | ->]; [done | by rewrite andb_false_r]).
    rewrite bool_decide_eq_false_2 by done.
    rewrite Hd, Hh. by rewrite !bool_decide_eq_false_2 by auto.
Qed.

Lemma selectAddr_spec `{Externals} srv p addrs : ∀ k,
  match selectAddr srv p k addrs with
  | Some (a, i) =>
      (k ≤ i)%nat ∧ Z.of_nat i < maxPeerAddresses ∧
      (∃ ab, addrs !! (i - k)%nat = Some ab ∧ tryAddr srv p ab = Some a) ∧
      (∀ j ab, (j < i - k)%nat → addrs !! j = Some ab → tryAddr srv p ab = None)
  | None =>
      ∀ j ab, Z.of_nat (k + j) < maxPeerAddresses → addrs !! j = Some ab →
              tryAddr srv p ab = None
  end.
Proof.
  induction addrs as [|ab addrs IH]; intros k; simpl.
  - intros j ab _ Hj. by rewrite lookup_nil in Hj.
  - destruct (maxPeerAddresses <=? Z.of_nat k) eqn:Hk.
    { apply Z.leb_le in Hk. intros j ab' Hlt. lia. }
    apply Z.leb_gt in Hk.
    destruct (tryAddr srv p ab) as [a|] eqn:Htry.
    + split; [lia|]. split; [done|]. split.
      * exists ab. by rewrite Nat.sub_diag.
      * intros j ab' Hj. lia.
    + specialize (IH (S k)). destruct (selectAddr srv p (S k) addrs) as [[a i]|].
      * destruct IH as (Hki & Hi & (ab' & Hab' & Ht) & Hbefore).
        split; [lia|]. split; [done|]. split.
        -- exists ab'. split; [|done].
           replace (i - k)%nat with (S (i - S k)) by lia. done.
        -- intros [|j] ab'' Hj; simpl.
           ++ by intros [= <-].
           ++ apply Hbefore. lia.
      * intros [|j] ab' Hj; simpl.
        -- by intros [= <-].
        -- apply IH. lia.
Qed.

Lemma selectAddr_None `{Externals} srv p addrs :
  (∀ j ab a, Z.of_nat j < maxPeerAddresses → addrs !! j = Some ab →
             ¬ survives srv p ab a) →
  selectAddr srv p 0 addrs = None.
Proof.
  intros Hnone. pose proof (selectAddr_spec srv p addrs 0) as Hspec.
  destruct (selectAddr srv p 0 addrs) as [[a i]|]; [|done].
  destruct Hspec as (_ & Hi & (ab & Hab & Htry) & _).
  rewrite Nat.sub_0_r in Hab. apply tryAddr_survives in Htry.
  by destruct (Hnone i ab a).
Qed.

Lemma resetIfFailed_no_dial ok :
  Forall (λ e, isDialEvent e = false) (resetIfFailed ok).
Proof. destruct ok; repeat constructor. Qed.


(** C8: the address loop looks at the first [maxPeerAddresses] = 50
    addresses of the request at most, passes over every address that does
    not survive (does not parse, is not public while private addresses are
    not allowed, has a circuit component, or is not dialable for the dialer
    host or for the main host), and returns the first survivor together with
    its index in the request; and for every request of which no address
    among the first 50 survives, once the service scope and the memory are
    granted, [Accept] admits the peer and the request is what the stream
    delivers, the handler reads it, writes E_DIAL_REFUSED, nothing else, and
    performs no action of a dial back. *)
Theorem address_selection `{Externals} (srv : server) (w : World) (s : Stream)
    (lim : rateLimiter) (nonce : Z) (addrs : list (list byte)) :
  let p := RemotePeer (StreamConn s) in
  let tr := st_trace (runHandler srv w s lim) in
  match selectAddr srv p 0 addrs with
  | Some (a, i) =>
      Z.of_nat i < 50 ∧
      (∃ ab, addrs !! i = Some ab ∧ survives srv p ab a) ∧
      (∀ j ab a', (j < i)%nat → addrs !! j = Some ab → ¬ survives srv p ab a')
  | None =>
      ∀ j ab a, Z.of_nat j < 50 → addrs !! j = Some ab → ¬ survives srv p ab a
  end ∧
  (w_setService w = true → w_reserveMemory w = true →
   (Accept (w_clock w 1%nat) p lim).1 = true →
   hd None (w_inbound w) = Some (Message_DialRequest nonce addrs) →
   (∀ j ab a, Z.of_nat j < 50 → addrs !! j = Some ab → ¬ survives srv p ab a) →
   EvReadMsg (Some (Message_DialRequest nonce addrs)) ∈ tr ∧
   EvWriteMsg responseRefused (w_write w 0%nat) ∈ tr ∧
   writesOf tr = [responseRefused] ∧
   Forall (λ e, isDialEvent e = false) tr).
Proof.
  intros p tr. split.
  - pose proof (selectAddr_spec srv p addrs 0) as Hspec.
    destruct (selectAddr srv p 0 addrs) as [[a i]|].
    + destruct Hspec as (_ & Hi & (ab & Hab & Htry) & Hbefore).
      rewrite Nat.sub_0_r in Hab, Hbefore. split; [done|]. split.
      * exists ab. split; [done|]. by apply tryAddr_survives.
      * intros j ab' a' Hj Hab' Hs. apply tryAddr_survives in Hs.
        by rewrite (Hbefore j ab' Hj Hab') in Hs.
    + intros j ab a Hj Hab Hs. apply tryAddr_survives in Hs.
      by rewrite (Hspec j ab Hj Hab) in Hs.
  - intros Hsvc Hmem Hacc Hreq Hnone. subst tr p.
    pose proof (selectAddr_None srv _ addrs Hnone) as Hsel.
    destruct (handleDialRequest_path srv w s lim)
      as [Hsvc' | Hsvc' Hmem' | lim1 _ _ Hacc' | lim1 lim2 evs _ _ Hacc' Hadm].
    { congruence. }
    { congruence. }
    { by rewrite Hacc' in Hacc. }
    destruct Hadm as [r Hr Hbad | nonce' addrs' Hreq' Hsel'
                      | nonce' addrs' dialAddr addrIdx lim3 Hreq' Hsel'
                      | nonce' addrs' dialAddr addrIdx lim3 evs' Hreq' Hsel'].
    + rewrite Hreq in Hr. subst r. destruct Hbad as [|(m & [= <-] & ?)]; done.
    + rewrite Hreq in Hreq'. injection Hreq' as <- <-.
      split; [rewrite !elem_of_app, !elem_of_cons; auto 10|].
      split; [rewrite !elem_of_app, !elem_of_cons; auto 10|].
      split.
      * by norm_writes.
      * cbn. repeat (constructor; [done|]).
        apply Forall_app. split; [apply resetIfFailed_no_dial | by repeat constructor].
    + rewrite Hreq in Hreq'. injection Hreq' as <- <-. by rewrite Hsel in Hsel'.
    + rewrite Hreq in Hreq'. injection Hreq' as <- <-. by rewrite Hsel in Hsel'.
Qed.

(** ** The dial-data quota *)



(** ** The dial-data exchange, seen from [getDialData] *)

Lemma drawNumBytes_range `{Externals} w n :
  drawNumBytes w = Some n →
  minHandshakeSizeBytes ≤ n < maxHandshakeSizeBytes.
Proof.
  unfold drawNumBytes, Intn.
  destruct (_ <=? 0) eqn:Hle; [done|]. apply Z.leb_gt in Hle.
  intros [= <-].
  pose proof (Z.mod_pos_bound (w_rand w)
                (maxHandshakeSizeBytes - minHandshakeSizeBytes) Hle).
  lia.
Qed.

Lemma uint32_small n : 0 ≤ n < 2 ^ 32 → uint32 n = n.
Proof. intros. unfold uint32. by apply Z.mod_small. Qed.

Lemma uint64_small n : 0 ≤ n < 2 ^ 64 → uint64 n = n.
Proof. intros. unfold uint64. by apply Z.mod_small. Qed.

(** C7: when [getDialData] returns nil, the demand it drew lies in
    [minHandshakeSizeBytes, maxHandshakeSizeBytes), the first thing it did
    was to send a DialDataRequest with the address index it was given and
    that demand, everything after that was a read of a DialDataResponse,
    and the payloads read add up to the demand at least.  The constants are
    non-negative Go ints and the index fits the uint32 field. *)
Theorem getDialData_success `{Externals} (w : World) (addrIdx : Z) (s : HState) :
  0 ≤ minHandshakeSizeBytes → maxHandshakeSizeBytes ≤ 2 ^ 63 →
  0 ≤ addrIdx < 2 ^ 32 →
  resultOf (getDialData w addrIdx) s = Go None →
  ∃ numBytes evs,
    minHandshakeSizeBytes ≤ numBytes < maxHandshakeSizeBytes ∧
    tracedBy (getDialData w addrIdx) s
    = EvWriteMsg (Message_DialDataRequest addrIdx numBytes) true :: evs ∧
    Forall isDialDataRead evs ∧
    numBytes ≤ bytesRead evs.
Proof.
  intros Hmin Hmax Hidx. unfold resultOf, tracedBy.
  pose proof (getDialData_run w addrIdx s) as Hrun.
  destruct (drawNumBytes w) as [n|] eqn:Hdraw; [|by rewrite Hrun].
  pose proof (drawNumBytes_range w n Hdraw) as Hn. cbn in Hrun.
  destruct (w_write w (st_writes s)); [|by rewrite Hrun].
  destruct (dialDataLoop n (st_inbound s)) as [[e rest] evs] eqn:Hloop.
  rewrite Hrun. cbn. intros [= ->].
  destruct (dialDataLoop_success _ _ _ _ Hloop) as [Hall Hsum].
  exists n, evs. split; [done|]. split; [|done].
  rewrite drop_app_length, uint32_small, uint64_small; [done| |done].
  change (2 ^ 64) with 18446744073709551616.
  change (2 ^ 63) with 9223372036854775808 in Hmax. lia.
Qed.

(** ** Failures of the dial-data exchange *)

Lemma unique_mark_split {A} (f : A → bool) (l1 : list A) x l2 k1 y k2 :
  l1 ++ x :: l2 = k1 ++ y :: k2 →
  f x = true → f y = true →
  Forall (λ e, f e = false) k1 → Forall (λ e, f e = false) k2 →
  l1 = k1 ∧ x = y ∧ l2 = k2.
Proof.
  intros Heq Hx Hy Hk1 Hk2. revert k1 Heq Hk1.
  induction l1 as [|a l1 IH]; intros [|b k1] Heq Hk1; simpl in *.
  - by injection Heq as -> ->.
  - injection Heq as -> _. apply Forall_cons in Hk1 as [Hb _]. congruence.
  - injection Heq as -> Heq. exfalso.
    assert (x ∈ k2) as Hin by (rewrite <- Heq; apply elem_of_app; right; left).
    rewrite Forall_forall in Hk2. specialize (Hk2 x Hin). congruence.
  - injection Heq as -> Heq. apply Forall_cons in Hk1 as [_ Hk1].
    destruct (IH k1 Heq Hk1) as (-> & -> & ->). done.
Qed.

Lemma no_mark_split {A} (f : A → bool) (tr l1 : list A) x l2 :
  tr = l1 ++ x :: l2 → f x = true → Forall (λ e, f e = false) tr → False.
Proof.
  intros -> Hx Hall. rewrite Forall_forall in Hall.
  assert (x ∈ l1 ++ x :: l2) as Hin by (apply elem_of_app; right; left).
  specialize (Hall x Hin). congruence.
Qed.

Lemma split_in_prefix {A} (evs t evs1 : list A) x evs2 :
  evs ++ t = evs1 ++ x :: evs2 → x ∉ t → ∃ evs2', evs = evs1 ++ x :: evs2'.
Proof.
  intros Heq Hx. revert evs Heq.
  induction evs1 as [|a evs1 IH]; intros [|e evs] Heq; simpl in *.
  - exfalso. apply Hx. rewrite Heq. left.
  - injection Heq as -> _. by eexists.
  - exfalso. apply Hx. rewrite Heq. right. apply elem_of_app. right. left.
  - injection Heq as -> Heq. destruct (IH evs Heq) as [evs2' ->]. by eexists.
Qed.

Lemma reads_not_sent evs :
  Forall isRead evs → Forall (λ e, isDataRequestSent e = false) evs.
Proof. intros Hr. eapply Forall_impl; [exact Hr|]. by intros e [r ->]. Qed.

Lemma dialEvents_not_sent devs :
  Forall (λ e, isDialEvent e = true) devs →
  Forall (λ e, isDataRequestSent e = false) devs.
Proof. intros Hd. eapply Forall_impl; [exact Hd|]. by intros []. Qed.

Lemma resetIfFailed_not_sent ok :
  Forall (λ e, isDataRequestSent e = false) (resetIfFailed ok).
Proof. destruct ok; repeat constructor. Qed.

Lemma reads_no_dial evs :
  Forall isRead evs → Forall (λ e, isDialEvent e = false) evs.
Proof. intros Hr. eapply Forall_impl; [exact Hr|]. by intros e [r ->]. Qed.

Ltac split_at_request H :=
  symmetry in H; cbn in H;
  match type of H with
  | ?lhs = ?a :: ?b :: ?c :: ?d :: ?e :: ?f :: ?rest =>
      change (lhs = [a; b; c; d; e; f] ++ rest) in H
  end.

Ltac not_sent :=
  repeat first
    [ apply Forall_nil_2
    | apply Forall_cons_2; [reflexivity|]
    | apply Forall_app_2
    | apply resetIfFailed_not_sent
    | apply reads_not_sent; eapply dialDataLoop_reads_eq; eassumption
    | apply dialEvents_not_sent; assumption ].

Lemma getDialData_traced `{Externals} (w : World) (idx : Z) (s : HState) :
  (drawNumBytes w = None ∧ tracedBy (getDialData w idx) s = []) ∨
  (∃ n, drawNumBytes w = Some n ∧ w_write w (st_writes s) = false ∧
        tracedBy (getDialData w idx) s
        = [EvWriteMsg (Message_DialDataRequest (uint32 idx) (uint64 n)) false]) ∨
  (∃ n e rest evs,
     drawNumBytes w = Some n ∧ w_write w (st_writes s) = true ∧
     dialDataLoop n (st_inbound s) = (e, rest, evs) ∧
     resultOf (getDialData w idx) s = Go e ∧
     tracedBy (getDialData w idx) s
     = EvWriteMsg (Message_DialDataRequest (uint32 idx) (uint64 n)) true :: evs).
Proof.
  unfold tracedBy, resultOf. pose proof (getDialData_run w idx s) as Hrun.
  destruct (drawNumBytes w) as [n|].
  - cbn in Hrun. destruct (w_write w (st_writes s)).
    + destruct (dialDataLoop n (st_inbound s)) as [[e rest] evs] eqn:Hloop.
      right. right. exists n, e, rest, evs. rewrite Hrun. cbn.
      by rewrite drop_app_length.
    + right. left. exists n. rewrite Hrun. cbn. by rewrite drop_app_length.
  - left. rewrite Hrun. cbn. by rewrite drop_all.
Qed.

(** C6: in the dial-data exchange, whatever the client sends, a message the
    exchange reads that is not a DialDataResponse makes [getDialData] fail
    with the invalid-message-type error, and a chunk under 100 bytes read
    while bytes are still missing makes it fail with the too-small error;
    and in the handler, when one of the two happens after the dial-data
    request went out, the stream is reset, the request is all the handler
    has written, so no response, and no action of a dial back is taken. *)
Theorem dial_data_failures `{Externals} (srv : server) (w : World) (s : Stream)
    (lim : rateLimiter) (idx : Z) (st : HState) :
  ((∀ m, EvReadMsg (Some m) ∈ tracedBy (getDialData w idx) st →
         GetDialDataResponse m = None →
         resultOf (getDialData w idx) st = Go (Some (ErrInvalidMsgType m))) ∧
   (∀ numBytes evs1 d evs2,
      drawNumBytes w = Some numBytes →
      tracedBy (getDialData w idx) st
      = evs1 ++ EvReadMsg (Some (Message_DialDataResponse d)) :: evs2 →
      len d < 100 → bytesRead evs1 + len d < numBytes →
      resultOf (getDialData w idx) st = Go (Some (ErrMsgTooSmall (len d))))) ∧
  (let tr := st_trace (runHandler srv w s lim) in
   ∀ pre i n post,
     tr = pre ++ EvWriteMsg (Message_DialDataRequest i n) true :: post →
     (∃ m, EvReadMsg (Some m) ∈ post ∧ GetDialDataResponse m = None) ∨
     (∃ numBytes evs1 d evs2,
        drawNumBytes w = Some numBytes ∧
        post = evs1 ++ EvReadMsg (Some (Message_DialDataResponse d)) :: evs2 ∧
        len d < 100 ∧ bytesRead evs1 + len d < numBytes) →
     EvStreamReset ∈ post ∧
     writesOf tr = [Message_DialDataRequest i n] ∧
     Forall (λ e, isDialEvent e = false) tr).
Proof.
  split.
  - destruct (getDialData_traced w idx st)
      as [[Hdraw ->] | [(n & Hdraw & Hw & ->)
                       | (n & e & rest & evs & Hdraw & Hw & Hloop & -> & ->)]].
    + split; [intros m Hin; by apply elem_of_nil in Hin|].
      intros ? [|??] ???; done.
    + split.
      * intros m Hin. by apply list_elem_of_singleton in Hin.
      * intros ? [|?[|??]] ???; done.
    + pose proof (dialDataLoop_failure (st_inbound st) n) as Hfail.
      rewrite Hloop in Hfail. destruct Hfail as [Hinv Hsmall]. split.
      * intros m [Hin|Hin]%elem_of_cons Hm; [done|]. f_equal. by apply Hinv.
      * intros numBytes evs1 d evs2 Hnb. rewrite Hdraw in Hnb. injection Hnb as <-.
        destruct evs1 as [|e1 evs1]; [done|]. simpl.
        intros [= <- ->] Hd Hrem. f_equal.
        by apply (Hsmall evs1 d evs2).
  - intros tr pre i n post Htr Hfail. subst tr.
    destruct (handleDialRequest_path srv w s lim)
      as [| | lim1 | lim1 lim2 evs ? ? ? Hadm].
    1-3: exfalso; eapply (no_mark_split isDataRequestSent); [exact Htr|done|];
         not_sent.
    destruct Hadm as [r | nonce addrs | nonce addrs dialAddr addrIdx lim3
                      | nonce addrs dialAddr addrIdx lim3 evs' ? ? ? Hdial].
    1-3: exfalso; eapply (no_mark_split isDataRequestSent); [exact Htr|done|];
         not_sent.
    destruct Hdial as [| nb | nb err rest rd ? Hdraw ? Hloop
                       | nb rest rd dst devs ? Hdraw ? Hloop Hdev | dst devs ? Hdev].
    1-2: exfalso; eapply (no_mark_split isDataRequestSent); [exact Htr|done|];
         not_sent.
    3: exfalso; eapply (no_mark_split isDataRequestSent); [exact Htr|done|];
       not_sent.
    + pose proof (dialDataLoop_reads_eq _ _ _ _ _ Hloop) as Hreads.
      split_at_request Htr.
      apply (unique_mark_split isDataRequestSent) in Htr as (-> & Hx & ->);
        [|done|done|not_sent|not_sent].
      injection Hx as -> ->. split; [|split].
      * rewrite <- app_assoc. apply elem_of_app. right. left.
      * norm_writes. by rewrite (writesOf_reads rd).
      * cbn. repeat (constructor; [done|]). rewrite <- app_assoc.
        apply Forall_app. split; [by apply reads_no_dial | by repeat constructor].
    + exfalso.
      pose proof (dialDataLoop_reads_eq _ _ _ _ _ Hloop) as Hreads.
      pose proof (dialDataLoop_failure (tail (w_inbound w)) nb) as Hf.
      rewrite Hloop in Hf. destruct Hf as [Hinv Hsmall].
      split_at_request Htr.
      apply (unique_mark_split isDataRequestSent) in Htr as (-> & Hx & ->);
        [|done|done|not_sent|not_sent].
      assert (∀ r, EvReadMsg r ∉
                (devs ++ EvWriteMsg (responseOK dst (uint32 (Z.of_nat addrIdx)))
                                    (w_write w 1%nat)
                   :: resetIfFailed (w_write w 1%nat))
                  ++ [EvCompleteRequest (RemotePeer (StreamConn s));
                      EvStreamClose; EvReleaseMemory]) as Hnoread.
      { intros r. rewrite !elem_of_app, !elem_of_cons, elem_of_nil.
        intros [[Hin|[?|Hin]]|[?|[?|[?|[]]]]]; try done.
        - rewrite Forall_forall in Hdev. by specialize (Hdev _ Hin).
        - destruct (w_write w 1%nat); simpl in Hin;
            [by apply elem_of_nil in Hin | by apply list_elem_of_singleton in Hin]. }
      destruct Hfail as [(m & Hin & Hm) | (numBytes & evs1 & d & evs2 & Hnb & Hpost & Hd & Hrem)].
      * rewrite <- (app_assoc rd) in Hin. apply elem_of_app in Hin as [Hin|Hin].
        -- by specialize (Hinv m Hin Hm).
        -- by apply Hnoread in Hin.
      * rewrite Hdraw in Hnb. injection Hnb as <-.
        rewrite <- (app_assoc rd) in Hpost.
        apply split_in_prefix in Hpost as [evs2' ->]; [|apply Hnoread].
        by specialize (Hsmall evs1 d evs2' eq_refl Hd Hrem).
Qed.

(** ** The default dial-data policy *)

Lemma amplificationAttackPrevention_ignores_dialAddr s a a' :
  amplificationAttackPrevention s a = amplificationAttackPrevention s a'.
Proof. done. Qed.

(** What the code computes is the documented policy for the local address
    of the connection in place of the address to dial. *)
Lemma amplificationAttackPrevention_local s a :
  amplificationAttackPrevention s a
  = amplificationPolicySpec s (LocalMultiaddr (StreamConn s)).
Proof. done. Qed.

Lemma amplificationAttackPrevention_no_ip s a :
  ToIP (RemoteMultiaddr (StreamConn s)) = None →
  amplificationAttackPrevention s a = true.
Proof. unfold amplificationAttackPrevention. by intros ->. Qed.

(** C1, at an input where the code departs from it: the peer is observed at
    203.0.113.5 on a connection accepted on 198.51.100.1 and asks for a dial
    back to 203.0.113.5.  The observed IP and the IP to dial are equal, so the policy
    of the documentation asks for no dial data; the code compares with the
    local address of the connection and asks for it. *)
Theorem amplificationAttackPrevention_compares_local_address :
  let dialAddr := ip4tcp xcb x00 x71 x05 in
  ToIP (RemoteMultiaddr (StreamConn exampleStream)) = ToIP dialAddr ∧
  amplificationPolicySpec exampleStream dialAddr = false ∧
  amplificationAttackPrevention exampleStream dialAddr = true.
Proof. by vm_compute. Qed.

(** ** The states the limiter reaches *)

Lemma coherent_agedAccounted now r : coherent r → agedAccounted now r.
Proof.
  intros Hc p ts Hts Hcond. rewrite Hc in Hts.
  destruct (timesOf p (reqs r)) as [|t0 ts0] eqn:Htimes; [done|].
  injection Hts as <-. destruct Hcond as [|(t & Ht & Hy)]; [done|].
  rewrite <- Htimes in Ht. unfold timesOf in Ht.
  apply list_elem_of_fmap in Ht as (e & -> & [Hp He]%list_elem_of_filter).
  by exists e.
Qed.

(** Every state reached from the empty limiter by calls at non-decreasing
    clock readings has sorted logs and accounts for its aged sublog
    entries, which is what [cleanup] needs to be exact. *)
Lemma reached_cleanup_ready rpm perPeer dialData cs now :
  sortedTimes (fst <$> cs) →
  let r := h_limiter (runCalls (newLimiter rpm perPeer dialData) cs) in
  logsSorted r ∧ agedAccounted now r.
Proof.
  intros Hs r. pose proof (core_runCalls rpm perPeer dialData cs Hs) as Hcore.
  cbv zeta in Hcore. fold r in Hcore. split.
  - apply coherent_sorted;
      [apply Hcore | by eapply core_sorted_reqs | apply Hcore].
  - apply coherent_agedAccounted, Hcore.
Qed.

(** ** Examples *)

Ltac lookup_cases p :=
  repeat first
    [ rewrite lookup_empty
    | rewrite lookup_singleton_eq
    | rewrite lookup_insert_eq
    | rewrite lookup_singleton_ne by done
    | rewrite lookup_insert_ne by done
    | match goal with
      | |- context [<[?k := _]> _ !! p] => destruct (decide (p = k)) as [->|]
      | |- context [{[?k := _]} !! p] => destruct (decide (p = k)) as [->|]
      end ].

Lemma logsSorted_staleSublog : logsSorted staleSublog.
Proof.
  split; [constructor|]. split; [|constructor].
  intros p. unfold peerLog. simpl. lookup_cases p; simpl; repeat constructor.
Qed.

(** C5 as it is worded fails: the logs of [staleSublog] are sorted, its one
    sublog entry is sixty seconds old when [cleanup] runs, and [cleanup]
    leaves it where it is, since no entry of the global log leads to it. *)
Lemma cleanup_keeps_stale_sublog :
  logsSorted staleSublog ∧ ¬ cleanupExact Minute staleSublog.
Proof.
  split; [apply logsSorted_staleSublog|].
  intros (_ & _ & Hsub & _). specialize (Hsub "QmClient").
  vm_compute in Hsub. discriminate.
Qed.

Lemma cleanup_removes_expired_witness :
  logsSorted agedLimiter ∧ agedAccounted (61 * Second) agedLimiter ∧
  cleanupExact (61 * Second) agedLimiter.
Proof.
  assert (logsSorted agedLimiter) as Hs.
  { split; [|split].
    - repeat constructor. by vm_compute.
    - intros p. unfold peerLog. simpl. lookup_cases p; simpl; repeat constructor.
    - repeat constructor. }
  assert (agedAccounted (61 * Second) agedLimiter) as Ha.
  { intros p ts Hts Hcond. simpl in Hts.
    destruct (decide (p = "QmClient")) as [->|Hne].
    - exists (mkEntry "QmClient" 0). split; [left|]. split; [done|].
      unfold younger, Second. simpl. lia.
    - rewrite lookup_insert_ne in Hts by done.
      destruct (decide (p = "QmOther")) as [->|Hne'].
      + rewrite lookup_singleton_eq in Hts. injection Hts as <-.
        destruct Hcond as [|(t & Ht & Hy)]; [done|].
        apply list_elem_of_singleton in Ht. subst t.
        exfalso. apply Hy. unfold younger, Second. lia.
      + by rewrite lookup_singleton_ne in Hts. }
  split; [exact Hs|]. split; [exact Ha|].
  exact (cleanup_removes_expired agedLimiter (61 * Second) Hs Ha).
Defined.

Lemma limiter_invariants_witness :
  sortedTimes (fst <$> exampleCalls) ∧
  limiterInvariant (runCalls exampleLimiter (take 4 exampleCalls)).
Proof.
  assert (sortedTimes (fst <$> exampleCalls)) as Hs.
  { repeat constructor; by vm_compute. }
  split; [exact Hs|].
  exact (limiter_invariants 60 12 12 exampleCalls 4 Hs).
Defined.

(** The run of [exampleCalls]: the first admission has aged out by the
    time of the second, which is the only entry left. *)
Example exampleCalls_run :
  let h := runCalls exampleLimiter exampleCalls in
  reqs (h_limiter h) = [mkEntry "QmClient" (61 * Second)] ∧
  h_admitted h = [mkEntry "QmClient" 0; mkEntry "QmClient" (61 * Second)] ∧
  h_open h = ["QmClient"] ∧
  dialDataReqs (h_limiter h) = [].
Proof. by vm_compute. Qed.

Lemma getDialData_success_witness :
  let w := calmWorld [Some (Message_DialDataResponse (replicate (Z.to_nat 30000) x00))] in
  let s := startState w exampleLimiter in
  0 ≤ 30000 ∧ 100000 ≤ 2 ^ 63 ∧ 0 ≤ 0 < 2 ^ 32 ∧
  resultOf (getDialData (H := exampleExternals) w 0) s = Go None ∧
  ∃ numBytes evs,
    30000 ≤ numBytes < 100000 ∧
    tracedBy (getDialData (H := exampleExternals) w 0) s
    = EvWriteMsg (Message_DialDataRequest 0 numBytes) true :: evs ∧
    Forall isDialDataRead evs ∧
    numBytes ≤ bytesRead evs.
Proof.
  intros w s.
  assert (resultOf (getDialData (H := exampleExternals) w 0) s = Go None) as Hres
    by (by vm_compute).
  split; [lia|]. split; [by vm_compute|]. split; [lia|]. split; [exact Hres|].
  apply (getDialData_success (H := exampleExternals) w 0 s);
    [simpl; lia | by vm_compute | lia | exact Hres].
Defined.


Lemma address_selection_witness :
  let addrs := [ip4tcpBytes x0a x00 x00 x01] in
  let w := calmWorld [Some (Message_DialRequest 7 addrs)] in
  let p := RemotePeer (StreamConn exampleStream) in
  let tr := st_trace (runHandler (H := exampleExternals) exampleServer w exampleStream
                        exampleLimiter) in
  w_setService w = true ∧ w_reserveMemory w = true ∧
  (Accept (w_clock w 1%nat) p exampleLimiter).1 = true ∧
  hd None (w_inbound w) = Some (Message_DialRequest 7 addrs) ∧
  (∀ j ab a, Z.of_nat j < 50 → addrs !! j = Some ab →
             ¬ survives (H := exampleExternals) exampleServer p ab a) ∧
  EvReadMsg (Some (Message_DialRequest 7 addrs)) ∈ tr ∧
  EvWriteMsg responseRefused true ∈ tr ∧
  writesOf tr = [responseRefused] ∧
  Forall (λ e, isDialEvent e = false) tr.
Proof.
  intros addrs w p tr.
  pose proof (address_selection (H := exampleExternals) exampleServer w exampleStream
                exampleLimiter 7 addrs) as [Hnone Hrun].
  assert (selectAddr (H := exampleExternals) exampleServer p 0 addrs = None) as Hsel
    by (by vm_compute).
  fold p in Hnone, Hrun. rewrite Hsel in Hnone.
  assert ((Accept (w_clock w 1%nat) p exampleLimiter).1 = true) as Hacc
    by (by vm_compute).
  split; [reflexivity|]. split; [reflexivity|]. split; [exact Hacc|].
  split; [reflexivity|]. split; [exact Hnone|].
  exact (Hrun eq_refl eq_refl Hacc eq_refl Hnone).
Defined.

(** The run of [neverDialData]: the policy asks for no dial data, the
    dial-data quota is charged all the same, and the dial back is made. *)
Example neverDialData_run :
  let run := runHandler (H := exampleExternals) neverDialData
               (calmWorld [Some exampleRequest]) exampleStream exampleLimiter in
  writesOf (st_trace run) = [responseOK DialStatus_OK 0] ∧
  dialDataReqs (st_limiter run) = [2] ∧
  ongoingReqs (st_limiter run) = ∅.
Proof. by vm_compute. Qed.

(** The first scenario of the specification under the default policy: the
    client asks for a dial back to the address it is observed at, and the
    server asks for dial data nevertheless, because the policy compares
    with the local address of the connection. *)
Example own_address_run :
  let run := runHandler (H := exampleExternals) exampleServer
               (calmWorld [Some exampleRequest]) exampleStream exampleLimiter in
  writesOf (st_trace run) = [Message_DialDataRequest 0 30000] ∧
  EvStreamReset ∈ st_trace run.
Proof.
  split; [by vm_compute|]. vm_compute.
  do 8 apply list_elem_of_further. apply list_elem_of_here.
Qed.

(** The third scenario: the client answers the dial-data request with a
    chunk of 50 bytes; the stream is reset and no response is written. *)
Example trickle_run :
  let run := runHandler (H := exampleExternals)
               (mkServer alwaysDialable alwaysDialable (λ _ _, true) false)
               (calmWorld [Some exampleRequest;
                           Some (Message_DialDataResponse (replicate (Z.to_nat 50) x00))])
               exampleStream exampleLimiter in
  writesOf (st_trace run) = [Message_DialDataRequest 0 30000] ∧
  last (st_trace run) = Some EvReleaseMemory ∧
  EvStreamReset ∈ st_trace run ∧
  Forall (λ e, isDialEvent e = false) (st_trace run).
Proof.
  split; [by vm_compute|]. split; [by vm_compute|]. split.
  - vm_compute. do 8 apply list_elem_of_further. apply list_elem_of_here.
  - vm_compute. repeat constructor.
Qed.

(** The fourth and fifth scenarios, on the limiter alone: with [RPM = 1] a
    second peer is refused within the minute, and a peer with a request in
    flight is refused whatever the quotas. *)
Example second_peer_refused :
  let r1 := (Accept 0 "QmA" (newLimiter 1 12 12)).2 in
  (Accept 0 "QmA" (newLimiter 1 12 12)).1 = true ∧
  (Accept (30 * Second) "QmB" (CompleteRequest "QmA" r1)).1 = false ∧
  (Accept (60 * Second) "QmB" (CompleteRequest "QmA" r1)).1 = true.
Proof. by vm_compute. Qed.

Example concurrent_request_refused :
  let r1 := (Accept 0 "QmA" exampleLimiter).2 in
  (Accept 1 "QmA" r1).1 = false ∧
  (Accept 1 "QmA" (CompleteRequest "QmA" r1)).1 = true.
Proof. by vm_compute. Qed.

(** The sixth scenario: the request holds a private address only; the
    response is E_DIAL_REFUSED and nothing happens on the dialer. *)
Example refused_run :
  let run := runHandler (H := exampleExternals) exampleServer
               (calmWorld [Some (Message_DialRequest 7 [ip4tcpBytes x0a x00 x00 x01])])
               exampleStream exampleLimiter in
  writesOf (st_trace run) = [responseRefused] ∧
  Forall (λ e, isDialEvent e = false) (st_trace run) ∧
  ongoingReqs (st_limiter run) = ∅.
Proof.
  split; [by vm_compute|]. split; [|by vm_compute].
  vm_compute. repeat constructor.
Qed.

(** The second scenario, with a policy that asks for dial data: the client
    sends the bytes asked for and the dial back is made. *)
Example dial_data_run :
  let run := runHandler (H := exampleExternals)
               (mkServer alwaysDialable alwaysDialable (λ _ _, true) false)
               (calmWorld [Some exampleRequest;
                           Some (Message_DialDataResponse
                                   (replicate (Z.to_nat 30000) x00))])
               exampleStream exampleLimiter in
  writesOf (st_trace run)
  = [Message_DialDataRequest 0 30000; responseOK DialStatus_OK 0] ∧
  bytesRead (st_trace run) = 30000.
Proof. by vm_compute. Qed.

(** * Part III: further properties of the code *)

(** ** The quotas, whatever the clock does *)

Lemma len_suffix {A} (l1 l2 : list A) : l1 `suffix_of` l2 → len l1 ≤ len l2.
Proof. intros Hs. apply suffix_length in Hs. unfold len. lia. Qed.

Lemma cleanup_withinQuotas now r : withinQuotas r → withinQuotas (cleanup now r).
Proof.
  intros (Hg & Hp & Hd).
  destruct (cleanup_only_removes now r) as (Sg & Sd & Sp & _).
  unfold withinQuotas.
  destruct (cleanup_quotas now r) as (-> & -> & ->).
  split; [|split].
  - etrans; [by apply len_suffix|done].
  - intros p. etrans; [apply len_suffix, Sp|apply Hp].
  - etrans; [by apply len_suffix|done].
Qed.

Lemma Accept_withinQuotas now p r :
  withinQuotas r → withinQuotas (Accept now p r).2.
Proof.
  intros Hq. apply (cleanup_withinQuotas now) in Hq. unfold Accept.
  case_decide; [done|]. destruct (_ || _) eqn:Hfull; [done|].
  apply orb_false_elim in Hfull as [Hl1 Hl2]. apply Z.leb_gt in Hl1, Hl2.
  destruct Hq as (Hg & Hp & Hd). split; [|split]; simpl.
  - rewrite len_app_one. lia.
  - intros q. unfold peerLog at 1. destruct (decide (q = p)) as [->|Hne].
    + rewrite lookup_insert_eq. simpl. rewrite len_app_one. lia.
    + rewrite lookup_insert_ne by done. apply Hp.
  - done.
Qed.

Lemma AcceptDialDataRequest_withinQuotas now p r :
  withinQuotas r → withinQuotas (AcceptDialDataRequest now p r).2.
Proof.
  intros Hq. apply (cleanup_withinQuotas now) in Hq. unfold AcceptDialDataRequest.
  destruct (_ <=? _) eqn:Hl; [done|]. apply Z.leb_gt in Hl.
  destruct Hq as (Hg & Hp & Hd). split; [|split]; simpl; [done..|].
  rewrite len_app_one. lia.
Qed.

Lemma stepCall_quotas h tc :
  RPM (h_limiter (stepCall h tc)) = RPM (h_limiter h) ∧
  PerPeerRPM (h_limiter (stepCall h tc)) = PerPeerRPM (h_limiter h) ∧
  DialDataRPM (h_limiter (stepCall h tc)) = DialDataRPM (h_limiter h).
Proof.
  destruct tc as [t [p|p|p]]; simpl.
  - unfold Accept. destruct (cleanup_quotas t (h_limiter h)) as (? & ? & ?).
    case_decide; [done|]. by destruct (_ || _).
  - unfold AcceptDialDataRequest.
    destruct (cleanup_quotas t (h_limiter h)) as (? & ? & ?).
    by destruct (_ <=? _).
  - done.
Qed.

Lemma stepCall_withinQuotas h tc :
  withinQuotas (h_limiter h) → withinQuotas (h_limiter (stepCall h tc)).
Proof.
  intros Hq. destruct tc as [t [p|p|p]]; simpl.
  - pose proof (Accept_withinQuotas t p _ Hq) as Hq'.
    by destruct (Accept t p (h_limiter h)).
  - pose proof (AcceptDialDataRequest_withinQuotas t p _ Hq) as Hq'.
    by destruct (AcceptDialDataRequest t p (h_limiter h)).
  - done.
Qed.

Lemma fold_stepCall_withinQuotas cs : ∀ h,
  withinQuotas (h_limiter h) →
  let h' := fold_left stepCall cs h in
  withinQuotas (h_limiter h') ∧
  RPM (h_limiter h') = RPM (h_limiter h) ∧
  PerPeerRPM (h_limiter h') = PerPeerRPM (h_limiter h) ∧
  DialDataRPM (h_limiter h') = DialDataRPM (h_limiter h).
Proof.
  induction cs as [|tc cs IH]; intros h Hq; [done|].
  cbn [fold_left]. destruct (stepCall_quotas h tc) as (HR & HP & HD).
  destruct (IH (stepCall h tc) (stepCall_withinQuotas h tc Hq)) as (Hq' & ? & ? & ?).
  split; [exact Hq'|]. split; [congruence|]. split; congruence.
Qed.

(** X1: whatever calls are made on a limiter built with quotas [rpm],
    [perPeer] and [dialData], and whatever the clock reads at each of them,
    also when it runs backwards, the quotas stay as configured, the global
    log never holds more than [rpm] entries, no sublog more than [perPeer]
    and the dial-data log never more than [dialData] (zero entries for a
    negative quota). *)
Theorem quotas_hold_for_any_clock (rpm perPeer dialData : Z)
    (cs : list (Time * call)) :
  let r := h_limiter (runCalls (newLimiter rpm perPeer dialData) cs) in
  RPM r = rpm ∧ PerPeerRPM r = perPeer ∧ DialDataRPM r = dialData ∧
  len (reqs r) ≤ Z.max 0 rpm ∧
  (∀ p, len (peerLog (peerReqs r) p) ≤ Z.max 0 perPeer) ∧
  len (dialDataReqs r) ≤ Z.max 0 dialData.
Proof.
  intros r. subst r. unfold runCalls.
  destruct (fold_stepCall_withinQuotas cs (startHistory (newLimiter rpm perPeer dialData)))
    as ((Hg & Hp & Hd) & HR & HP & HD).
  { unfold withinQuotas, len. simpl. split; [lia|]. split; [|lia].
    intros p. unfold peerLog. rewrite lookup_empty. simpl. lia. }
  simpl in HR, HP, HD. rewrite HR in Hg. rewrite HP in Hp. rewrite HD in Hd.
  done.
Qed.

(** ** Sliding windows *)

Lemma filter_length_mono {A} (P Q : A → Prop) `{!∀ x, Decision (P x)}
    `{!∀ x, Decision (Q x)} (l : list A) :
  (∀ x, x ∈ l → P x → Q x) → len (filter P l) ≤ len (filter Q l).
Proof.
  unfold len. induction l as [|x l IH]; intros Himp; [done|].
  assert (∀ y, y ∈ l → P y → Q y) as Himp' by (intros y ?; apply Himp; by right).
  specialize (IH Himp'). rewrite !filter_cons.
  destruct (decide (P x)) as [HP|HP].
  - rewrite decide_True by (apply Himp; [left|done]). simpl. lia.
  - destruct (decide (Q x)); simpl; lia.
Qed.

Lemma inWindow_younger T t x : inWindow T t → inWindow T x → younger t x.
Proof. unfold inWindow, younger. lia. Qed.

Lemma runCalls_snoc r cs tc : runCalls r (cs ++ [tc]) = stepCall (runCalls r cs) tc.
Proof. unfold runCalls. by rewrite fold_left_app. Qed.

Lemma stepCall_admitted h t c :
  h_admitted (stepCall h (t, c)) = h_admitted h ∨
  ∃ p, h_admitted (stepCall h (t, c)) = h_admitted h ++ [mkEntry p t].
Proof.
  destruct c as [p|p|p]; simpl.
  - destruct (Accept t p (h_limiter h)) as [[] ?]; simpl; [right; by exists p|by left].
  - destruct (AcceptDialDataRequest t p (h_limiter h)); by left.
  - by left.
Qed.

Lemma sortedTimes_app_l (ts1 ts2 : list Time) :
  sortedTimes (ts1 ++ ts2) → sortedTimes ts1.
Proof.
  rewrite !sortedTimes_strongly. apply StronglySorted_app_1_l.
Qed.

Lemma runCalls_quotas rpm perPeer dialData cs :
  let r := h_limiter (runCalls (newLimiter rpm perPeer dialData) cs) in
  RPM r = rpm ∧ PerPeerRPM r = perPeer ∧ DialDataRPM r = dialData ∧ withinQuotas r.
Proof.
  intros r. subst r. unfold runCalls.
  destruct (fold_stepCall_withinQuotas cs (startHistory (newLimiter rpm perPeer dialData)))
    as (Hq & HR & HP & HD); [|done].
  unfold withinQuotas, len. simpl. split; [lia|]. split; [|lia].
  intros p. unfold peerLog. rewrite lookup_empty. simpl. lia.
Qed.

(** X2: on a limiter built with quotas [rpm] and [perPeer], along any
    sequence of calls made at non-decreasing clock readings, every window of
    sixty seconds, wherever it ends, holds at most [rpm] admitted requests,
    and at most [perPeer] of any one peer. *)
Theorem admissions_per_window (rpm perPeer dialData : Z)
    (cs : list (Time * call)) (T : Time) :
  sortedTimes (fst <$> cs) →
  let h := runCalls (newLimiter rpm perPeer dialData) cs in
  len (filter (λ e, inWindow T (Time_ e)) (h_admitted h)) ≤ Z.max 0 rpm ∧
  ∀ p, len (filter (inWindow T) (timesOf p (h_admitted h))) ≤ Z.max 0 perPeer.
Proof.
  induction cs as [|[t c] cs IH] using rev_ind; intros Hs h; subst h.
  { unfold len. simpl. split; [lia|]. intros p. simpl. lia. }
  rewrite fmap_app in Hs. specialize (IH (sortedTimes_app_l _ _ Hs)).
  rewrite <- fmap_app in Hs. cbv zeta in IH.
  pose proof (core_limiterInvariant _
                (core_runCalls rpm perPeer dialData (cs ++ [(t, c)]) Hs)) as Hinv.
  destruct (runCalls_quotas rpm perPeer dialData (cs ++ [(t, c)])) as (HR & HP & _).
  cbv zeta in HR, HP. rewrite runCalls_snoc in *.
  set (h := runCalls (newLimiter rpm perPeer dialData) cs) in *.
  destruct (stepCall_admitted h t c) as [Heq | [p Heq]]; rewrite Heq; [done|].
  destruct Hinv as [_ [Hq Hqp] _ _ Hglob Hpeer _].
  rewrite stepCall_time, Heq in Hglob, Hpeer. rewrite HR in Hq. rewrite HP in Hqp.
  destruct (decide (inWindow T t)) as [Hin | Hout].
  - split.
    + etrans; [|exact Hq].
      etrans; [|apply (len_filter_le (λ e, younger t (Time_ e)))].
      rewrite Hglob. apply filter_length_mono.
      intros e _ He. by apply (inWindow_younger T).
    + intros q. etrans; [|apply (Hqp q)].
      etrans; [|apply (len_filter_le (younger t))].
      rewrite Hpeer. apply filter_length_mono.
      intros x _ Hx. by apply (inWindow_younger T).
  - destruct IH as [IHg IHp]. split.
    + rewrite filter_app, filter_cons_False, filter_nil, app_nil_r by done. done.
    + intros q. rewrite timesOf_app, filter_app, timesOf_one.
      case_decide; [|rewrite filter_nil, app_nil_r; apply IHp].
      rewrite filter_cons_False, filter_nil, app_nil_r by done. apply IHp.
Qed.

Lemma take_firstFresh_aged now ts :
  Forall (λ d, ¬ younger now d) (take (firstFresh now ts) ts).
Proof.
  induction ts as [|t ts IH]; [constructor|]. simpl.
  destruct (fresh now t) eqn:Hf; [constructor|].
  simpl. constructor; [by apply fresh_false | done].
Qed.

Lemma grantsFrom_app h cs1 cs2 :
  grantsFrom h (cs1 ++ cs2)
  = grantsFrom h cs1 ++ grantsFrom (fold_left stepCall cs1 h) cs2.
Proof.
  revert h. induction cs1 as [|[t c] cs1 IH]; intros h; [done|].
  simpl. by rewrite IH, app_assoc.
Qed.

Lemma default_last_cons {A} (a b x : A) l :
  default a (last (x :: l)) = default b (last (x :: l)).
Proof. revert x. induction l as [|y l IH]; intros x; [done|]. apply (IH y). Qed.

Lemma grantsFrom_cons h tc cs :
  grantsFrom h (tc :: cs) = grantsFrom h [tc] ++ grantsFrom (stepCall h tc) cs.
Proof. apply (grantsFrom_app h [tc] cs). Qed.

(** What one call does to the dial-data log: it drops an aged front, and a
    grant appends the reading of the call. *)
Lemma stepCall_dialDataReqs h t c :
  ∃ aged,
    Forall (λ d, ¬ younger t d) aged ∧
    aged ++ dialDataReqs (h_limiter (stepCall h (t, c)))
    = dialDataReqs (h_limiter h) ++ grantsFrom h [(t, c)].
Proof.
  pose proof (take_firstFresh_aged t (dialDataReqs (h_limiter h))) as Haged.
  pose proof (take_drop (firstFresh t (dialDataReqs (h_limiter h)))
                (dialDataReqs (h_limiter h))) as Hsplit.
  fold (pruneLog t (dialDataReqs (h_limiter h))) in Hsplit.
  rewrite <- cleanup_dialDataReqs in Hsplit.
  destruct c as [p|p|p]; simpl.
  - eexists. split; [exact Haged|]. rewrite app_nil_r.
    etrans; [|exact Hsplit]. f_equal.
    unfold Accept. case_decide; [done|]. by destruct (_ || _).
  - eexists. split; [exact Haged|]. unfold AcceptDialDataRequest.
    destruct (_ <=? _); simpl.
    + rewrite app_nil_r. exact Hsplit.
    + rewrite app_assoc. f_equal. exact Hsplit.
  - exists []. split; [constructor|]. by rewrite app_nil_r.
Qed.

Lemma grants_fold (cs : list (Time * call)) : ∀ h (t0 : Time) old,
  StronglySorted Z.le (t0 :: (fst <$> cs)) →
  Forall (λ d, ¬ younger t0 d) old →
  ∃ old',
    old ++ dialDataReqs (h_limiter h) ++ grantsFrom h cs
    = old' ++ dialDataReqs (h_limiter (fold_left stepCall cs h)) ∧
    Forall (λ d, ¬ younger (default t0 (last (fst <$> cs))) d) old'.
Proof.
  induction cs as [|[t c] cs IH]; intros h t0 old Hs Hold.
  - exists old. simpl. by rewrite app_nil_r.
  - rewrite fmap_cons in Hs. cbn [fst] in Hs.
    apply StronglySorted_inv in Hs as [Hs Hall].
    apply Forall_cons in Hall as [Ht _].
    destruct (stepCall_dialDataReqs h t c) as (aged & Haged & Hstep).
    destruct (IH (stepCall h (t, c)) t (old ++ aged)) as (old' & Heq & Hold').
    + done.
    + apply Forall_app. split; [|done].
      eapply Forall_impl; [exact Hold|]. intros d. simpl. by apply not_younger_mono.
    + exists old'. split.
      * cbn [fold_left]. rewrite <- Heq.
        rewrite grantsFrom_cons.
        rewrite (app_assoc (dialDataReqs (h_limiter h))), <- Hstep.
        by rewrite <- !app_assoc.
      * destruct cs as [|tc' cs']; [exact Hold'|].
        rewrite !fmap_cons in *. change (last (t :: ?l)) with (last l).
        by rewrite (default_last_cons t0 t).
Qed.

Lemma runCalls_grants rpm perPeer dialData (cs : list (Time * call)) (t : Time) c :
  sortedTimes (fst <$> (cs ++ [(t, c)])) →
  ∃ old,
    grantsFrom (startHistory (newLimiter rpm perPeer dialData)) (cs ++ [(t, c)])
    = old ++ dialDataReqs
               (h_limiter (runCalls (newLimiter rpm perPeer dialData) (cs ++ [(t, c)]))) ∧
    Forall (λ d, ¬ younger t d) old.
Proof.
  intros Hs. apply sortedTimes_strongly in Hs.
  destruct (cs ++ [(t, c)]) as [|[t1 c1] rest] eqn:Hcs.
  { by destruct cs. }
  assert (last (fst <$> ((t1, c1) :: rest)) = Some t) as Hlast.
  { rewrite <- Hcs, fmap_app. apply last_snoc. }
  destruct (grants_fold ((t1, c1) :: rest)
              (startHistory (newLimiter rpm perPeer dialData)) t1 [])
    as (old & Heq & Hold).
  - rewrite fmap_cons in *. cbn [fst] in *. constructor; [done|].
    constructor; [lia|]. by apply StronglySorted_inv in Hs as [_ ?].
  - constructor.
  - exists old. rewrite Hlast in Hold. split; [|done]. exact Heq.
Qed.

(** X3: on a limiter built with dial-data quota [dialData], along any
    sequence of calls made at non-decreasing clock readings, every window of
    sixty seconds, wherever it ends, holds at most [dialData] calls of
    [AcceptDialDataRequest] that returned true. *)
Theorem dial_data_grants_per_window (rpm perPeer dialData : Z)
    (cs : list (Time * call)) (T : Time) :
  sortedTimes (fst <$> cs) →
  len (filter (inWindow T)
         (grantsFrom (startHistory (newLimiter rpm perPeer dialData)) cs))
  ≤ Z.max 0 dialData.
Proof.
  induction cs as [|[t c] cs IH] using rev_ind; intros Hs.
  { unfold len. simpl. lia. }
  pose proof Hs as Hs'. rewrite fmap_app in Hs'.
  specialize (IH (sortedTimes_app_l _ _ Hs')).
  destruct (decide (inWindow T t)) as [Hin | Hout].
  - destruct (runCalls_grants rpm perPeer dialData cs t c Hs) as (old & -> & Hold).
    destruct (runCalls_quotas rpm perPeer dialData (cs ++ [(t, c)]))
      as (_ & _ & HD & (_ & _ & Hd)).
    cbv zeta in HD, Hd. rewrite HD in Hd.
    etrans; [|exact Hd]. etrans; [|apply (len_filter_le (younger t))].
    etrans; [apply (filter_length_mono _ (younger t))|].
    + intros x _ Hx. by apply (inWindow_younger T).
    + rewrite filter_app, (filter_none _ old) by done. done.
  - rewrite grantsFrom_app, filter_app. simpl.
    replace (filter (inWindow T) _ ++ filter (inWindow T) _)
      with (filter (inWindow T)
              (grantsFrom (startHistory (newLimiter rpm perPeer dialData)) cs));
      [done|].
    destruct c as [p|p|p]; simpl; rewrite ?app_nil_r; try done.
    destruct (AcceptDialDataRequest _ _ _).1; simpl; rewrite ?app_nil_r; [|done].
    by rewrite filter_cons_False, filter_nil, app_nil_r.
Qed.

(** ** One request in flight per peer *)

Lemma Accept_ongoingReqs now p r q :
  q ∈ ongoingReqs r → q ∈ ongoingReqs (Accept now p r).2.
Proof.
  intros Hq. unfold Accept. cbv zeta.
  case_decide; simpl; [by rewrite cleanup_ongoingReqs|].
  destruct (_ || _); simpl; [by rewrite cleanup_ongoingReqs|].
  apply elem_of_union. right. by rewrite cleanup_ongoingReqs.
Qed.

Lemma AcceptDialDataRequest_ongoingReqs now p r :
  ongoingReqs (AcceptDialDataRequest now p r).2 = ongoingReqs r.
Proof.
  unfold AcceptDialDataRequest. destruct (_ <=? _); simpl; apply cleanup_ongoingReqs.
Qed.

Lemma stepCall_keeps_in_flight h tc p :
  tc.2 ≠ CallCompleteRequest p →
  p ∈ ongoingReqs (h_limiter h) → p ∈ ongoingReqs (h_limiter (stepCall h tc)).
Proof.
  destruct tc as [t [q|q|q]]; simpl; intros Hne Hp.
  - pose proof (Accept_ongoingReqs t q _ p Hp) as Hp'.
    by destruct (Accept t q (h_limiter h)).
  - pose proof (AcceptDialDataRequest_ongoingReqs t q (h_limiter h)) as Heq.
    destruct (AcceptDialDataRequest t q (h_limiter h)). simpl in *. by rewrite Heq.
  - apply elem_of_difference. split; [done|].
    rewrite elem_of_singleton. congruence.
Qed.

(** X4: a peer that [Accept] has admitted stays in flight through every
    call that is not its own [CompleteRequest], however much time passes and
    whatever the quotas are: until then every [Accept] for it is refused;
    [CompleteRequest] takes it out of the set. *)
Theorem in_flight_until_completed (now t' : Time) (p : peer_ID) (r : rateLimiter)
    (cs : list (Time * call)) :
  (Accept now p r).1 = true →
  Forall (λ tc, tc.2 ≠ CallCompleteRequest p) cs →
  let r' := h_limiter (fold_left stepCall cs (startHistory (Accept now p r).2)) in
  p ∈ ongoingReqs r' ∧
  Accept t' p r' = (false, cleanup t' r') ∧
  p ∉ ongoingReqs (CompleteRequest p r').
Proof.
  intros Hadm Hcs r'.
  assert (p ∈ ongoingReqs (Accept now p r).2) as Hin.
  { revert Hadm. unfold Accept. case_decide; [done|].
    destruct (_ || _); [done|]. intros _. simpl. apply elem_of_union. left.
    by apply elem_of_singleton. }
  assert (p ∈ ongoingReqs r') as Hin'.
  { subst r'.
    change (p ∈ ongoingReqs (h_limiter (startHistory (Accept now p r).2))) in Hin.
    revert Hin. generalize (startHistory (Accept now p r).2).
    induction Hcs as [|tc cs Htc _ IH]; intros h Hin; [done|].
    cbn [fold_left]. apply IH. by apply stepCall_keeps_in_flight. }
  split; [done|]. split.
  - unfold Accept. rewrite decide_True; [done|]. by rewrite cleanup_ongoingReqs.
  - unfold CompleteRequest. simpl. rewrite elem_of_difference, elem_of_singleton. tauto.
Qed.

(** ** [cleanup] twice, and what a refused call leaves behind *)

Lemma rateLimiter_eq (a b : rateLimiter) :
  PerPeerRPM a = PerPeerRPM b → RPM a = RPM b → DialDataRPM a = DialDataRPM b →
  reqs a = reqs b → peerReqs a = peerReqs b → dialDataReqs a = dialDataReqs b →
  ongoingReqs a = ongoingReqs b → a = b.
Proof. destruct a, b. simpl. by intros -> -> -> -> -> -> ->. Qed.

Lemma sortedTimes_drop n ts : sortedTimes ts → sortedTimes (drop n ts).
Proof.
  rewrite !sortedTimes_strongly. intros Hs.
  rewrite <- (take_drop n ts) in Hs. by apply StronglySorted_app_1_r in Hs.
Qed.

Lemma cleanup_sorted_reqs now r :
  sortedTimes (Time_ <$> reqs r) → sortedTimes (Time_ <$> reqs (cleanup now r)).
Proof. intros Hs. rewrite cleanup_reqs, fmap_drop. by apply sortedTimes_drop. Qed.

(** On a coherent limiter with sorted logs, a [cleanup] followed by a later
    one is the later one alone. *)
Lemma cleanup_cleanup t1 t2 r :
  coherent r → sortedTimes (Time_ <$> reqs r) → sortedTimes (dialDataReqs r) →
  t1 ≤ t2 → cleanup t2 (cleanup t1 r) = cleanup t2 r.
Proof.
  intros Hc Hs Hd Ht.
  destruct (cleanup_coherent t1 r Hc Hs Hd) as (Hr1 & _ & Hd1 & Hc1).
  assert (sortedTimes (dialDataReqs (cleanup t1 r))) as Hd1s.
  { rewrite cleanup_dialDataReqs. by apply sortedTimes_pruneLog. }
  destruct (cleanup_coherent t2 _ Hc1 (cleanup_sorted_reqs t1 r Hs) Hd1s)
    as (Hr12 & _ & Hd12 & Hc12).
  destruct (cleanup_coherent t2 r Hc Hs Hd) as (Hr2 & _ & Hd2 & Hc2).
  assert (reqs (cleanup t2 (cleanup t1 r)) = reqs (cleanup t2 r)) as Hreqs.
  { rewrite Hr12, Hr1, Hr2. apply list_filter_filter_l.
    intros e. by apply younger_mono. }
  destruct (cleanup_quotas t1 r) as (? & ? & ?).
  destruct (cleanup_quotas t2 r) as (? & ? & ?).
  destruct (cleanup_quotas t2 (cleanup t1 r)) as (? & ? & ?).
  apply rateLimiter_eq; try congruence.
  - apply map_eq. intros p. by rewrite Hc12, Hc2, Hreqs.
  - rewrite Hd12, Hd1, Hd2. apply list_filter_filter_l.
    intros d. by apply younger_mono.
  - by rewrite !cleanup_ongoingReqs.
Qed.

Lemma Accept_refused now p r :
  (Accept now p r).1 = false → (Accept now p r).2 = cleanup now r.
Proof. unfold Accept. case_decide; [done|]. by destruct (_ || _). Qed.

Lemma AcceptDialDataRequest_refused now p r :
  (AcceptDialDataRequest now p r).1 = false →
  (AcceptDialDataRequest now p r).2 = cleanup now r.
Proof. unfold AcceptDialDataRequest. by destruct (_ <=? _). Qed.

Lemma Accept_after_cleanup t1 t2 q r :
  cleanup t2 (cleanup t1 r) = cleanup t2 r →
  Accept t2 q (cleanup t1 r) = Accept t2 q r.
Proof. intros Heq. unfold Accept. by rewrite Heq. Qed.

Lemma AcceptDialDataRequest_after_cleanup t1 t2 q r :
  cleanup t2 (cleanup t1 r) = cleanup t2 r →
  AcceptDialDataRequest t2 q (cleanup t1 r) = AcceptDialDataRequest t2 q r.
Proof. intros Heq. unfold AcceptDialDataRequest. by rewrite Heq. Qed.

Lemma runCalls_cleanup_cleanup rpm perPeer dialData cs t1 t2 :
  sortedTimes (fst <$> cs) → t1 ≤ t2 →
  let r := h_limiter (runCalls (newLimiter rpm perPeer dialData) cs) in
  cleanup t2 (cleanup t1 r) = cleanup t2 r.
Proof.
  intros Hs Ht r. pose proof (core_runCalls rpm perPeer dialData cs Hs) as Hcore.
  cbv zeta in Hcore. apply cleanup_cleanup; [apply Hcore| |apply Hcore|done].
  by eapply core_sorted_reqs.
Qed.

(** X5: a refused call leaves no mark.  On a limiter reached by calls at
    non-decreasing clock readings, when [Accept] or [AcceptDialDataRequest]
    returns false, any later [Accept] or [AcceptDialDataRequest] returns the
    same answer and the same state as if the refused call had not been
    made: refusals consume no quota. *)
Theorem refused_calls_leave_no_mark (rpm perPeer dialData : Z)
    (cs : list (Time * call)) (t1 t2 : Time) (p q : peer_ID) :
  sortedTimes (fst <$> cs) → t1 ≤ t2 →
  let r := h_limiter (runCalls (newLimiter rpm perPeer dialData) cs) in
  ((Accept t1 p r).1 = false →
   Accept t2 q (Accept t1 p r).2 = Accept t2 q r ∧
   AcceptDialDataRequest t2 q (Accept t1 p r).2 = AcceptDialDataRequest t2 q r) ∧
  ((AcceptDialDataRequest t1 p r).1 = false →
   Accept t2 q (AcceptDialDataRequest t1 p r).2 = Accept t2 q r ∧
   AcceptDialDataRequest t2 q (AcceptDialDataRequest t1 p r).2
   = AcceptDialDataRequest t2 q r).
Proof.
  intros Hs Ht r.
  pose proof (runCalls_cleanup_cleanup rpm perPeer dialData cs t1 t2 Hs Ht) as Hcc.
  cbv zeta in Hcc. fold r in Hcc. split; intros Hno.
  - rewrite (Accept_refused _ _ _ Hno).
    split; [by apply Accept_after_cleanup | by apply AcceptDialDataRequest_after_cleanup].
  - rewrite (AcceptDialDataRequest_refused _ _ _ Hno).
    split; [by apply Accept_after_cleanup | by apply AcceptDialDataRequest_after_cleanup].
Qed.

(** ** The two quotas do not interfere *)

Lemma Accept_decision_congr t q x y :
  reqs x = reqs y → peerReqs x = peerReqs y → ongoingReqs x = ongoingReqs y →
  RPM x = RPM y → PerPeerRPM x = PerPeerRPM y →
  (Accept t q x).1 = (Accept t q y).1.
Proof.
  intros H1 H2 H3 H4 H5. unfold Accept, cleanup. rewrite H1, H2, H3, H4, H5.
  destruct (cleanupReqs _ _ _) as [idx m]. cbv zeta. simpl.
  case_decide; [done|]. by destruct (_ || _).
Qed.

Lemma AcceptDialDataRequest_decision_congr t q x y :
  dialDataReqs x = dialDataReqs y → DialDataRPM x = DialDataRPM y →
  (AcceptDialDataRequest t q x).1 = (AcceptDialDataRequest t q y).1.
Proof.
  intros H1 H2. unfold AcceptDialDataRequest. cbv zeta.
  rewrite !cleanup_dialDataReqs, H1.
  destruct (cleanup_quotas t x) as (_ & _ & ->).
  destruct (cleanup_quotas t y) as (_ & _ & ->). rewrite H2.
  by destruct (_ <=? _).
Qed.

(** X6: the admission quotas and the dial-data quota are kept apart.  On a
    limiter reached by calls at non-decreasing clock readings, whether a
    later [Accept] admits does not depend on an [AcceptDialDataRequest]
    made before it, granted or not, and whether a later
    [AcceptDialDataRequest] grants does not depend on an [Accept] made
    before it, admitted or not. *)
Theorem quotas_do_not_interfere (rpm perPeer dialData : Z)
    (cs : list (Time * call)) (t1 t2 : Time) (p q : peer_ID) :
  sortedTimes (fst <$> cs) → t1 ≤ t2 →
  let r := h_limiter (runCalls (newLimiter rpm perPeer dialData) cs) in
  (Accept t2 q (AcceptDialDataRequest t1 p r).2).1 = (Accept t2 q r).1 ∧
  (AcceptDialDataRequest t2 q (Accept t1 p r).2).1 = (AcceptDialDataRequest t2 q r).1.
Proof.
  intros Hs Ht r.
  pose proof (runCalls_cleanup_cleanup rpm perPeer dialData cs t1 t2 Hs Ht) as Hcc.
  cbv zeta in Hcc. fold r in Hcc. split.
  - rewrite <- (Accept_after_cleanup t1 t2 q r Hcc).
    apply Accept_decision_congr;
      unfold AcceptDialDataRequest; cbv zeta; by destruct (_ <=? _).
  - rewrite <- (AcceptDialDataRequest_after_cleanup t1 t2 q r Hcc).
    apply AcceptDialDataRequest_decision_congr;
      unfold Accept; cbv zeta; (case_decide; [done|]); by destruct (_ || _).
Qed.

(** ** After a quiet minute *)

Lemma runCalls_time r cs t c : h_time (runCalls r (cs ++ [(t, c)])) = t.
Proof. rewrite runCalls_snoc. apply stepCall_time. Qed.

Lemma core_logs_past t h :
  coreInvariant t h →
  Forall (λ e, Time_ e ≤ t) (reqs (h_limiter h)) ∧
  Forall (λ d, d ≤ t) (dialDataReqs (h_limiter h)).
Proof.
  intros [_ _ _ _ (old & Hadm & _) _ _ Hpast _ Hdd]. split; [|done].
  rewrite Hadm in Hpast. by apply Forall_app in Hpast as [_ ?].
Qed.

(** A limiter reached by calls that all lie a minute or more back holds
    nothing after [cleanup]. *)
Lemma cleanup_after_quiet_minute rpm perPeer dialData cs now :
  sortedTimes (fst <$> cs) →
  Forall (λ t, Minute ≤ now - t) (fst <$> cs) →
  let r := h_limiter (runCalls (newLimiter rpm perPeer dialData) cs) in
  reqs (cleanup now r) = [] ∧ (∀ p, peerLog (peerReqs (cleanup now r)) p = []) ∧
  dialDataReqs (cleanup now r) = [].
Proof.
  intros Hs Hq r.
  pose proof (core_runCalls rpm perPeer dialData cs Hs) as Hcore. cbv zeta in Hcore.
  pose proof (core_sorted_reqs _ _ Hcore) as Hsr.
  destruct (core_logs_past _ _ Hcore) as [Hrp Hdp].
  destruct (cleanup_coherent now r) as (Hr & _ & Hd & Hc);
    [apply Hcore | done | apply Hcore |].
  assert (Forall (λ e, ¬ younger now (Time_ e)) (reqs r) ∧
          Forall (λ d, ¬ younger now d) (dialDataReqs r)) as [Hra Hda].
  { destruct cs as [|[t c] cs _] using rev_ind; [by split; constructor|].
    rewrite runCalls_time in Hrp, Hdp.
    rewrite fmap_app in Hq. apply Forall_app in Hq as [_ Hq].
    apply List.Forall_inv in Hq. simpl in Hq.
    unfold Minute, Second in Hq.
    split; (eapply Forall_impl; [eassumption|]); simpl; unfold younger; intros; lia. }
  assert (reqs (cleanup now r) = []) as Hnil by (rewrite Hr; by apply filter_none).
  split; [done|]. split.
  - intros p. rewrite (coherent_peerLog _ p Hc), Hnil. done.
  - rewrite Hd. by apply filter_none.
Qed.

(** X7: the limiter recovers.  Once every call made so far lies a minute or
    more back, nothing logged counts any more: [Accept] admits a peer
    exactly when both admission quotas are positive and the peer has no
    request in flight, and [AcceptDialDataRequest] grants exactly when its
    quota is positive. *)
Theorem quiet_minute_recovers (rpm perPeer dialData : Z)
    (cs : list (Time * call)) (now : Time) (p : peer_ID) :
  sortedTimes (fst <$> cs) →
  Forall (λ t, Minute ≤ now - t) (fst <$> cs) →
  let r := h_limiter (runCalls (newLimiter rpm perPeer dialData) cs) in
  ((Accept now p r).1 = true ↔ 0 < rpm ∧ 0 < perPeer ∧ p ∉ ongoingReqs r) ∧
  ((AcceptDialDataRequest now p r).1 = true ↔ 0 < dialData).
Proof.
  intros Hs Hq r.
  destruct (cleanup_after_quiet_minute rpm perPeer dialData cs now Hs Hq)
    as (Hr & Hp & Hd). fold r in Hr, Hp, Hd.
  destruct (runCalls_quotas rpm perPeer dialData cs) as (Hrpm & Hpp & Hdd & _).
  fold r in Hrpm, Hpp, Hdd.
  destruct (cleanup_quotas now r) as (Hq1 & Hq2 & Hq3).
  split.
  - unfold Accept. cbv zeta. rewrite cleanup_ongoingReqs, Hr, Hp, Hq1, Hq2, Hrpm, Hpp.
    change (len []) with 0.
    case_decide; simpl; [intuition discriminate|].
    destruct (rpm <=? 0) eqn:E1; destruct (perPeer <=? 0) eqn:E2; simpl;
      rewrite ?Z.leb_le, ?Z.leb_gt in *; split; intros; try done; lia.
  - unfold AcceptDialDataRequest. cbv zeta. rewrite Hd, Hq3, Hdd.
    change (len []) with 0.
    destruct (dialData <=? 0) eqn:E; simpl;
      rewrite ?Z.leb_le, ?Z.leb_gt in *; split; intros; try done; lia.
Qed.

(** ** The dial back, from first to last event *)

(** The run of [dialBack], outcome by outcome of the dialer. *)
Lemma dialBack_trace `{Externals} (w : World) (p : peer_ID) (addr : Multiaddr)
    (nonce : Z) (s : HState) :
  ∃ ticks,
    dialBack w p addr nonce s
    = (Go (dialBackOutcome w p nonce (st_ticks s)).1,
       mkHState (st_limiter s) (st_inbound s) (st_writes s) ticks
                (st_trace s ++ EvAddAddr p addr :: EvConnect p (w_connect w)
                   :: (dialBackOutcome w p nonce (st_ticks s)).2
                   ++ dialBackCleanup p)).
Proof.
  unfold dialBack, dialBackOutcome, dialBackCleanup. unfold_monad.
  destruct (w_connect w), (w_newStream w), (w_dialBackWrite w); cbn;
    rewrite <- ?app_assoc; cbn [app]; eexists; reflexivity.
Qed.

(** X8: [dialBack] leaves nothing behind on the dialer, however it ends.
    Its first action is to add the address for the peer; its last four,
    after a failed connect, a failed stream or a failed write as well as
    after a success, are to cancel the context, close the connections to
    the peer, clear its addresses and remove it from the peerstore.  The
    dial-back stream is closed exactly when it was opened, and reset
    exactly when the write of the nonce failed.  A status is always
    returned, and the client's stream and the limiter are not touched. *)
Theorem dialBack_always_cleans_up `{Externals} (w : World) (p : peer_ID)
    (addr : Multiaddr) (nonce : Z) (s : HState) :
  let s' := (dialBack w p addr nonce s).2 in
  let evs := tracedBy (dialBack w p addr nonce) s in
  (∃ st, resultOf (dialBack w p addr nonce) s = Go st) ∧
  (∃ body, evs = EvAddAddr p addr :: body
                 ++ [EvCancel; EvClosePeer p; EvClearAddrs p; EvRemovePeer p] ∧
           Forall (λ e, e ∉ [EvCancel; EvClosePeer p; EvClearAddrs p; EvRemovePeer p])
                  body) ∧
  (EvDialBackClose ∈ evs ↔ EvNewStream p true ∈ evs) ∧
  (EvDialBackReset ∈ evs ↔ EvDialBackWrite nonce false ∈ evs) ∧
  st_limiter s' = st_limiter s ∧ st_inbound s' = st_inbound s ∧
  st_writes s' = st_writes s.
Proof.
  intros s' evs. subst s' evs. unfold resultOf, tracedBy.
  destruct (dialBack_trace w p addr nonce s) as (ticks & ->).
  cbn [fst snd st_trace st_limiter st_inbound st_writes]. rewrite drop_app_length.
  split; [by eexists|]. split.
  { exists (EvConnect p (w_connect w) :: (dialBackOutcome w p nonce (st_ticks s)).2).
    split; [done|]. unfold dialBackOutcome.
    destruct (w_connect w), (w_newStream w), (w_dialBackWrite w); cbn;
      repeat (constructor; [rewrite !elem_of_cons, elem_of_nil;
                            intuition discriminate|]); constructor. }
  unfold dialBackOutcome, dialBackCleanup.
  destruct (w_connect w), (w_newStream w), (w_dialBackWrite w); cbn;
    (split; [solve_events|]); (split; [solve_events|]); done.
Qed.

(** ** How many reads the dial-data exchange takes *)

(** Every read but the last brings 100 bytes or more of a positive
    demand. *)
Lemma dialDataLoop_read_bound inbound : ∀ remain,
  let evs := (dialDataLoop remain inbound).2 in
  (remain ≤ 0 → evs = []) ∧ (0 < remain → 100 * (len evs - 1) < remain).
Proof.
  induction inbound as [|r inbound IH]; intros remain; simpl.
  - destruct (remain <=? 0) eqn:Hr; simpl.
    + apply Z.leb_le in Hr. split; [done|lia].
    + apply Z.leb_gt in Hr. split; [lia|]. unfold len. simpl. lia.
  - destruct (remain <=? 0) eqn:Hr; simpl.
    { apply Z.leb_le in Hr. split; [done|lia]. }
    apply Z.leb_gt in Hr. split; [lia|]. intros _.
    destruct r as [m|]; simpl; [|unfold len; simpl; lia].
    destruct (GetDialDataResponse m) as [d|]; simpl; [|unfold len; simpl; lia].
    destruct (_ && _) eqn:Hsmall; simpl; [unfold len; simpl; lia|].
    specialize (IH (remain - len d)).
    destruct (dialDataLoop (remain - len d) inbound) as [[e rest] evs].
    simpl in *. destruct IH as [IH0 IH1].
    assert (len (EvReadMsg (Some m) :: evs) = len evs + 1) as ->
      by (unfold len; simpl; lia).
    destruct (decide (remain - len d ≤ 0)) as [Hd|Hd].
    + rewrite (IH0 Hd). unfold len. simpl. lia.
    + apply andb_false_iff in Hsmall as [Hs|Hs]; apply Z.ltb_ge in Hs; [|lia].
      specialize (IH1 ltac:(lia)). lia.
Qed.

(** X9: the dial-data exchange cannot be dragged out.  When the random
    source panics ([maxHandshakeSizeBytes] not above
    [minHandshakeSizeBytes]) [getDialData] has done nothing on the stream.
    Otherwise it writes the request first and then only reads; it reads
    nothing when that write failed; and since every read but the last must
    bring 100 bytes or more, for a demand of [n] bytes it makes fewer than
    [n / 100 + 1] reads. *)
Theorem getDialData_read_bound `{Externals} (w : World) (idx : Z) (s : HState) :
  match drawNumBytes w with
  | None =>
      resultOf (getDialData w idx) s = Panicked ∧ tracedBy (getDialData w idx) s = []
  | Some n =>
      ∃ evs,
        tracedBy (getDialData w idx) s
        = EvWriteMsg (Message_DialDataRequest (uint32 idx) (uint64 n))
                     (w_write w (st_writes s)) :: evs ∧
        Forall isRead evs ∧
        (w_write w (st_writes s) = false → evs = []) ∧
        100 * (len evs - 1) < Z.max 0 n
  end.
Proof.
  unfold resultOf, tracedBy. pose proof (getDialData_run w idx s) as Hrun.
  destruct (drawNumBytes w) as [n|].
  2:{ rewrite Hrun. cbn. by rewrite drop_all. }
  cbn in Hrun. destruct (w_write w (st_writes s)).
  - pose proof (dialDataLoop_read_bound (st_inbound s) n) as Hb.
    pose proof (dialDataLoop_reads (st_inbound s) n) as Hr.
    destruct (dialDataLoop n (st_inbound s)) as [[e rest] evs].
    rewrite Hrun. cbn [fst snd st_trace] in *. rewrite drop_app_length.
    exists evs. split; [done|]. split; [done|]. split; [done|].
    destruct Hb as [Hb0 Hb1]. destruct (decide (n ≤ 0)) as [Hn|Hn].
    + rewrite (Hb0 Hn). unfold len. simpl. lia.
    + specialize (Hb1 ltac:(lia)). lia.
  - rewrite Hrun. cbn [fst snd st_trace]. rewrite drop_app_length.
    exists []. split; [done|]. split; [constructor|]. split; [done|].
    unfold len. simpl. lia.
Qed.

(** ** Runs of the handler, path by path *)

Lemma upTo_app f l1 l2 :
  Forall (λ e, f e = false) l1 → upTo f (l1 ++ l2) = l1 ++ upTo f l2.
Proof. induction 1 as [|e l1 He _ IH]; [done|]. simpl. by rewrite He, IH. Qed.

Lemma upTo_split f pre e post :
  f e = true → ∃ rest, pre = upTo f (pre ++ e :: post) ++ rest.
Proof.
  intros He. induction pre as [|a pre [rest IH]]; simpl.
  - rewrite He. by exists [].
  - destruct (f a); [by eexists|]. exists rest. simpl. by rewrite <- IH.
Qed.

Lemma afterFirst_app f l1 l2 :
  Forall (λ e, f e = false) l1 → afterFirst f (l1 ++ l2) = afterFirst f l2.
Proof. induction 1 as [|e l1 He _ IH]; [done|]. simpl. by rewrite He. Qed.

Lemma afterFirst_none f l : Forall (λ e, f e = false) l → afterFirst f l = [].
Proof. induction 1 as [|e l He _ IH]; [done|]. simpl. by rewrite He. Qed.

Lemma afterFirst_split f pre e post :
  f e = true → post `suffix_of` afterFirst f (pre ++ e :: post).
Proof.
  intros He. induction pre as [|a pre IH]; simpl.
  - by rewrite He.
  - destruct (f a); [|done]. apply suffix_app_r. by apply suffix_cons_r.
Qed.

(** An event marked by [f] comes after [g] when the trace has no marked
    event or [g] lies before the first one. *)
Lemma gate_split f g tr pre e post :
  Forall (λ e, f e = false) tr ∨ g ∈ upTo f tr →
  tr = pre ++ e :: post → f e = true → g ∈ pre.
Proof.
  intros [Hnone|Hg] -> He.
  - exfalso. by eapply (no_mark_split f).
  - destruct (upTo_split f pre e post He) as [rest Hrest].
    rewrite Hrest. apply elem_of_app. by left.
Qed.

Lemma bytesRead_nonneg tr : 0 ≤ bytesRead tr.
Proof.
  induction tr as [|e tr IH]; simpl; [done|].
  destruct e as [| | | | | | |[[]|]| | | | | | | | | | | | | | | |];
    try done. pose proof (len_nonneg data). lia.
Qed.

(** The fields of the limiter the three calls leave alone. *)
Lemma Accept_fields t p r ok r' :
  Accept t p r = (ok, r') →
  RPM r' = RPM r ∧ PerPeerRPM r' = PerPeerRPM r ∧ DialDataRPM r' = DialDataRPM r ∧
  (if ok then ((p ∉ ongoingReqs r) ∧ ongoingReqs r' = {[p]} ∪ ongoingReqs r)
   else ongoingReqs r' = ongoingReqs r).
Proof.
  unfold Accept. cbv zeta. destruct (cleanup_quotas t r) as (H1 & H2 & H3).
  pose proof (cleanup_ongoingReqs t r) as H4.
  case_decide as Hin; [intros [= <- <-]; by rewrite H1, H2, H3, H4|].
  destruct (_ || _); intros [= <- <-]; simpl; rewrite H1, H2, H3, H4; [done|].
  by rewrite H4 in Hin.
Qed.

Lemma AcceptDialDataRequest_fields t p r ok r' :
  AcceptDialDataRequest t p r = (ok, r') →
  RPM r' = RPM r ∧ PerPeerRPM r' = PerPeerRPM r ∧ DialDataRPM r' = DialDataRPM r ∧
  ongoingReqs r' = ongoingReqs r.
Proof.
  unfold AcceptDialDataRequest. cbv zeta. destruct (cleanup_quotas t r) as (H1 & H2 & H3).
  pose proof (cleanup_ongoingReqs t r) as H4.
  destruct (_ <=? _); intros [= <- <-]; simpl; by rewrite H1, H2, H3, H4.
Qed.

(** Goals that no event of a trace is marked, the trace built from explicit
    events, the reads of the dial-data loop and the events of a dial back. *)
Ltac clean_trace :=
  repeat first
    [ apply Forall_nil_2
    | apply Forall_cons_2; [reflexivity|]
    | apply Forall_app_2
    | match goal with
      | |- Forall _ (resetIfFailed ?b) => destruct b; cbn [resetIfFailed]
      | Hl : dialDataLoop _ _ = (_, _, ?evs) |- Forall _ ?evs =>
          eapply Forall_impl;
          [exact (dialDataLoop_reads_eq _ _ _ _ _ Hl)|]; intros ? [? ->]; reflexivity
      | Hd : Forall (λ e, isDialEvent e = true) ?devs |- Forall _ ?devs =>
          eapply Forall_impl; [exact Hd|]; by intros []
      end ].

(** The paths of a run, down to their leaves. *)
Ltac by_path Hp :=
  destruct Hp as [Hsvc | Hsvc Hmem | lim1 Hsvc Hmem Hacc
                  | lim1 lim2 evs Hsvc Hmem Hacc Hadm];
  [ | | |
    destruct Hadm as [r Hr Hbad | nonce' addrs' Hreq' Hsel'
                      | nonce' addrs' dialAddr' addrIdx' lim3 Hreq' Hsel' Hq
                      | nonce' addrs' dialAddr' addrIdx' lim3 evs' Hreq' Hsel' Hq Hdial];
    [ | | |
      destruct Hdial as [Hpol Hdraw | numBytes Hpol Hdraw Hw
                         | numBytes err rest evs0 Hpol Hdraw Hw Hloop
                         | numBytes rest evs0 st devs Hpol Hdraw Hw Hloop Hall Hadd
                         | st devs Hpol Hall Hadd] ] ].

Lemma dialPath_body `{Externals} srv w s nonce dialAddr addrIdx inbound evs :
  dialPath srv w s nonce dialAddr addrIdx inbound evs →
  Forall (λ e, isBracketEvent e = false) evs.
Proof. intros []; clean_trace. Qed.

Lemma admittedPath_body `{Externals} srv w s lim1 evs lim2 :
  admittedPath srv w s lim1 evs lim2 →
  Forall (λ e, isBracketEvent e = false) evs.
Proof.
  intros [| | |? ? ? ? ? ? ? ? ? Hd]; clean_trace. by eapply dialPath_body.
Qed.

Lemma admittedPath_limiter `{Externals} srv w s lim1 evs lim2 :
  admittedPath srv w s lim1 evs lim2 →
  RPM lim2 = RPM lim1 ∧ PerPeerRPM lim2 = PerPeerRPM lim1 ∧
  DialDataRPM lim2 = DialDataRPM lim1 ∧ ongoingReqs lim2 = ongoingReqs lim1.
Proof.
  intros [| |? ? ? ? ? ? ? Hq|? ? ? ? ? ? ? ? Hq]; try done;
    by eapply AcceptDialDataRequest_fields.
Qed.

(** The limiter a run leaves: the quotas and the set of peers in flight are
    those it started with, and logs within the quotas stay within them. *)
Lemma runHandler_limiter `{Externals} (srv : server) (w : World) (s : Stream)
    (lim : rateLimiter) :
  let lim' := st_limiter (runHandler srv w s lim) in
  ongoingReqs lim' = ongoingReqs lim ∧
  RPM lim' = RPM lim ∧ PerPeerRPM lim' = PerPeerRPM lim ∧
  DialDataRPM lim' = DialDataRPM lim ∧
  (withinQuotas lim → withinQuotas lim').
Proof.
  cbv zeta.
  destruct (handleDialRequest_path srv w s lim)
    as [Hsvc | Hsvc Hmem | lim1 Hsvc Hmem Hacc | lim1 lim2 evs Hsvc Hmem Hacc Hadm].
  - done.
  - done.
  - destruct (Accept_fields _ _ _ _ _ Hacc) as (-> & -> & -> & ->).
    do 4 (split; [done|]). intros Hq.
    apply (Accept_withinQuotas (w_clock w 1%nat) (RemotePeer (StreamConn s))) in Hq.
    by rewrite Hacc in Hq.
  - destruct (Accept_fields _ _ _ _ _ Hacc) as (H1 & H2 & H3 & Hnot & H4).
    destruct (admittedPath_limiter _ _ _ _ _ _ Hadm) as (H5 & H6 & H7 & H8).
    unfold CompleteRequest. cbn [ongoingReqs RPM PerPeerRPM DialDataRPM].
    split.
    { rewrite H8, H4. apply set_eq. intros q.
      rewrite elem_of_difference, elem_of_union, elem_of_singleton.
      split; [intros [[->|?] ?]; done|]. intros Hq. split; [by right|].
      by intros ->. }
    do 3 (split; [congruence|]). intros Hq.
    apply (Accept_withinQuotas (w_clock w 1%nat) (RemotePeer (StreamConn s))) in Hq.
    rewrite Hacc in Hq. simpl in Hq.
    assert (withinQuotas lim2) as Hq2.
    { destruct Hadm as [| |? ? ? ? ? ? ? Hdd|? ? ? ? ? ? ? ? Hdd]; try done;
        apply (AcceptDialDataRequest_withinQuotas (w_clock w 2%nat)
                 (RemotePeer (StreamConn s))) in Hq;
        by rewrite Hdd in Hq. }
    exact Hq2.
Qed.

(** X10: a run of the handler gives back the peer's slot.  Whatever
    happens in the run (a refusal, a bad request, a failed dial-data
    exchange, a failed write, a panic of the random source), the set of
    peers with a request in flight is afterwards what it was before the
    run, and the three quotas are untouched; [CompleteRequest] is called
    exactly when [Accept] admitted the peer, as the last thing before the
    stream is closed and the memory released. *)
Theorem handler_frees_in_flight_slot `{Externals} (srv : server) (w : World)
    (s : Stream) (lim : rateLimiter) :
  let lim' := st_limiter (runHandler srv w s lim) in
  let tr := st_trace (runHandler srv w s lim) in
  let p := RemotePeer (StreamConn s) in
  ongoingReqs lim' = ongoingReqs lim ∧
  RPM lim' = RPM lim ∧ PerPeerRPM lim' = PerPeerRPM lim ∧
  DialDataRPM lim' = DialDataRPM lim ∧
  (EvAccept p true ∈ tr ↔ EvCompleteRequest p ∈ tr) ∧
  (EvAccept p true ∈ tr →
   ∃ body, tr = body ++ [EvCompleteRequest p; EvStreamClose; EvReleaseMemory]).
Proof.
  cbv zeta.
  destruct (runHandler_limiter srv w s lim) as (H1 & H2 & H3 & H4 & _).
  do 4 (split; [done|]). clear H1 H2 H3 H4.
  destruct (handleDialRequest_path srv w s lim)
    as [Hsvc | Hsvc Hmem | lim1 Hsvc Hmem Hacc | lim1 lim2 evs Hsvc Hmem Hacc Hadm].
  - split; solve_events.
  - split; solve_events.
  - destruct (w_write w 0%nat); cbn; split; solve_events.
  - split.
    + split; intros _.
      * rewrite !elem_of_app, !elem_of_cons. auto 10.
      * rewrite !elem_of_app, !elem_of_cons. auto 10.
    + intros _.
      exists ([EvSetService true; EvReserveMemory true;
               EvSetDeadline (Add (w_clock w 0%nat) streamTimeout);
               EvAccept (RemotePeer (StreamConn s)) true] ++ evs).
      by rewrite <- app_assoc.
Qed.

(** X11: the brackets of the handler.  When the service scope or the memory
    reservation fails the stream is reset and nothing else happens: no
    admission, no read, no write, the limiter as before.  Otherwise the run
    is: the reservation, the deadline [streamTimeout] after the first clock
    reading, the call of [Accept]; then the request proper, which holds no
    event of a bracket; then the deferred calls in the reverse of the order
    they were registered in, [CompleteRequest] when the request was
    admitted, the closing of the stream, the release of the memory. *)
Theorem handler_brackets `{Externals} (srv : server) (w : World) (s : Stream)
    (lim : rateLimiter) :
  let tr := st_trace (runHandler srv w s lim) in
  let p := RemotePeer (StreamConn s) in
  if w_setService w && w_reserveMemory w
  then
    ∃ ok body,
      tr = [EvSetService true; EvReserveMemory true;
            EvSetDeadline (Add (w_clock w 0%nat) streamTimeout); EvAccept p ok]
           ++ body
           ++ (if ok then [EvCompleteRequest p] else [])
           ++ [EvStreamClose; EvReleaseMemory] ∧
      Forall (λ e, isBracketEvent e = false) body ∧
      (Accept (w_clock w 1%nat) p lim).1 = ok
  else
    tr = EvSetService (w_setService w)
         :: (if w_setService w then [EvReserveMemory false] else [])
         ++ [EvStreamReset] ∧
    st_limiter (runHandler srv w s lim) = lim.
Proof.
  cbv zeta.
  destruct (handleDialRequest_path srv w s lim)
    as [Hsvc | Hsvc Hmem | lim1 Hsvc Hmem Hacc | lim1 lim2 evs Hsvc Hmem Hacc Hadm].
  - by rewrite Hsvc.
  - by rewrite Hsvc, Hmem.
  - rewrite Hsvc, Hmem, Hacc. cbn [andb fst].
    exists false, (EvWriteMsg responseRejected (w_write w 0%nat)
                     :: resetIfFailed (w_write w 0%nat)).
    split; [reflexivity|]. split; [clean_trace|done].
  - rewrite Hsvc, Hmem, Hacc. cbn [andb fst].
    exists true, evs. split; [reflexivity|].
    split; [by eapply admittedPath_body|done].
Qed.

(** ** What the limiter gates *)

Ltac in_explicit_prefix :=
  cbn; solve [repeat first [apply list_elem_of_here | apply list_elem_of_further]].

(** In every run, the first read, the first dial-data request and the
    first action of a dial back, when there is one, come after the call of
    the limiter that allows them. *)
Lemma handler_gates `{Externals} (srv : server) (w : World) (s : Stream)
    (lim : rateLimiter) :
  let tr := st_trace (runHandler srv w s lim) in
  let p := RemotePeer (StreamConn s) in
  (Forall (λ e, isReadEvent e = false) tr ∨ EvAccept p true ∈ upTo isReadEvent tr) ∧
  (Forall (λ e, isDataRequest e = false) tr
   ∨ EvAcceptDialDataRequest p true ∈ upTo isDataRequest tr) ∧
  (Forall (λ e, isDialEvent e = false) tr
   ∨ EvAcceptDialDataRequest p true ∈ upTo isDialEvent tr) ∧
  (Forall (λ e, isDialEvent e = false) tr ∨ EvAccept p true ∈ upTo isDialEvent tr).
Proof.
  cbv zeta. pose proof (handleDialRequest_path srv w s lim) as Hp.
  by_path Hp;
    (split; [|split; [|split]]);
    first [ left; solve [clean_trace] | right; in_explicit_prefix ].
Qed.

(** X12: the limiter gates everything the handler does for a client.  In
    every run, a read from the stream happens only after [Accept] has
    admitted the peer, and a dial-data request is written and an action of a
    dial back is taken only after [AcceptDialDataRequest] has granted.  A
    request the limiter refuses is therefore never read, and costs the
    server no dial. *)
Theorem limiter_gates_the_handler `{Externals} (srv : server) (w : World)
    (s : Stream) (lim : rateLimiter) (pre post : list Event) (e : Event) :
  let p := RemotePeer (StreamConn s) in
  st_trace (runHandler srv w s lim) = pre ++ e :: post →
  (isReadEvent e = true → EvAccept p true ∈ pre) ∧
  (isDataRequest e = true → EvAcceptDialDataRequest p true ∈ pre) ∧
  (isDialEvent e = true →
   EvAccept p true ∈ pre ∧ EvAcceptDialDataRequest p true ∈ pre).
Proof.
  intros p Htr. destruct (handler_gates srv w s lim) as (Hr & Hd & Hb & Ha).
  split; [intros He; by eapply (gate_split isReadEvent)|].
  split; [intros He; by eapply (gate_split isDataRequest)|].
  intros He. split; by eapply (gate_split isDialEvent).
Qed.

(** ** No dial back before the dial data *)

Lemma split_clean_prefix f (l1 l2 pre : list Event) e post :
  l1 ++ l2 = pre ++ e :: post → Forall (λ e, f e = false) l1 → f e = true →
  ∃ pre', pre = l1 ++ pre'.
Proof.
  intros Heq Hclean He. destruct (upTo_split f pre e post He) as [rest Hrest].
  rewrite <- Heq, upTo_app in Hrest by done.
  exists (upTo f l2 ++ rest). by rewrite app_assoc.
Qed.

(** X13: no dial back before the dial data is in.  When the policy asks
    for dial data for the address the loop has chosen, every action of a
    dial back in the run comes after the dial-data request for that address
    index and the drawn number of bytes went out, and after dial-data
    responses carrying at least that many bytes were read: the server does
    not send a packet to the address before the client has paid for it. *)
Theorem no_dial_before_dial_data `{Externals} (srv : server) (w : World)
    (s : Stream) (lim : rateLimiter) (nonce : Z) (addrs : list (list byte))
    (dialAddr : Multiaddr) (addrIdx : nat) (pre post : list Event) (e : Event) :
  let p := RemotePeer (StreamConn s) in
  hd None (w_inbound w) = Some (Message_DialRequest nonce addrs) →
  selectAddr srv p 0 addrs = Some (dialAddr, addrIdx) →
  dialDataRequestPolicy srv s dialAddr = true →
  st_trace (runHandler srv w s lim) = pre ++ e :: post →
  isDialEvent e = true →
  ∃ n, drawNumBytes w = Some n ∧
       EvWriteMsg (Message_DialDataRequest (uint32 (Z.of_nat addrIdx)) (uint64 n)) true
         ∈ pre ∧
       n ≤ bytesRead pre.
Proof.
  intros p Hreq Hsel Hpolicy Htr He.
  pose proof (handleDialRequest_path srv w s lim) as Hp. revert Htr.
  by_path Hp; intros Htr;
    try (exfalso; eapply (no_mark_split isDialEvent);
         [exact Htr | exact He | solve [clean_trace]]);
    rewrite Hreq in Hreq'; injection Hreq' as <- <-;
    fold p in Hsel'; rewrite Hsel in Hsel'; injection Hsel' as <- <-;
    [|congruence].
  destruct (dialDataLoop_success _ _ _ _ Hloop) as [_ Hsum].
  exists numBytes. split; [done|].
  set (l1 := [EvSetService true; EvReserveMemory true;
              EvSetDeadline (Add (w_clock w 0%nat) streamTimeout);
              EvAccept p true;
              EvReadMsg (Some (Message_DialRequest nonce addrs));
              EvAcceptDialDataRequest p true;
              EvWriteMsg (Message_DialDataRequest (uint32 (Z.of_nat addrIdx))
                                                  (uint64 numBytes)) true] ++ evs0).
  set (l2 := devs
             ++ EvWriteMsg (responseOK st (uint32 (Z.of_nat addrIdx))) (w_write w 1%nat)
             :: resetIfFailed (w_write w 1%nat)
             ++ [EvCompleteRequest p; EvStreamClose; EvReleaseMemory]).
  assert (l1 ++ l2 = pre ++ e :: post) as Heq.
  { rewrite <- Htr. subst l1 l2. cbn. by rewrite <- !app_assoc. }
  assert (Forall (λ e, isDialEvent e = false) l1) as Hclean
    by (subst l1; clean_trace).
  destruct (split_clean_prefix isDialEvent l1 l2 pre e post Heq Hclean He) as [pre' ->].
  subst l1.
  split.
  - apply elem_of_app. left. apply elem_of_app. left.
    do 6 apply list_elem_of_further. apply list_elem_of_here.
  - rewrite !bytesRead_app. pose proof (bytesRead_nonneg pre').
    match goal with
    | |- context [bytesRead (?a :: ?l)] => change (bytesRead (a :: l)) with 0
    end. lia.
Qed.

(** ** After a reset *)

Ltac after_reset :=
  repeat first
    [ progress cbn [afterFirst isReset app resetIfFailed]
    | rewrite <- app_assoc
    | rewrite afterFirst_app by solve [clean_trace]
    | match goal with |- context [resetIfFailed ?b] => destruct b end ].

Lemma handler_after_reset `{Externals} (srv : server) (w : World) (s : Stream)
    (lim : rateLimiter) :
  afterFirst isReset (st_trace (runHandler srv w s lim))
  `suffix_of` [EvCompleteRequest (RemotePeer (StreamConn s)); EvStreamClose;
               EvReleaseMemory].
Proof.
  pose proof (handleDialRequest_path srv w s lim) as Hp.
  by_path Hp; after_reset;
    first [ by exists [] | by eexists [_] | by eexists [_; _] | by eexists [_; _; _] ].
Qed.

(** X14: a reset is the end of the request.  In every run, what follows a
    reset of the stream is at most the deferred calls ([CompleteRequest],
    the closing of the stream, the release of the memory): after a reset
    the handler writes nothing, reads nothing, takes no action of a dial
    back, and does not reset the stream a second time. *)
Theorem nothing_after_reset `{Externals} (srv : server) (w : World) (s : Stream)
    (lim : rateLimiter) (pre post : list Event) :
  st_trace (runHandler srv w s lim) = pre ++ EvStreamReset :: post →
  post `suffix_of` [EvCompleteRequest (RemotePeer (StreamConn s)); EvStreamClose;
                    EvReleaseMemory].
Proof.
  intros Htr. etrans; [|apply handler_after_reset].
  rewrite Htr. by apply afterFirst_split.
Qed.

(** ** The response and the dial back it reports *)

Arguments dialBackOutcome : simpl never.
Arguments dialBackCleanup : simpl never.

Ltac norm_app := repeat (progress (rewrite <- ?app_assoc; cbn [app])).

Ltac with_dialBack_trace :=
  match goal with
  | |- context [dialBack ?w ?p ?a ?n ?s] =>
      let ticks := fresh "ticks" in
      let Heq := fresh "Heq" in
      destruct (dialBack_trace w p a n s) as [ticks Heq];
      rewrite Heq; cbn
  end.

(** The run in which a dial back is made, event by event: [pre] is what
    the dial-data exchange did and [k] the number of writes it made. *)
Lemma handleDialRequest_dialed `{Externals} srv w s lim lim1 lim2 nonce addrs inb
    dialAddr addrIdx pre k :
  w_setService w = true → w_reserveMemory w = true →
  Accept (w_clock w 1%nat) (RemotePeer (StreamConn s)) lim = (true, lim1) →
  w_inbound w = Some (Message_DialRequest nonce addrs) :: inb →
  selectAddr srv (RemotePeer (StreamConn s)) 0 addrs = Some (dialAddr, addrIdx) →
  AcceptDialDataRequest (w_clock w 2%nat) (RemotePeer (StreamConn s)) lim1
  = (true, lim2) →
  (dialDataRequestPolicy srv s dialAddr = false ∧ pre = [] ∧ k = 0%nat) ∨
  (∃ n rest evs,
     dialDataRequestPolicy srv s dialAddr = true ∧ drawNumBytes w = Some n ∧
     w_write w 0%nat = true ∧ dialDataLoop n inb = (None, rest, evs) ∧
     pre = EvWriteMsg (Message_DialDataRequest (uint32 (Z.of_nat addrIdx)) (uint64 n))
                      true :: evs ∧
     k = 1%nat) →
  let p := RemotePeer (StreamConn s) in
  st_trace (runHandler srv w s lim)
  = ([EvSetService true; EvReserveMemory true;
      EvSetDeadline (Add (w_clock w 0%nat) streamTimeout); EvAccept p true;
      EvReadMsg (Some (Message_DialRequest nonce addrs));
      EvAcceptDialDataRequest p true] ++ pre)
    ++ (EvAddAddr p dialAddr :: EvConnect p (w_connect w)
          :: (dialBackOutcome w p nonce 3).2 ++ dialBackCleanup p)
    ++ EvWriteMsg (responseOK (dialBackOutcome w p nonce 3).1 (uint32 (Z.of_nat addrIdx)))
                  (w_write w k)
    :: resetIfFailed (w_write w k)
    ++ [EvCompleteRequest p; EvStreamClose; EvReleaseMemory].
Proof.
  intros Hsvc Hmem Hacc Hin Hsel Hq Hcase p. subst p.
  unfold runHandler, handleDialRequest, startState, writeOrReset,
    limiterAccept, limiterAcceptDialDataRequest, limiterCompleteRequest,
    acceptAt, acceptDialDataRequestAt.
  unfold_monad. cbn.
  rewrite Hsvc, Hmem. cbn. rewrite Hacc. cbn. rewrite Hin. cbn.
  rewrite Hsel. cbn. rewrite Hq. cbn.
  destruct Hcase as [(Hpol & -> & ->)
                    |(n & rest & evs & Hpol & Hdraw & Hw & Hloop & -> & ->)];
    rewrite Hpol; cbn.
  - with_dialBack_trace.
    destruct (w_write w 0%nat); cbn; norm_app; reflexivity.
  - with_getDialData_run. rewrite Hdraw in Hg. cbn in Hg. rewrite Hw, Hloop in Hg.
    rewrite Hg. cbn. with_dialBack_trace.
    destruct (w_write w 1%nat); cbn; norm_app; reflexivity.
Qed.

Lemma marked_in_middle f (l1 mid l3 : list Event) x :
  Forall (λ e, f e = false) l1 → Forall (λ e, f e = false) l3 → f x = true →
  x ∈ l1 ++ mid ++ l3 ↔ x ∈ mid.
Proof.
  rewrite !Forall_forall. intros H1 H3 Hx. rewrite !elem_of_app. split; [|auto].
  intros [Hin|[Hin|Hin]]; [|done|].
  - specialize (H1 x Hin). congruence.
  - specialize (H3 x Hin). congruence.
Qed.

(** Either a dial back is made and reported, the trace being as
    [handleDialRequest_dialed] gives it, or the run holds no action of a
    dial back and no response with status OK. *)
Lemma handleDialRequest_response `{Externals} (srv : server) (w : World)
    (s : Stream) (lim : rateLimiter) :
  let tr := st_trace (runHandler srv w s lim) in
  let p := RemotePeer (StreamConn s) in
  (∃ nonce addrs dialAddr addrIdx l1 l3 k,
     hd None (w_inbound w) = Some (Message_DialRequest nonce addrs) ∧
     selectAddr srv p 0 addrs = Some (dialAddr, addrIdx) ∧
     tr = l1
          ++ ((EvAddAddr p dialAddr :: EvConnect p (w_connect w)
                 :: (dialBackOutcome w p nonce 3).2 ++ dialBackCleanup p)
              ++ [EvWriteMsg (responseOK (dialBackOutcome w p nonce 3).1
                                         (uint32 (Z.of_nat addrIdx)))
                             (w_write w k)])
          ++ l3 ∧
     Forall (λ e, isDialOrOKResponse e = false) l1 ∧
     Forall (λ e, isDialOrOKResponse e = false) l3)
  ∨ Forall (λ e, isDialOrOKResponse e = false) tr.
Proof.
  cbv zeta. pose proof (handleDialRequest_path srv w s lim) as Hp.
  remember (st_trace (runHandler srv w s lim)) as tr0 eqn:Etr in Hp.
  remember (st_limiter (runHandler srv w s lim)) as lim0 eqn:Elim in Hp. clear Elim.
  revert Etr.
  by_path Hp; intros Etr; try (right; rewrite <- Etr; solve [clean_trace]);
    left; destruct (w_inbound w) as [|r0 inb] eqn:Hin; try done;
    simpl in Hreq'; subst r0; simpl in *.
  - exists nonce', addrs', dialAddr', addrIdx',
      ([EvSetService true; EvReserveMemory true;
        EvSetDeadline (Add (w_clock w 0%nat) streamTimeout);
        EvAccept (RemotePeer (StreamConn s)) true;
        EvReadMsg (Some (Message_DialRequest nonce' addrs'));
        EvAcceptDialDataRequest (RemotePeer (StreamConn s)) true]
       ++ EvWriteMsg (Message_DialDataRequest (uint32 (Z.of_nat addrIdx'))
                                              (uint64 numBytes)) true :: evs0),
      (resetIfFailed (w_write w 1%nat)
       ++ [EvCompleteRequest (RemotePeer (StreamConn s)); EvStreamClose;
           EvReleaseMemory]),
      1%nat.
    split; [done|]. split; [done|]. split.
    { rewrite (handleDialRequest_dialed srv w s lim lim1 lim3 nonce' addrs' inb
                 dialAddr' addrIdx'
                 (EvWriteMsg (Message_DialDataRequest (uint32 (Z.of_nat addrIdx'))
                                                      (uint64 numBytes)) true :: evs0)
                 1%nat Hsvc Hmem Hacc Hin Hsel' Hq);
        [|right; by eexists numBytes, rest, evs0].
      cbv zeta. norm_app. reflexivity. }
    split; clean_trace.
  - exists nonce', addrs', dialAddr', addrIdx',
      [EvSetService true; EvReserveMemory true;
       EvSetDeadline (Add (w_clock w 0%nat) streamTimeout);
       EvAccept (RemotePeer (StreamConn s)) true;
       EvReadMsg (Some (Message_DialRequest nonce' addrs'));
       EvAcceptDialDataRequest (RemotePeer (StreamConn s)) true],
      (resetIfFailed (w_write w 0%nat)
       ++ [EvCompleteRequest (RemotePeer (StreamConn s)); EvStreamClose;
           EvReleaseMemory]),
      0%nat.
    split; [done|]. split; [done|]. split.
    { rewrite (handleDialRequest_dialed srv w s lim lim1 lim3 nonce' addrs' inb
                 dialAddr' addrIdx' [] 0%nat Hsvc Hmem Hacc Hin Hsel' Hq);
        [|by left].
      cbv zeta. norm_app. reflexivity. }
    split; clean_trace.
Qed.

Lemma dialBack_events_dial `{Externals} w p a nonce t :
  Forall (λ e, isDialEvent e = true)
    (EvAddAddr p a :: EvConnect p (w_connect w)
       :: (dialBackOutcome w p nonce t).2 ++ dialBackCleanup p).
Proof.
  unfold dialBackOutcome, dialBackCleanup.
  destruct (w_connect w), (w_newStream w), (w_dialBackWrite w); cbn;
    repeat constructor.
Qed.

(** X15: an OK response reports the dial back that was made.  Whenever the
    handler writes a response with status OK, the run has read a dial
    request, the index in the response is the one the address loop returned
    for it, the one address added on the dialer is the chosen address, for
    the requesting peer, the one nonce written on a dial-back stream is the
    nonce of the request, and the dial status in the response says what
    happened: OK exactly when that nonce was written, E_DIAL_ERROR exactly
    when the connection attempt failed, E_DIAL_BACK_ERROR exactly when the
    stream could not be opened or the write of the nonce failed. *)
Theorem response_reports_the_dial_back `{Externals} (srv : server) (w : World)
    (s : Stream) (lim : rateLimiter) (st : DialStatus) (idx : Z) (ok : bool) :
  let p := RemotePeer (StreamConn s) in
  let tr := st_trace (runHandler srv w s lim) in
  EvWriteMsg (responseOK st idx) ok ∈ tr →
  ∃ nonce addrs dialAddr addrIdx,
    hd None (w_inbound w) = Some (Message_DialRequest nonce addrs) ∧
    selectAddr srv p 0 addrs = Some (dialAddr, addrIdx) ∧
    idx = uint32 (Z.of_nat addrIdx) ∧
    EvAddAddr p dialAddr ∈ tr ∧
    (∀ q a, EvAddAddr q a ∈ tr → q = p ∧ a = dialAddr) ∧
    (∀ n b, EvDialBackWrite n b ∈ tr → n = nonce) ∧
    (st = DialStatus_OK ↔ EvDialBackWrite nonce true ∈ tr) ∧
    (st = DialStatus_E_DIAL_ERROR ↔ EvConnect p false ∈ tr) ∧
    (st = DialStatus_E_DIAL_BACK_ERROR ↔
       EvNewStream p false ∈ tr ∨ EvDialBackWrite nonce false ∈ tr).
Proof.
  intros p tr Hin. subst tr.
  destruct (handleDialRequest_response srv w s lim)
    as [(nonce & addrs & dialAddr & addrIdx & l1 & l3 & k & Hreq & Hsel & Htr & Hl1 & Hl3)
       |Hnone].
  2:{ rewrite Forall_forall in Hnone. by specialize (Hnone _ Hin). }
  fold p in Hsel, Htr.
  match type of Htr with
  | _ = _ ++ ?mid ++ _ =>
      pose proof (λ x, marked_in_middle isDialOrOKResponse l1 mid l3 x Hl1 Hl3) as Hmid
  end.
  rewrite <- Htr in Hmid. clear Htr Hl1 Hl3.
  exists nonce, addrs, dialAddr, addrIdx. split; [done|]. split; [done|].
  apply Hmid in Hin; [|reflexivity].
  apply elem_of_app in Hin as [Hin|Hin].
  { pose proof (dialBack_events_dial w p dialAddr nonce 3) as Hd.
    rewrite Forall_forall in Hd. by specialize (Hd _ Hin). }
  apply list_elem_of_singleton in Hin. injection Hin as -> -> _.
  split; [done|].
  unfold dialBackOutcome, dialBackCleanup in *.
  destruct (w_connect w), (w_newStream w), (w_dialBackWrite w); cbn in *;
    (split; [apply Hmid; [reflexivity|]; apply list_elem_of_here|]);
    (split; [intros q a Hx; apply Hmid in Hx; [|reflexivity];
             rewrite !elem_of_cons, elem_of_nil in Hx; intuition congruence|]);
    (split; [intros n b Hx; apply Hmid in Hx; [|reflexivity];
             rewrite !elem_of_cons, elem_of_nil in Hx; intuition congruence|]);
    (split; [|split]);
    (split;
     [ intros Hst; try discriminate Hst;
       first [ solve [apply Hmid; [reflexivity|]; in_explicit_prefix]
             | solve [left; apply Hmid; [reflexivity|]; in_explicit_prefix]
             | solve [right; apply Hmid; [reflexivity|]; in_explicit_prefix] ]
     | intros Hx; try reflexivity;
       repeat match type of Hx with
              | _ ∨ _ => destruct Hx as [Hx|Hx]
              end;
       (apply Hmid in Hx; [|reflexivity]);
       rewrite !elem_of_cons, elem_of_nil in Hx; intuition congruence ]).
Qed.

(** ** Requests handled one after the other *)

Lemma serveAll_limiter `{Externals} (srv : server) (runs : list (World * Stream)) :
  ∀ lim,
  let r := serveAll srv runs lim in
  ongoingReqs r = ongoingReqs lim ∧
  RPM r = RPM lim ∧ PerPeerRPM r = PerPeerRPM lim ∧ DialDataRPM r = DialDataRPM lim ∧
  (withinQuotas lim → withinQuotas r).
Proof.
  induction runs as [|[w s] runs IH]; intros lim; [done|].
  cbn [serveAll fold_left fst snd].
  destruct (runHandler_limiter srv w s lim) as (H1 & H2 & H3 & H4 & H5).
  destruct (IH (st_limiter (runHandler srv w s lim))) as (I1 & I2 & I3 & I4 & I5).
  unfold serveAll in *. cbv zeta in *.
  split; [congruence|]. do 3 (split; [congruence|]). auto.
Qed.

(** X16: the server stays within its quotas.  However many requests the
    server built by [newServer] has handled, one after the other, whatever
    the clients sent, whatever happened on the dialer and whatever the
    clock read, the global log holds at most [RPM] entries, every sublog at
    most [PerPeerRPM], the dial-data log at most [DialDataRPM] (nothing
    when a quota is not positive), no peer is left in flight, and the
    quotas are those the server was built with. *)
Theorem served_requests_keep_quotas `{Externals} (srv : server)
    (runs : list (World * Stream)) (rpm perPeer dialData : Z) :
  let r := serveAll srv runs (newLimiter rpm perPeer dialData) in
  len (reqs r) ≤ Z.max 0 rpm ∧
  (∀ p, len (peerLog (peerReqs r) p) ≤ Z.max 0 perPeer) ∧
  len (dialDataReqs r) ≤ Z.max 0 dialData ∧
  ongoingReqs r = ∅ ∧
  RPM r = rpm ∧ PerPeerRPM r = perPeer ∧ DialDataRPM r = dialData.
Proof.
  intros r.
  destruct (serveAll_limiter srv runs (newLimiter rpm perPeer dialData))
    as (Ho & Hr & Hp & Hd & Hq).
  fold r in Ho, Hr, Hp, Hd, Hq.
  assert (withinQuotas (newLimiter rpm perPeer dialData)) as Hstart
    by apply (runCalls_quotas rpm perPeer dialData []).
  destruct (Hq Hstart) as (Q1 & Q2 & Q3). rewrite Hr in Q1. rewrite Hd in Q3.
  split; [done|]. split; [intros p; specialize (Q2 p); by rewrite Hp in Q2|].
  by split.
Qed.

(** ** [cleanup], applied twice *)

Lemma firstFresh_pruned now ts : firstFresh now (pruneLog now ts) = 0%nat.
Proof.
  unfold pruneLog. induction ts as [|t ts IH]; [done|]. simpl.
  destruct (fresh now t) eqn:Hf; simpl; [by rewrite Hf|done].
Qed.

(** X17: [cleanup] is idempotent, on every limiter state with its maps
    made (as [Accept] and [AcceptDialDataRequest] make them before they call
    it), sorted or not, reached or not: a second [cleanup] at the same clock
    reading changes nothing, so calls of the limiter made at the same
    instant see the same logs. *)
Theorem cleanup_idempotent (now : Time) (r : rateLimiter) :
  cleanup now (cleanup now r) = cleanup now r.
Proof.
  assert (firstFresh now (Time_ <$> reqs (cleanup now r)) = 0%nat) as Hk.
  { rewrite cleanup_reqs, fmap_drop. apply (firstFresh_pruned now (Time_ <$> reqs r)). }
  destruct (cleanup_quotas now (cleanup now r)) as (? & ? & ?).
  apply rateLimiter_eq; try done.
  - by rewrite cleanup_reqs, Hk.
  - apply map_eq. intros q. by rewrite cleanup_peerReqs, Hk.
  - rewrite !cleanup_dialDataReqs. apply pruneLog_idem.
  - by rewrite !cleanup_ongoingReqs.
Qed.

(** ** A response or a reset *)

Lemma existsb_clean f (l : list Event) :
  Forall (λ e, f e = false) l → existsb f l = false.
Proof. induction 1 as [|e l He _ IH]; [done|]. simpl. by rewrite He. Qed.

Ltac answer_cases :=
  repeat first
    [ rewrite existsb_app
    | progress cbn [existsb isResponseSent isReset orb andb app resetIfFailed
                    responseRejected responseRefused responseOK]
    | rewrite existsb_clean by solve [clean_trace]
    | match goal with
      | Hw : w_write ?w ?n = _ |- context [w_write ?w ?n] => rewrite Hw
      | |- context [w_write ?w ?n] => destruct (w_write w n)
      end ].

(** X18: the client is answered once, by a response or by a reset.  No
    run both gets a response onto the stream and resets the stream; and a
    run does one of the two, unless the random source of [getDialData]
    panics, which happens only when [maxHandshakeSizeBytes] is not above
    [minHandshakeSizeBytes]. *)
Theorem response_or_reset `{Externals} (srv : server) (w : World) (s : Stream)
    (lim : rateLimiter) :
  let tr := st_trace (runHandler srv w s lim) in
  existsb isResponseSent tr && existsb isReset tr = false ∧
  (existsb isResponseSent tr || existsb isReset tr = false →
   drawNumBytes w = None ∧ maxHandshakeSizeBytes ≤ minHandshakeSizeBytes).
Proof.
  cbv zeta. pose proof (handleDialRequest_path srv w s lim) as Hp.
  by_path Hp; answer_cases; try (split; [reflexivity|discriminate]).
  split; [reflexivity|]. intros _. split; [done|].
  unfold drawNumBytes, Intn in Hdraw.
  destruct (_ <=? 0) eqn:Hle; [|done]. apply Z.leb_le in Hle. lia.
Qed.

(** ** The further properties at concrete inputs *)

Lemma admissions_per_window_witness :
  sortedTimes (fst <$> exampleCalls) ∧
  let h := runCalls (newLimiter 60 12 12) exampleCalls in
  len (filter (λ e, inWindow (61 * Second) (Time_ e)) (h_admitted h)) ≤ Z.max 0 60 ∧
  ∀ p, len (filter (inWindow (61 * Second)) (timesOf p (h_admitted h))) ≤ Z.max 0 12.
Proof.
  assert (sortedTimes (fst <$> exampleCalls)) as Hs.
  { repeat constructor; by vm_compute. }
  split; [exact Hs|].
  exact (admissions_per_window 60 12 12 exampleCalls (61 * Second) Hs).
Defined.

Lemma dial_data_grants_per_window_witness :
  sortedTimes (fst <$> exampleCalls) ∧
  len (filter (inWindow (61 * Second))
         (grantsFrom (startHistory (newLimiter 60 12 12)) exampleCalls))
  ≤ Z.max 0 12.
Proof.
  assert (sortedTimes (fst <$> exampleCalls)) as Hs.
  { repeat constructor; by vm_compute. }
  split; [exact Hs|].
  exact (dial_data_grants_per_window 60 12 12 exampleCalls (61 * Second) Hs).
Defined.

Lemma in_flight_until_completed_witness :
  let cs := [(1, CallAccept "QmB"); (2, CallAcceptDialDataRequest "QmA")] in
  (Accept 0 "QmA" exampleLimiter).1 = true ∧
  Forall (λ tc : Time * call, tc.2 ≠ CallCompleteRequest "QmA") cs ∧
  let r' := h_limiter (fold_left stepCall cs
                         (startHistory (Accept 0 "QmA" exampleLimiter).2)) in
  "QmA" ∈ ongoingReqs r' ∧
  Accept (120 * Second) "QmA" r' = (false, cleanup (120 * Second) r') ∧
  "QmA" ∉ ongoingReqs (CompleteRequest "QmA" r').
Proof.
  intros cs.
  assert ((Accept 0 "QmA" exampleLimiter).1 = true) as Hadm by (by vm_compute).
  assert (Forall (λ tc : Time * call, tc.2 ≠ CallCompleteRequest "QmA") cs) as Hcs.
  { repeat constructor; discriminate. }
  split; [exact Hadm|]. split; [exact Hcs|].
  exact (in_flight_until_completed 0 (120 * Second) "QmA" exampleLimiter cs Hadm Hcs).
Defined.

Lemma refused_calls_leave_no_mark_witness :
  let cs := [(0, CallAccept "QmA")] in
  let r := h_limiter (runCalls (newLimiter 1 12 12) cs) in
  sortedTimes (fst <$> cs) ∧ 1 ≤ 2 ∧
  ((Accept 1 "QmB" r).1 = false →
   Accept 2 "QmC" (Accept 1 "QmB" r).2 = Accept 2 "QmC" r ∧
   AcceptDialDataRequest 2 "QmC" (Accept 1 "QmB" r).2 = AcceptDialDataRequest 2 "QmC" r) ∧
  ((AcceptDialDataRequest 1 "QmB" r).1 = false →
   Accept 2 "QmC" (AcceptDialDataRequest 1 "QmB" r).2 = Accept 2 "QmC" r ∧
   AcceptDialDataRequest 2 "QmC" (AcceptDialDataRequest 1 "QmB" r).2
   = AcceptDialDataRequest 2 "QmC" r).
Proof.
  intros cs r.
  assert (sortedTimes (fst <$> cs)) as Hs by (repeat constructor).
  assert (1 ≤ 2) as Ht by lia.
  split; [exact Hs|]. split; [exact Ht|].
  exact (refused_calls_leave_no_mark 1 12 12 cs 1 2 "QmB" "QmC" Hs Ht).
Defined.

Lemma quotas_do_not_interfere_witness :
  let r := h_limiter (runCalls (newLimiter 60 12 12) exampleCalls) in
  sortedTimes (fst <$> exampleCalls) ∧ 61 * Second ≤ 62 * Second ∧
  (Accept (62 * Second) "QmB"
     (AcceptDialDataRequest (61 * Second) "QmClient" r).2).1
  = (Accept (62 * Second) "QmB" r).1 ∧
  (AcceptDialDataRequest (62 * Second) "QmB" (Accept (61 * Second) "QmClient" r).2).1
  = (AcceptDialDataRequest (62 * Second) "QmB" r).1.
Proof.
  intros r.
  assert (sortedTimes (fst <$> exampleCalls)) as Hs.
  { repeat constructor; by vm_compute. }
  assert (61 * Second ≤ 62 * Second) as Ht by (by vm_compute).
  split; [exact Hs|]. split; [exact Ht|].
  exact (quotas_do_not_interfere 60 12 12 exampleCalls (61 * Second) (62 * Second)
           "QmClient" "QmB" Hs Ht).
Defined.

Lemma quiet_minute_recovers_witness :
  let cs := [(0, CallAccept "QmA"); (1, CallCompleteRequest "QmA")] in
  let r := h_limiter (runCalls (newLimiter 1 1 1) cs) in
  sortedTimes (fst <$> cs) ∧
  Forall (λ t, Minute ≤ 61 * Second - t) (fst <$> cs) ∧
  ((Accept (61 * Second) "QmA" r).1 = true ↔ 0 < 1 ∧ 0 < 1 ∧ "QmA" ∉ ongoingReqs r) ∧
  ((AcceptDialDataRequest (61 * Second) "QmA" r).1 = true ↔ 0 < 1).
Proof.
  intros cs r.
  assert (sortedTimes (fst <$> cs)) as Hs by (repeat constructor; by vm_compute).
  assert (Forall (λ t, Minute ≤ 61 * Second - t) (fst <$> cs)) as Hq.
  { repeat constructor; by vm_compute. }
  split; [exact Hs|]. split; [exact Hq|].
  exact (quiet_minute_recovers 1 1 1 cs (61 * Second) "QmA" Hs Hq).
Defined.

Lemma limiter_gates_the_handler_witness :
  let tr := st_trace (runHandler (H := smallExternals) alwaysDialData payingWorld
                        exampleStream exampleLimiter) in
  let e := EvAddAddr "QmClient" (ip4tcp xcb x00 x71 x05) in
  tr = take 8 tr ++ e :: drop 9 tr ∧
  (isReadEvent e = true → EvAccept "QmClient" true ∈ take 8 tr) ∧
  (isDataRequest e = true → EvAcceptDialDataRequest "QmClient" true ∈ take 8 tr) ∧
  (isDialEvent e = true →
   EvAccept "QmClient" true ∈ take 8 tr ∧
   EvAcceptDialDataRequest "QmClient" true ∈ take 8 tr).
Proof.
  intros tr e.
  assert (tr = take 8 tr ++ e :: drop 9 tr) as Htr by (by vm_compute).
  split; [exact Htr|].
  exact (limiter_gates_the_handler (H := smallExternals) alwaysDialData payingWorld
           exampleStream exampleLimiter (take 8 tr) (drop 9 tr) e Htr).
Defined.

Lemma no_dial_before_dial_data_witness :
  let p := RemotePeer (StreamConn exampleStream) in
  let tr := st_trace (runHandler (H := smallExternals) alwaysDialData payingWorld
                        exampleStream exampleLimiter) in
  let e := EvAddAddr "QmClient" (ip4tcp xcb x00 x71 x05) in
  hd None (w_inbound payingWorld)
  = Some (Message_DialRequest 7 [ip4tcpBytes xcb x00 x71 x05]) ∧
  selectAddr (H := smallExternals) alwaysDialData p 0 [ip4tcpBytes xcb x00 x71 x05]
  = Some (ip4tcp xcb x00 x71 x05, 0%nat) ∧
  dialDataRequestPolicy alwaysDialData exampleStream (ip4tcp xcb x00 x71 x05) = true ∧
  tr = take 8 tr ++ e :: drop 9 tr ∧
  isDialEvent e = true ∧
  ∃ n, drawNumBytes (H := smallExternals) payingWorld = Some n ∧
       EvWriteMsg (Message_DialDataRequest (uint32 (Z.of_nat 0)) (uint64 n)) true
         ∈ take 8 tr ∧
       n ≤ bytesRead (take 8 tr).
Proof.
  intros p tr e.
  assert (selectAddr (H := smallExternals) alwaysDialData p 0
            [ip4tcpBytes xcb x00 x71 x05]
          = Some (ip4tcp xcb x00 x71 x05, 0%nat)) as Hsel by (by vm_compute).
  assert (tr = take 8 tr ++ e :: drop 9 tr) as Htr by (by vm_compute).
  split; [reflexivity|]. split; [exact Hsel|]. split; [reflexivity|].
  split; [exact Htr|]. split; [reflexivity|].
  exact (no_dial_before_dial_data (H := smallExternals) alwaysDialData payingWorld
           exampleStream exampleLimiter 7 [ip4tcpBytes xcb x00 x71 x05]
           (ip4tcp xcb x00 x71 x05) 0%nat (take 8 tr) (drop 9 tr) e
           eq_refl Hsel eq_refl Htr eq_refl).
Defined.

Lemma response_reports_the_dial_back_witness :
  let w := calmWorld [Some exampleRequest] in
  let p := RemotePeer (StreamConn exampleStream) in
  let tr := st_trace (runHandler (H := exampleExternals) neverDialData w exampleStream
                        exampleLimiter) in
  EvWriteMsg (responseOK DialStatus_OK 0) true ∈ tr ∧
  ∃ nonce addrs dialAddr addrIdx,
    hd None (w_inbound w) = Some (Message_DialRequest nonce addrs) ∧
    selectAddr (H := exampleExternals) neverDialData p 0 addrs = Some (dialAddr, addrIdx) ∧
    0 = uint32 (Z.of_nat addrIdx) ∧
    EvAddAddr p dialAddr ∈ tr ∧
    (∀ q a, EvAddAddr q a ∈ tr → q = p ∧ a = dialAddr) ∧
    (∀ n b, EvDialBackWrite n b ∈ tr → n = nonce) ∧
    (DialStatus_OK = DialStatus_OK ↔ EvDialBackWrite nonce true ∈ tr) ∧
    (DialStatus_OK = DialStatus_E_DIAL_ERROR ↔ EvConnect p false ∈ tr) ∧
    (DialStatus_OK = DialStatus_E_DIAL_BACK_ERROR ↔
       EvNewStream p false ∈ tr ∨ EvDialBackWrite nonce false ∈ tr).
Proof.
  intros w p tr.
  assert (EvWriteMsg (responseOK DialStatus_OK 0) true ∈ tr) as Hin.
  { vm_compute. do 19 apply list_elem_of_further. apply list_elem_of_here. }
  split; [exact Hin|].
  exact (response_reports_the_dial_back (H := exampleExternals) neverDialData w
           exampleStream exampleLimiter DialStatus_OK 0 true Hin).
Defined.

Lemma nothing_after_reset_witness :
  let tr := st_trace (runHandler (H := exampleExternals) exampleServer
                        (calmWorld [Some exampleRequest]) exampleStream
                        exampleLimiter) in
  tr = take 8 tr ++ EvStreamReset :: drop 9 tr ∧
  drop 9 tr `suffix_of` [EvCompleteRequest (RemotePeer (StreamConn exampleStream));
                         EvStreamClose; EvReleaseMemory].
Proof.
  intros tr.
  assert (tr = take 8 tr ++ EvStreamReset :: drop 9 tr) as Htr by (by vm_compute).
  split; [exact Htr|].
  exact (nothing_after_reset (H := exampleExternals) exampleServer
           (calmWorld [Some exampleRequest]) exampleStream exampleLimiter
           (take 8 tr) (drop 9 tr) Htr).
Defined.
